(** * Reference resolution, specifier rewriting, import repair and cycle
      detection of the TypeScript refactoring tools

    A shallow embedding of the services of the repository
    (dependency-visualization, check-deletable, file-rename, file-move,
    import-path-repair, import-optimization) together with the properties
    stated about them.

    Conventions.
    - JavaScript strings are [string], character by character: a character
      stands for a code unit of the string. [String.prototype.toLowerCase]
      follows the case tables of the host and may change the length of a
      string; it is one of the collaborators of the repair, which reads it
      from [ProjectSearch].
    - [Set<string>] is [gset string], [Map<string, V>] is [gmap string V],
      arrays are lists.
    - The recursive closure [dfs] is a fixpoint on an explicit fuel argument
      and returns [None] only when the fuel is exhausted; the lemma
      [dfs_enough_fuel] shows that the fuel handed out by
      [detectCircularDependencies] always suffices.
    - The file system is what the services read through [fs]: a function
      from absolute path strings to directory entries. The services that
      probe paths do so with normalized paths ([statSync]); the rename
      hands the strings of its caller to [fs.stat] and [fs.rename], which
      walk along their components ([Module Fs]).
    - Node's [path] module (POSIX flavour) is modelled in [Module path] on the
      list of the segments of a path. *)

From stdpp Require Import gmap gmultiset strings list fin_maps.
From Stdlib Require Import Ascii QArith Lqa.

#[local] Set Warnings "-clear-no-such-hyp".


(** ** JavaScript string primitives *)

Module Js.

(** [s.startsWith(p)] *)
Definition startsWith (s p : string) : bool := String.prefix p s.

(** [s.endsWith(p)]: some tail of [s] is [p]. *)
Fixpoint endsWith (s p : string) : bool :=
  if bool_decide (s = p) then true
  else match s with
       | EmptyString => false
       | String _ s' => endsWith s' p
       end.

(** [s.replace(/(a1|a2|...)$/, '')] for literal alternatives [alts]: the
    match is the leftmost position from which the rest of [s] is one of the
    alternatives, and it is removed. *)
Fixpoint stripSuffixMatch (alts : list string) (s : string) : string :=
  if bool_decide (s ∈ alts) then EmptyString
  else match s with
       | EmptyString => EmptyString
       | String c s' => String c (stripSuffixMatch alts s')
       end.

(** [/(a1|a2|...)$/.test(s)] *)
Fixpoint testSuffixMatch (alts : list string) (s : string) : bool :=
  if bool_decide (s ∈ alts) then true
  else match s with
       | EmptyString => false
       | String _ s' => testSuffixMatch alts s'
       end.

(** [s.slice(n)] for [0 <= n] *)
Fixpoint dropString (n : nat) (s : string) : string :=
  match n, s with
  | O, _ => s
  | S n', String _ s' => dropString n' s'
  | S _, EmptyString => EmptyString
  end.

(** The replacement text of [String.prototype.replace] with a string
    pattern: [$$] is a dollar sign, [$&] the matched text, [$`] the text
    before the match and [$'] the text after it; every other character
    stands for itself. *)
Fixpoint substitution (matched before after rep : string) : string :=
  match rep with
  | EmptyString => EmptyString
  | String c r =>
      if bool_decide (c = "$"%char) then
        match r with
        | String d r' =>
            if bool_decide (d = "$"%char)
            then String "$" (substitution matched before after r')
            else if bool_decide (d = "&"%char)
            then matched +:+ substitution matched before after r'
            else if bool_decide (d = "`"%char)
            then before +:+ substitution matched before after r'
            else if bool_decide (d = "'"%char)
            then after +:+ substitution matched before after r'
            else String c (substitution matched before after r)
        | EmptyString => String c EmptyString
        end
      else String c (substitution matched before after r)
  end.

(** [s.replace(pat, rep)] with a string pattern: only the first occurrence
    of [pat] is replaced. [before] accumulates the text already passed. *)
Fixpoint replaceGo (before : string) (pat rep s : string) : string :=
  if String.prefix pat s
  then substitution pat before (dropString (String.length pat) s) rep
         +:+ dropString (String.length pat) s
  else match s with
       | EmptyString => EmptyString
       | String c s' => String c (replaceGo (before +:+ String c EmptyString) pat rep s')
       end.

Definition replace (s pat rep : string) : string := replaceGo EmptyString pat rep s.

(** [s.replace(/c/g, d)] for characters [c] and [d]. *)
Fixpoint replaceAllChar (c d : ascii) (s : string) : string :=
  match s with
  | EmptyString => EmptyString
  | String a s' => String (if bool_decide (a = c) then d else a) (replaceAllChar c d s')
  end.

(** [s.split(sep)] for a one-character separator: never the empty list. *)
Fixpoint split (sep : ascii) (s : string) : list string :=
  match s with
  | EmptyString => [EmptyString]
  | String c s' =>
      if bool_decide (c = sep) then EmptyString :: split sep s'
      else match split sep s' with
           | x :: r => String c x :: r
           | [] => [String c EmptyString]
           end
  end.

(** [a.join(sep)] *)
Definition join (sep : string) (l : list string) : string := String.concat sep l.

(** [a.indexOf(x)] on an array: [-1] when absent. *)
Fixpoint indexOf (l : list string) (x : string) : Z :=
  match l with
  | [] => (-1)%Z
  | y :: l' =>
      if bool_decide (y = x) then 0%Z
      else let i := indexOf l' x in if (i <? 0)%Z then (-1)%Z else (i + 1)%Z
  end.

(** A JavaScript number, as far as a count is compared with it: a rational
    (every finite double is one), [NaN], or an infinity. *)
Inductive number := finite (q : Q) | NaN | Infinity | NegativeInfinity.

(** [n > x] for a count [n]. *)
Definition exceeds (n : nat) (x : number) : bool :=
  match x with
  | finite q => negb (Qle_bool (inject_Z (Z.of_nat n)) q)
  | NaN => false
  | Infinity => false
  | NegativeInfinity => true
  end.

(** [a.slice(start)]: a negative [start] counts from the end. *)
Definition slice {A} (l : list A) (start : Z) : list A :=
  if (start <? 0)%Z
  then drop (Z.to_nat (Z.max 0 (Z.of_nat (length l) + start))) l
  else drop (Z.to_nat start) l.

End Js.

(** ** Node's [path] module, POSIX flavour

    A path is examined through its segments, the pieces between slashes.
    [normalizeSegments] is [normalizeString]: empty segments and [.] are
    dropped, [..] removes the segment before it, and above the root it is
    dropped ([allowAboveRoot = false]) or kept. The current working directory
    [cwd] that [path.resolve] falls back to is an argument; it is an absolute
    path. *)

Module path.

Definition sep : string := "/".

Definition segmentsOf (p : string) : list string := Js.split "/"%char p.

Definition isAbsolute (p : string) : bool := Js.startsWith p "/".

(** [res] holds the segments kept so far, the last one first. *)
Fixpoint normalizeSegments (allowAboveRoot : bool) (res segs : list string)
    : list string :=
  match segs with
  | [] => reverse res
  | s :: rest =>
      if bool_decide (s = "") || bool_decide (s = ".")
      then normalizeSegments allowAboveRoot res rest
      else if bool_decide (s = "..") then
        match res with
        | r :: res' =>
            if bool_decide (r = "..")
            then normalizeSegments allowAboveRoot
                   (if allowAboveRoot then ".." :: res else res) rest
            else normalizeSegments allowAboveRoot res' rest
        | [] =>
            normalizeSegments allowAboveRoot
              (if allowAboveRoot then [".."] else []) rest
        end
      else normalizeSegments allowAboveRoot (s :: res) rest
  end.

(** The arguments of [path.resolve] are read from the last to the first
    until an absolute one is found; [rargs] is the reversed argument list. *)
Fixpoint gather (cwd : string) (rargs : list string) : list string :=
  match rargs with
  | [] => segmentsOf cwd
  | p :: rest =>
      if bool_decide (p = "") then gather cwd rest
      else if isAbsolute p then segmentsOf p
      else gather cwd rest ++ segmentsOf p
  end.

Definition resolveSegments (cwd : string) (args : list string) : list string :=
  normalizeSegments false [] (gather cwd (reverse args)).

(** [path.resolve(...args)] *)
Definition resolve (cwd : string) (args : list string) : string :=
  "/" +:+ Js.join "/" (resolveSegments cwd args).

Fixpoint stripCommon (F T : list string) : list string * list string :=
  match F, T with
  | f :: F', t :: T' =>
      if bool_decide (f = t) then stripCommon F' T' else (F, T)
  | _, _ => (F, T)
  end.

(** [path.relative(from, to)]: one [..] for every segment of [from] below
    the common ancestor, then the segments of [to] below it. *)
Definition relative (cwd from to : string) : string :=
  let '(F, T) := stripCommon (resolveSegments cwd [from]) (resolveSegments cwd [to]) in
  Js.join "/" (replicate (length F) ".." ++ T).

Fixpoint dropTrailingEmpty (l : list string) : list string :=
  match l with
  | [] => []
  | x :: r =>
      match dropTrailingEmpty r with
      | [] => if bool_decide (x = "") then [] else [x]
      | r' => x :: r'
      end
  end.

(** [path.dirname(p)]: the scan runs from the end down to index 1, skips
    trailing slashes, then the last segment, and cuts at the slash before
    it. *)
Definition dirname (p : string) : string :=
  match p with
  | EmptyString => "."
  | String c t =>
      let hasRoot := bool_decide (c = "/"%char) in
      let R := removelast (dropTrailingEmpty (segmentsOf t)) in
      if bool_decide (R = []) then (if hasRoot then "/" else ".")
      else if hasRoot && bool_decide (R = [""]) then "//"
      else String c (Js.join "/" R)
  end.

(** [path.basename(p)]: the last segment that is not empty. *)
Definition basename (p : string) : string :=
  default "" (last (filter (λ s, s ≠ "") (segmentsOf p))).

(** The part of a file name from its last dot on: [None] when there is no
    dot. *)
Fixpoint lastDotSuffix (s : string) : option string :=
  match s with
  | EmptyString => None
  | String c s' =>
      match lastDotSuffix s' with
      | Some e => Some e
      | None => if bool_decide (c = "."%char) then Some s else None
      end
  end.

(** [path.extname(p)]: empty when the base name has no dot, starts with its
    only dot, or is [..]. *)
Definition extname (p : string) : string :=
  let b := basename p in
  match lastDotSuffix b with
  | None => ""
  | Some e => if bool_decide (e = b) || bool_decide (b = "..") then "" else e
  end.

(** [path.basename(p, ext)]: the base name without the suffix [ext], unless
    the base name is [ext] itself. *)
Definition basenameExt (p ext : string) : string :=
  let b := basename p in
  if bool_decide (ext = "") then b
  else if bool_decide (ext = p) then ""
  else if Js.endsWith b ext && negb (bool_decide (b = ext))
  then Js.stripSuffixMatch [ext] b
  else b.

(** [path.normalize(p)] *)
Definition normalize (p : string) : string :=
  if bool_decide (p = "") then "."
  else
    let abs := isAbsolute p in
    let trailing := Js.endsWith p "/" in
    let n := Js.join "/" (normalizeSegments (negb abs) [] (segmentsOf p)) in
    if bool_decide (n = "")
    then (if abs then "/" else if trailing then "./" else ".")
    else (if abs then "/" else "") +:+ n +:+ (if trailing then "/" else "").

(** [path.join(...args)]: the arguments that are not empty, joined by a
    slash and normalized. *)
Definition join (args : list string) : string :=
  match filter (λ s, s ≠ "") args with
  | [] => "."
  | l => normalize (Js.join "/" l)
  end.

End path.

(** ** Source files and the file system

    The AST collaborator (ts-morph) is represented by what the services read
    from it and write to it: the import declarations, the export
    declarations, the string literals of dynamic [import()] calls and the
    identifiers of the rest of the text. *)

Record NamedImport := {
  niName : string;
  niAlias : option string;
  niTypeOnly : bool;
}.

Record ImportDeclaration := {
  moduleSpecifier : string;
  defaultImport : option string;
  namespaceImport : option string;
  (** [None]: no named bindings; [Some []]: the empty braces. *)
  namedBindings : option (list NamedImport);
  isTypeOnly : bool;
}.

Record ExportDeclaration := {
  (** [None] for an export without [from]. *)
  exportSpecifier : option string;
  exportIsWildcard : bool;
  exportIsTypeOnly : bool;
}.

Record Identifier := {
  identText : string;
  (** in one of the type positions [isTypeIdentifier] looks for *)
  identInTypePosition : bool;
}.

Record SourceText := {
  importDeclarations : list ImportDeclaration;
  exportDeclarations : list ExportDeclaration;
  dynamicImports : list string;
  (** the identifiers outside the import declarations *)
  bodyIdentifiers : list Identifier;
}.

Inductive Entry :=
  | File (text : SourceText)
  | Directory.

(** What the services see of the machine: the working directory, [stat]
    and [realpath]. [realpath p = None] when [fs.realpathSync] throws. *)
Record FileSystem := {
  cwd : string;
  stat : string → option Entry;
  realpath : string → option string;
}.

(** [fs.statSync] as the services call it, with a path that [path.resolve]
    or [path.join] has normalized or that ts-morph normalizes before it
    opens the file: the walk of the operating system ends at the place
    the normalized absolute path names, and [stat fs] is asked with that
    path. *)
Definition statSync (fs : FileSystem) (p : string) : option Entry :=
  stat fs (path.resolve (cwd fs) [p]).

Definition existsSync (fs : FileSystem) (p : string) : bool :=
  bool_decide (is_Some (statSync fs p)).

(** [fs.writeFile]: the file at [p] now holds [text]. *)
Definition writeFile (fs : FileSystem) (p : string) (text : SourceText) : FileSystem :=
  let target := path.resolve (cwd fs) [p] in
  {| cwd := cwd fs;
     stat := λ q, if bool_decide (q = target) then Some (File text) else stat fs q;
     realpath := realpath fs |}.

Definition isFile (e : Entry) : bool :=
  match e with File _ => true | Directory => false end.

Definition isDirectory (e : Entry) : bool :=
  match e with File _ => false | Directory => true end.

(** The absolute path with the segments [segs]. *)
Definition pathOf (segs : list string) : string := "/" +:+ Js.join "/" segs.

(** ** The path lookup of the operating system

    [fs.stat] and [fs.rename] of [fs/promises] hand the strings they are
    given to the operating system, which does not normalize them: it walks
    from the root or from the working directory along the components of
    the path and looks every component up in the directory it has reached.
    This is the walk of Linux, without symbolic links; the root is a
    directory. *)

Module Fs.

Inductive Errno := ENOENT | ENOTDIR | EINVAL | EBUSY | EISDIR | ENOTEMPTY.

Definition describe (code : Errno) : string :=
  match code with
  | ENOENT => "ENOENT: no such file or directory"
  | ENOTDIR => "ENOTDIR: not a directory"
  | EINVAL => "EINVAL: invalid argument"
  | EBUSY => "EBUSY: resource busy or locked"
  | EISDIR => "EISDIR: illegal operation on a directory"
  | ENOTEMPTY => "ENOTEMPTY: directory not empty"
  end.

(** [error.message] of the error thrown by a call with two paths. *)
Definition message (code : Errno) (syscall path dest : string) : string :=
  describe code +:+ ", " +:+ syscall +:+ " '" +:+ path +:+ "' -> '" +:+ dest +:+ "'".

(** The entry at the place with the segments [segs]. *)
Definition lookup (fs : FileSystem) (segs : list string) : option Entry :=
  match segs with
  | [] => Some Directory
  | _ => stat fs (pathOf segs)
  end.

(** A component can be looked up in a directory only. [dir] holds the
    segments of the place reached, the last one first. *)
Definition searchable (fs : FileSystem) (dir : list string) : option Errno :=
  match lookup fs (reverse dir) with
  | Some Directory => None
  | Some (File _) => Some ENOTDIR
  | None => Some ENOENT
  end.

(** The place a component leads to: an empty component and [.] stay, [..]
    is the parent, and the parent of the root is the root. *)
Definition step (dir : list string) (component : string) : list string :=
  if bool_decide (component = "") || bool_decide (component = ".") then dir
  else if bool_decide (component = "..") then tail dir
  else component :: dir.

Fixpoint walk (fs : FileSystem) (dir : list string) (components : list string)
    : Errno + list string :=
  match components with
  | [] => inr dir
  | component :: rest =>
      match searchable fs dir with
      | Some code => inl code
      | None => walk fs (step dir component) rest
      end
  end.

(** Where the walk along [p] starts. *)
Definition start (fs : FileSystem) (p : string) : list string :=
  if path.isAbsolute p then [] else reverse (path.resolveSegments (cwd fs) []).

(** The directory that holds the last component of [p], that component,
    and whether slashes follow it. *)
Definition parent (fs : FileSystem) (p : string)
    : Errno + (list string * string * bool) :=
  let components := path.segmentsOf p in
  let named := path.dropTrailingEmpty components in
  match walk fs (start fs p) (removelast named) with
  | inl code => inl code
  | inr dir =>
      match searchable fs dir with
      | Some code => inl code
      | None => inr (reverse dir, List.last named "", bool_decide (named ≠ components))
      end
  end.

(** A last component that names an entry of its directory. *)
Definition isNormal (component : string) : bool :=
  negb (bool_decide (component = "")) && negb (bool_decide (component = "."))
    && negb (bool_decide (component = "..")).

(** The entry at [src], with everything below it, is found at [dst]. *)
Definition moved (fs : FileSystem) (src dst : string) : FileSystem :=
  {| cwd := cwd fs;
     stat := λ q,
       if bool_decide (q = dst) then stat fs src
       else if Js.startsWith q (dst +:+ "/")
       then stat fs (src +:+ Js.dropString (String.length dst) q)
       else if bool_decide (q = src) || Js.startsWith q (src +:+ "/") then None
       else stat fs q;
     realpath := realpath fs |}.

(** [fs.rename(oldPath, newPath)]: the error it throws, or the file system
    afterwards. The checks are those of [rename(2)], in its order: both
    parent directories are walked to, the last components have to be
    names, the source has to exist, slashes may follow the name of a
    directory only, a directory is not moved below itself nor onto one of
    its ancestors, and an entry is its own replacement. A file replaces a
    file. A directory replaces an empty directory only; [stat] does not
    list the entries of a directory, and a directory found at the
    destination is taken to hold some. *)
Definition rename (fs : FileSystem) (oldPath newPath : string) : Errno + FileSystem :=
  if bool_decide (oldPath = "") || bool_decide (newPath = "") then inl ENOENT
  else
    match parent fs oldPath with
    | inl code => inl code
    | inr (oldDir, oldLast, oldSlash) =>
        match parent fs newPath with
        | inl code => inl code
        | inr (newDir, newLast, newSlash) =>
            if negb (isNormal oldLast) || negb (isNormal newLast) then inl EBUSY
            else
              let src := oldDir ++ [oldLast] in
              let dst := newDir ++ [newLast] in
              match lookup fs src with
              | None => inl ENOENT
              | Some source =>
                  if negb (isDirectory source) && (oldSlash || newSlash) then inl ENOTDIR
                  else if bool_decide (src `prefix_of` newDir) then inl EINVAL
                  else if bool_decide (dst `prefix_of` oldDir) then inl ENOTEMPTY
                  else if bool_decide (src = dst) then inr fs
                  else
                    match source, lookup fs dst with
                    | _, None => inr (moved fs (pathOf src) (pathOf dst))
                    | File _, Some (File _) => inr (moved fs (pathOf src) (pathOf dst))
                    | File _, Some Directory => inl EISDIR
                    | Directory, Some (File _) => inl ENOTDIR
                    | Directory, Some Directory => inl ENOTEMPTY
                    end
              end
        end
    end.

(** [fs.stat(p)]: the entry the walk along [p] ends at; [None] when the
    call throws. *)
Definition stat (fs : FileSystem) (p : string) : option Entry :=
  if bool_decide (p = "") then None
  else
    match walk fs (start fs p) (path.segmentsOf p) with
    | inr dir => lookup fs (reverse dir)
    | inl _ => None
    end.

End Fs.

(** The first element of [l] that satisfies [f]: a [for] loop that returns
    at its first hit. *)
Fixpoint firstHit {A} (f : A → bool) (l : list A) : option A :=
  match l with
  | [] => None
  | x :: r => if f x then Some x else firstHit f r
  end.

(** A source file of the ts-morph project: its absolute path and its text. *)
Record SourceFile := {
  getFilePath : string;
  getText : SourceText;
}.

(** ** Dependency visualization: the cycle detector *)

Inductive Severity := warning | error.

Record DependencyNode := {
  id : string;
  filePath : string;
  imports : list string;
}.

Record CircularDependency := {
  cycle : list string;
  severity : Severity;
  suggestion : string;
}.

Definition generateCircularSuggestion (cycle : list string) : string :=
  if bool_decide (length cycle = 2%nat)
  then "Consider moving shared functionality to a separate module"
  else if bool_decide (length cycle = 3%nat)
  then "Try dependency injection or create an intermediate interface"
  else "Consider restructuring modules or using dependency injection".

(** The three variables the closure [dfs] captures and mutates. *)
Record DfsState := {
  circularDeps : list CircularDependency;
  visited : gset string;
  recursionStack : gset string;
}.

(** [new Map(nodes.map(n => [n.id, n]))]: a later node with the same id
    replaces an earlier one. *)
Definition nodeMapOf (nodes : list DependencyNode) : gmap string DependencyNode :=
  foldl (λ m n, <[id n := n]> m) ∅ nodes.

Definition reportCycle (nodeId : string) (path : list string) (st : DfsState) : DfsState :=
  let cycleStart := Js.indexOf path nodeId in
  let cycle := Js.slice path cycleStart ++ [nodeId] in
  {| circularDeps := circularDeps st ++
       [{| cycle := cycle;
           severity := if bool_decide (3 < length cycle)%nat then error else warning;
           suggestion := generateCircularSuggestion cycle |}];
     visited := visited st;
     recursionStack := recursionStack st |}.

Definition enter (nodeId : string) (st : DfsState) : DfsState :=
  {| circularDeps := circularDeps st;
     visited := {[nodeId]} ∪ visited st;
     recursionStack := {[nodeId]} ∪ recursionStack st |}.

Definition leave (nodeId : string) (st : DfsState) : DfsState :=
  {| circularDeps := circularDeps st;
     visited := visited st;
     recursionStack := recursionStack st ∖ {[nodeId]} |}.

(** The loop over [node.imports]: the imports that do not start with a dot
    are skipped, the others are visited in order. *)
Fixpoint forEachImport (visit : string → DfsState → option DfsState)
    (l : list string) (s : DfsState) : option DfsState :=
  match l with
  | [] => Some s
  | importPath :: l' =>
      if negb (Js.startsWith importPath ".") then forEachImport visit l' s
      else match visit importPath s with
           | Some s' => forEachImport visit l' s'
           | None => None
           end
  end.

Fixpoint dfs (fuel : nat) (nodeMap : gmap string DependencyNode)
    (nodeId : string) (path : list string) (st : DfsState) : option DfsState :=
  match fuel with
  | O => None
  | S fuel' =>
      if bool_decide (nodeId ∈ recursionStack st) then Some (reportCycle nodeId path st)
      else if bool_decide (nodeId ∈ visited st) then Some st
      else
        let st1 := enter nodeId st in
        let children :=
          match nodeMap !! nodeId with
          | Some node =>
              forEachImport (λ importPath, dfs fuel' nodeMap importPath (path ++ [nodeId]))
                (imports node) st1
          | None => Some st1
          end in
        leave nodeId <$> children
  end.

Definition initialDfsState : DfsState :=
  {| circularDeps := []; visited := ∅; recursionStack := ∅ |}.

(** The loop [for (const node of nodes) if (!visited.has(node.id)) dfs(node.id, [])]. *)
Fixpoint dfsRoots (fuel : nat) (nodeMap : gmap string DependencyNode)
    (nodes : list DependencyNode) (st : DfsState) : option DfsState :=
  match nodes with
  | [] => Some st
  | node :: rest =>
      if bool_decide (id node ∈ visited st) then dfsRoots fuel nodeMap rest st
      else match dfs fuel nodeMap (id node) [] st with
           | Some st' => dfsRoots fuel nodeMap rest st'
           | None => None
           end
  end.

Definition detectCircularDependencies (nodes : list DependencyNode)
    : option (list CircularDependency) :=
  let nodeMap := nodeMapOf nodes in
  circularDeps <$> dfsRoots (S (size nodeMap)) nodeMap nodes initialDfsState.

Definition mkNode (i : string) (imps : list string) : DependencyNode :=
  {| id := i; filePath := i; imports := imps |}.


(** *** Building the graph

    Of a [DependencyNode] the fields [id], [filePath] and [imports] are
    kept; [type], [exports] and [size] are read by the renderers only. *)

Definition createDependencyNode (fs : FileSystem) (sourceFile : SourceFile)
    (rootPath : string) : DependencyNode :=
  let filePath := getFilePath sourceFile in
  let relativePath := path.relative (cwd fs) rootPath filePath in
  {| id := relativePath;
     filePath := filePath;
     imports :=
       (λ importDecl,
          let moduleSpecifier := moduleSpecifier importDecl in
          if Js.startsWith moduleSpecifier "."
          then
            let resolvedPath :=
              path.resolve (cwd fs) [path.dirname filePath; moduleSpecifier] in
            path.relative (cwd fs) rootPath resolvedPath
          else moduleSpecifier)
       <$> importDeclarations (getText sourceFile) |}.

Fixpoint buildDependencyGraph (fs : FileSystem) (sourceFiles : list SourceFile)
    (rootPath : string) (maxDepth : Js.number) : list DependencyNode :=
  match sourceFiles with
  | [] => []
  | sourceFile :: rest =>
      let relativePath := path.relative (cwd fs) rootPath (getFilePath sourceFile) in
      let depth := length (Js.split "/"%char relativePath) in
      if Js.exceeds depth maxDepth
      then buildDependencyGraph fs rest rootPath maxDepth
      else createDependencyNode fs sourceFile rootPath
             :: buildDependencyGraph fs rest rootPath maxDepth
  end.

(** *** Vocabulary of the statements about the cycle detector *)

(** The severity a reported cycle is given, read off the length of the
    reported sequence (the closed walk, which names its first node twice). *)
Definition severity_by_length (c : CircularDependency) : Prop :=
  severity c = error ↔ (3 < length (cycle c))%nat.

(** What one call of [dfs] does to the three captured variables: nodes are
    added to [visited], the recursion stack is as before, and reports are
    appended, each with the severity its length gives. *)
Definition dfs_effect (st st' : DfsState) : Prop :=
  visited st ⊆ visited st'
  ∧ recursionStack st' = recursionStack st
  ∧ ∃ new, circularDeps st' = circularDeps st ++ new
           ∧ Forall severity_by_length new.

(** The measure of the termination argument: the nodes of the map that are
    not visited yet. The fuel only has to exceed it. *)
Definition unvisited (nodeMap : gmap string DependencyNode) (st : DfsState) : nat :=
  size (dom nodeMap ∖ visited st).

(** The graph that is one simple cycle through the ids [l], in this order:
    every node imports the next one and the last imports [first]. *)
Fixpoint ringFrom (first : string) (l : list string) : list DependencyNode :=
  match l with
  | [] => []
  | x :: r => {| id := x; filePath := x; imports := [hd first r] |} :: ringFrom first r
  end.

Definition ring (l : list string) : list DependencyNode := ringFrom (hd "" l) l.

(** The report for the closed walk [walk]. *)
Definition cycleReport (walk : list string) : CircularDependency :=
  {| cycle := walk;
     severity := if bool_decide (3 < length walk)%nat then error else warning;
     suggestion := generateCircularSuggestion walk |}.

(** ** check-deletable: the specifier resolver of the reference scanner *)

Module CheckDeletable.

Definition possiblePaths (resolvedPath : string) : list string :=
  [ resolvedPath;
    resolvedPath +:+ ".ts";
    resolvedPath +:+ ".tsx";
    resolvedPath +:+ ".js";
    resolvedPath +:+ ".jsx";
    path.join [resolvedPath; "index.ts"];
    path.join [resolvedPath; "index.tsx"];
    path.join [resolvedPath; "index.js"];
    path.join [resolvedPath; "index.jsx"] ].

Definition resolveModulePath (fs : FileSystem) (sourceFile : SourceFile)
    (moduleSpecifier : string) : option string :=
  let sourceDir := path.dirname (getFilePath sourceFile) in
  let resolvedPath := path.resolve (cwd fs) [sourceDir; moduleSpecifier] in
  match firstHit (existsSync fs) (possiblePaths resolvedPath) with
  | Some possiblePath => Some (default possiblePath (realpath fs possiblePath))
  | None => None
  end.

Definition getPathVariations (filePath : string) : list string :=
  let withoutExt := Js.stripSuffixMatch [".ts"; ".tsx"; ".js"; ".jsx"] filePath in
  [filePath]
    ++ (if bool_decide (withoutExt ≠ filePath) then [withoutExt] else [])
    ++ (if Js.startsWith (path.basename filePath) "index."
        then [path.dirname filePath] else []).

End CheckDeletable.

(** ** import-path-repair *)

Module ImportPathRepair.

Inductive ImportType := named | defaultT | namespace | sideEffect.

Inductive Status := repaired | not_found | multiple_matches | already_valid.

Record RepairResult := {
  originalPath : string;
  repairedPath : option string;
  importType : ImportType;
  namedImports : option (list string);
  status : Status;
  candidateFiles : option (list string);
  selectedFile : option string;
  reason : option string;
}.

Record FileMatch := {
  fmPath : string;
  exports : gset string;
  hasDefault : bool;
  distance : nat;
  similarity : Q;
}.

(** What the repair reads from its collaborators besides the file system:
    the result of a [glob] call for one pattern (below the project root, the
    ignored directories and test files left out, absolute paths); for a
    file the project could add, its named exports and whether it has a
    default export ([None]: the file could not be added); and
    [String.prototype.toLowerCase] of the host. *)
Record ProjectSearch := {
  glob : string → list string;
  fileExports : string → option (gset string * bool);
  toLowerCase : string → string;
}.

Definition getImportType (importDecl : ImportDeclaration) : ImportType :=
  match namespaceImport importDecl, defaultImport importDecl, namedBindings importDecl with
  | Some _, _, _ => namespace
  | None, Some _, _ => defaultT
  | None, None, Some _ => named
  | None, None, None => sideEffect
  end.

Definition getNamedImports (importDecl : ImportDeclaration) : list string :=
  match namedBindings importDecl with
  | Some elements => niName <$> elements
  | None => []
  end.

Definition extensions : list string := [".ts"; ".tsx"; ".js"; ".jsx"; ".d.ts"].

Definition resolveImportPath (fs : FileSystem) (currentFilePath importPath : string)
    : option string :=
  let currentDir := path.dirname currentFilePath in
  let resolved := path.resolve (cwd fs) [currentDir; importPath] in
  match firstHit (existsSync fs) ((λ ext, resolved +:+ ext) <$> extensions) with
  | Some hit => Some hit
  | None =>
      firstHit (existsSync fs)
        ((λ ext, path.resolve (cwd fs) [resolved; "index" +:+ ext]) <$> extensions)
  end.

(** A JavaScript string used as a condition: the empty string is false. *)
Definition orNull (s : string) : option string :=
  if bool_decide (s = "") then None else Some s.

Definition getFileNameFromPath (importPath : string) : option string :=
  let fileName := Js.stripSuffixMatch extensions (path.basename importPath) in
  if bool_decide (fileName = "index")
  then orNull (path.basename (path.dirname importPath))
  else orNull fileName.

(** The multiset of the characters of [chars1] found in [chars2], every
    character of [chars2] being used once: the loop with [indexOf] and
    [splice]. *)
Fixpoint removeFirst (c : ascii) (l : list ascii) : option (list ascii) :=
  match l with
  | [] => None
  | d :: l' =>
      if bool_decide (d = c) then Some l'
      else cons d <$> removeFirst c l'
  end.

Fixpoint countCommon (chars1 chars2 : list ascii) : nat :=
  match chars1 with
  | [] => 0
  | c :: rest =>
      match removeFirst c chars2 with
      | Some chars2' => S (countCommon rest chars2')
      | None => countCommon rest chars2
      end
  end.

Definition chars (s : string) : list ascii := String.list_ascii_of_string s.

(** [toLowerCase] is the lower-casing of the host; the lengths are those
    of the names as they are given. *)
Definition calculateSimilarity (toLowerCase : string → string) (str1 str2 : string) : Q :=
  let len1 := String.length str1 in
  let len2 := String.length str2 in
  if bool_decide (len1 = 0%nat) && bool_decide (len2 = 0%nat) then 1
  else if bool_decide (len1 = 0%nat) || bool_decide (len2 = 0%nat) then 0
  else if bool_decide (str1 = str2) then 1
  else
    let common := countCommon (chars (toLowerCase str1)) (chars (toLowerCase str2)) in
    Z.of_nat common # Pos.of_nat (Nat.max len1 len2).

Definition patterns (fileName : string) : list string :=
  [ "**/" +:+ fileName +:+ ".ts";
    "**/" +:+ fileName +:+ ".tsx";
    "**/" +:+ fileName +:+ ".js";
    "**/" +:+ fileName +:+ ".jsx";
    "**/" +:+ fileName +:+ ".d.ts";
    "**/" +:+ fileName +:+ "/index.ts";
    "**/" +:+ fileName +:+ "/index.tsx";
    "**/" +:+ fileName +:+ "/index.js";
    "**/" +:+ fileName +:+ "/index.jsx" ].

(** [[...new Set(allFiles)]]: the first occurrence of every path, in order. *)
Fixpoint unique (seen : gset string) (l : list string) : list string :=
  match l with
  | [] => []
  | x :: r =>
      if bool_decide (x ∈ seen) then unique seen r
      else x :: unique ({[x]} ∪ seen) r
  end.

Definition findFilesByName (search : ProjectSearch) (fileName : string)
    : list FileMatch :=
  let allFiles := concat (glob search <$> patterns fileName) in
  let uniqueFiles := unique ∅ allFiles in
  omap (λ filePath,
          match fileExports search filePath with
          | Some (exports, hasDefault) =>
              Some {| fmPath := filePath;
                      exports := exports;
                      hasDefault := hasDefault;
                      distance := 0;
                      similarity :=
                        calculateSimilarity (toLowerCase search) fileName
                          (path.basenameExt filePath (path.extname filePath)) |}
          | None => None
          end) uniqueFiles.

Definition calculateDirectoryDistance (fs : FileSystem) (dir1 dir2 : string) : nat :=
  let relativePath := path.relative (cwd fs) dir1 dir2 in
  let parts := filter (λ part, part ≠ ".") (Js.split "/"%char relativePath) in
  foldl (λ count part, if bool_decide (part = "..") then count + 2 else count + 1)%nat
        0%nat parts.

Definition scoreCandidates (fs : FileSystem) (candidates : list FileMatch)
    (currentFilePath : string) : list FileMatch :=
  (λ candidate,
     let currentDir := path.dirname currentFilePath in
     let candidateDir := path.dirname (fmPath candidate) in
     {| fmPath := fmPath candidate;
        exports := exports candidate;
        hasDefault := hasDefault candidate;
        distance := calculateDirectoryDistance fs currentDir candidateDir;
        similarity := similarity candidate |}) <$> candidates.

(** [requiredExports.every(exp => c.exports.has(exp))] *)
Definition hasAll (requiredExports : list string) (c : FileMatch) : bool :=
  forallb (λ exportName, bool_decide (exportName ∈ exports c)) requiredExports.

(** [aHasExports] of the comparator: 1 or 0. *)
Definition hasExports (importType : ImportType) (requiredExports : list string)
    (c : FileMatch) : bool :=
  match importType with
  | defaultT => hasDefault c
  | _ => hasAll requiredExports c
  end.

Definition flag (b : bool) : Z := if b then 1%Z else 0%Z.

(** The comparator handed to [sort]: negative when [a] goes first. *)
Definition compareCandidates (importType : ImportType) (requiredExports : list string)
    (a b : FileMatch) : Q :=
  let aHasExports := flag (hasExports importType requiredExports a) in
  let bHasExports := flag (hasExports importType requiredExports b) in
  if bool_decide (aHasExports ≠ bHasExports)
  then inject_Z (bHasExports - aHasExports)
  else if bool_decide (distance a ≠ distance b)
  then inject_Z (Z.of_nat (distance a) - Z.of_nat (distance b))
  else similarity b - similarity a.

(** [Array.prototype.sort] is stable: an element stays before the later
    elements it does not compare greater than. *)
Fixpoint insertSorted {A} (cmp : A → A → Q) (x : A) (l : list A) : list A :=
  match l with
  | [] => [x]
  | y :: r => if Qle_bool (cmp x y) 0 then x :: y :: r else y :: insertSorted cmp x r
  end.

Definition sort {A} (cmp : A → A → Q) (l : list A) : list A :=
  foldr (insertSorted cmp) [] l.

Definition selectBestCandidate (candidates : list FileMatch)
    (requiredExports : list string) (importType : ImportType) : option FileMatch :=
  if bool_decide (length candidates = 0%nat) then None
  else
    let filteredCandidates :=
      match importType with
      | defaultT => filter (λ c, hasDefault c = true) candidates
      | named =>
          if bool_decide (0 < length requiredExports)%nat
          then filter (λ c, hasAll requiredExports c = true) candidates
          else candidates
      | _ => candidates
      end in
    let filteredCandidates :=
      if bool_decide (length filteredCandidates = 0%nat) then candidates
      else filteredCandidates in
    head (sort (compareCandidates importType requiredExports) filteredCandidates).

Definition generateRelativePath (fs : FileSystem) (fromFile toFile : string) : string :=
  let fromDir := path.dirname fromFile in
  let relativePath := path.relative (cwd fs) fromDir toFile in
  let relativePath := Js.stripSuffixMatch extensions relativePath in
  if negb (Js.startsWith relativePath ".") then "./" +:+ relativePath
  else relativePath.

Definition repairSingleImport (fs : FileSystem) (search : ProjectSearch)
    (sourceFile : SourceFile) (importDecl : ImportDeclaration) : RepairResult :=
  let originalPath := moduleSpecifier importDecl in
  let currentFilePath := getFilePath sourceFile in
  if negb (Js.startsWith originalPath ".") && negb (Js.startsWith originalPath "/")
  then {| originalPath := originalPath; repairedPath := None;
          importType := getImportType importDecl; namedImports := None;
          status := already_valid; candidateFiles := None; selectedFile := None;
          reason := Some "External module import" |}
  else if match resolveImportPath fs currentFilePath originalPath with
          | Some resolvedPath => existsSync fs resolvedPath
          | None => false
          end
  then {| originalPath := originalPath; repairedPath := None;
          importType := getImportType importDecl; namedImports := None;
          status := already_valid; candidateFiles := None; selectedFile := None;
          reason := Some "Path already valid" |}
  else
  match getFileNameFromPath originalPath with
  | None =>
      {| originalPath := originalPath; repairedPath := None;
         importType := getImportType importDecl; namedImports := None;
         status := not_found; candidateFiles := None; selectedFile := None;
         reason := Some "Cannot extract filename from path" |}
  | Some fileName =>
      let candidateFiles := findFilesByName search fileName in
      if bool_decide (length candidateFiles = 0%nat)
      then {| originalPath := originalPath; repairedPath := None;
              importType := getImportType importDecl; namedImports := None;
              status := not_found; candidateFiles := None; selectedFile := None;
              reason := Some "No matching files found" |}
      else
        let namedImports := getNamedImports importDecl in
        let importType := getImportType importDecl in
        let scoredCandidates := scoreCandidates fs candidateFiles currentFilePath in
        match selectBestCandidate scoredCandidates namedImports importType with
        | None =>
            {| originalPath := originalPath; repairedPath := None;
               importType := importType; namedImports := Some namedImports;
               status := not_found;
               candidateFiles := Some (fmPath <$> candidateFiles);
               selectedFile := None;
               reason := Some "No suitable candidate found" |}
        | Some bestCandidate =>
            {| originalPath := originalPath;
               repairedPath :=
                 Some (generateRelativePath fs currentFilePath (fmPath bestCandidate));
               importType := importType; namedImports := Some namedImports;
               status := repaired;
               candidateFiles := Some (fmPath <$> candidateFiles);
               selectedFile := Some (fmPath bestCandidate);
               reason :=
                 Some ("Selected based on " +:+
                       (if bool_decide (0 < length namedImports)%nat
                        then "export matching" else "proximity")) |}
        end
  end.

Record ImportPathRepairOptions := {
  optFilePath : string;
  dryRun : bool;
}.

Record ImportPathRepairResult := {
  resFilePath : string;
  repairedImports : list RepairResult;
  errors : list string;
  totalImportsChecked : nat;
  totalImportsRepaired : nat;
}.

Definition setModuleSpecifier (importDecl : ImportDeclaration) (specifier : string)
    : ImportDeclaration :=
  {| moduleSpecifier := specifier;
     defaultImport := defaultImport importDecl;
     namespaceImport := namespaceImport importDecl;
     namedBindings := namedBindings importDecl;
     isTypeOnly := isTypeOnly importDecl |}.

(** [repairResult.status === 'repaired' && repairResult.repairedPath] *)
Definition countsAsRepaired (r : RepairResult) : option string :=
  match status r, repairedPath r with
  | repaired, Some p => orNull p
  | _, _ => None
  end.

(** One turn of the loop over the import declarations: the result and the
    declaration as it is afterwards. *)
Definition repairDeclaration (fs : FileSystem) (search : ProjectSearch)
    (sourceFile : SourceFile) (dryRun : bool) (importDecl : ImportDeclaration)
    : RepairResult * ImportDeclaration :=
  let repairResult := repairSingleImport fs search sourceFile importDecl in
  match countsAsRepaired repairResult with
  | Some p => (repairResult, if dryRun then importDecl else setModuleSpecifier importDecl p)
  | None => (repairResult, importDecl)
  end.

Definition withImports (text : SourceText) (decls : list ImportDeclaration) : SourceText :=
  {| importDeclarations := decls;
     exportDeclarations := exportDeclarations text;
     dynamicImports := dynamicImports text;
     bodyIdentifiers := bodyIdentifiers text |}.

(** [repairImportPaths]: the report and the file system afterwards. [None]
    when the file is not there to be added to the project: the promise is
    rejected. *)
Definition repairImportPaths (fs : FileSystem) (search : ProjectSearch)
    (options : ImportPathRepairOptions)
    : option (ImportPathRepairResult * FileSystem) :=
  match statSync fs (optFilePath options) with
  | Some (File text) =>
      let sourceFile :=
        {| getFilePath := path.resolve (cwd fs) [optFilePath options];
           getText := text |} in
      let turns :=
        repairDeclaration fs search sourceFile (dryRun options)
          <$> importDeclarations text in
      let results := fst <$> turns in
      let repairedCount := length (omap countsAsRepaired results) in
      let fs' :=
        if negb (dryRun options) && bool_decide (0 < repairedCount)%nat
        then writeFile fs (getFilePath sourceFile) (withImports text (snd <$> turns))
        else fs in
      Some ({| resFilePath := optFilePath options;
               repairedImports := results;
               errors := [];
               totalImportsChecked := length (importDeclarations text);
               totalImportsRepaired := repairedCount |}, fs')
  | _ => None
  end.

End ImportPathRepair.

(** ** file-rename *)

Module FileRename.

Definition extensions : list string :=
  [""; ".ts"; ".tsx"; ".js"; ".jsx";
   "/index.ts"; "/index.tsx"; "/index.js"; "/index.jsx"].

(** [statSync(testPath)] returns and the entry is a file or a directory. *)
Definition probe (fs : FileSystem) (testPath : string) : bool :=
  match statSync fs testPath with
  | Some stats => isFile stats || isDirectory stats
  | None => false
  end.

Definition resolveImportPath (fs : FileSystem) (fromFile importPath : string) : string :=
  if negb (Js.startsWith importPath ".") then importPath
  else
    let fromDir := path.dirname fromFile in
    let resolvedPath := path.resolve (cwd fs) [fromDir; importPath] in
    match firstHit (λ ext, probe fs (resolvedPath +:+ ext)) extensions with
    | Some ext => resolvedPath +:+ ext
    | None => resolvedPath
    end.

Definition languageExtensions : list string := [".ts"; ".tsx"; ".js"; ".jsx"].

Definition calculateNewImportPath (fs : FileSystem)
    (fromFile oldAbsPath newAbsPath originalImport : string)
    (newFromFilePath : option string) : string :=
  if negb (Js.startsWith originalImport ".") then originalImport
  else
    let fromDir := path.dirname (default fromFile newFromFilePath) in
    let resolvedWithExt := resolveImportPath fs fromFile originalImport in
    let resolvedNewPath := Js.replace resolvedWithExt oldAbsPath newAbsPath in
    let relativePath := path.relative (cwd fs) fromDir resolvedNewPath in
    let relativePath :=
      if negb (Js.startsWith relativePath ".") then "./" +:+ relativePath
      else relativePath in
    let relativePath := Js.replaceAllChar "\"%char "/"%char relativePath in
    let hasExtension := Js.testSuffixMatch languageExtensions originalImport in
    let relativePath :=
      if negb hasExtension then Js.stripSuffixMatch languageExtensions relativePath
      else relativePath in
    if negb (Js.endsWith originalImport "/index")
    then Js.stripSuffixMatch ["/index"] relativePath
    else relativePath.

Record AffectedImport := {
  file : string;
  oldImport : string;
  newImport : string;
}.

(** The test that selects the specifiers to rewrite: for a renamed file the
    resolved path is the old path or lies below it, for a renamed directory
    it starts with the old path. *)
Definition refersTo (isDir : bool) (oldAbsPath resolvedPath : string) : bool :=
  if isDir then Js.startsWith resolvedPath oldAbsPath
  else bool_decide (resolvedPath = oldAbsPath)
       || Js.startsWith resolvedPath (oldAbsPath +:+ "/").

(** What happens to one specifier of the file [filePath]: [None] when it is
    left alone. *)
Definition rewriteSpecifier (fs : FileSystem) (isDir : bool)
    (filePath oldAbsPath newAbsPath : string) (newFilePath : option string)
    (moduleSpecifier : string) : option string :=
  let resolvedPath := resolveImportPath fs filePath moduleSpecifier in
  if refersTo isDir oldAbsPath resolvedPath
  then Some (calculateNewImportPath fs filePath oldAbsPath newAbsPath
               moduleSpecifier newFilePath)
  else None.

Definition setExportSpecifier (e : ExportDeclaration) (specifier : string)
    : ExportDeclaration :=
  {| exportSpecifier := Some specifier;
     exportIsWildcard := exportIsWildcard e;
     exportIsTypeOnly := exportIsTypeOnly e |}.

(** The three passes over one source file: import declarations, export
    declarations with a specifier that is not empty, dynamic imports. *)
Definition updateSourceFile (fs : FileSystem) (isDir : bool)
    (oldAbsPath newAbsPath : string) (sourceFile : SourceFile)
    : SourceFile * list AffectedImport :=
  let filePath := getFilePath sourceFile in
  let newFilePath :=
    if isDir && Js.startsWith filePath oldAbsPath
    then Some (Js.replace filePath oldAbsPath newAbsPath) else None in
  let rw := rewriteSpecifier fs isDir filePath oldAbsPath newAbsPath newFilePath in
  let affected old := (λ new, {| file := filePath; oldImport := old; newImport := new |}) <$> rw old in
  let text := getText sourceFile in
  let imports' :=
    (λ d, match rw (moduleSpecifier d) with
          | Some new => ImportPathRepair.setModuleSpecifier d new
          | None => d
          end) <$> importDeclarations text in
  let exportSpecifierOf e :=
    match exportSpecifier e with
    | Some m => if bool_decide (m = "") then None else Some m
    | None => None
    end in
  let exports' :=
    (λ e, match exportSpecifierOf e ≫= rw with
          | Some new => setExportSpecifier e new
          | None => e
          end) <$> exportDeclarations text in
  let dynamic' := (λ m, default m (rw m)) <$> dynamicImports text in
  ({| getFilePath := filePath;
      getText := {| importDeclarations := imports';
                    exportDeclarations := exports';
                    dynamicImports := dynamic';
                    bodyIdentifiers := bodyIdentifiers text |} |},
   omap (λ d, affected (moduleSpecifier d)) (importDeclarations text)
     ++ omap (λ e, exportSpecifierOf e ≫= affected) (exportDeclarations text)
     ++ omap affected (dynamicImports text)).

(** [updateImportsForFile] and [updateImportsForDirectory]: the project
    afterwards and the affected imports, file by file. *)
Definition updateImports (fs : FileSystem) (isDir : bool)
    (project : list SourceFile) (oldPath newPath : string)
    : list (SourceFile * list AffectedImport) :=
  let oldAbsPath := path.resolve (cwd fs) [oldPath] in
  let newAbsPath := path.resolve (cwd fs) [newPath] in
  updateSourceFile fs isDir oldAbsPath newAbsPath <$> project.

Record FileRenameOptions := {
  sourcePath : string;
  destinationPath : string;
  updateImportsOption : bool;
}.

Record FileRenameResult := {
  success : bool;
  error : option string;
  updatedFiles : option (list string);
  affectedImports : option (list AffectedImport);
  isDirectoryResult : option bool;
}.

Definition failure (message : string) : FileRenameResult :=
  {| success := false; error := Some message; updatedFiles := None;
     affectedImports := None; isDirectoryResult := None |}.

(** [project.save()]: the files whose specifiers were set are written. *)
Fixpoint saveProject (fs : FileSystem) (updated : list (SourceFile * list AffectedImport))
    : FileSystem :=
  match updated with
  | [] => fs
  | (sourceFile, affected) :: rest =>
      saveProject
        (if bool_decide (affected ≠ [])
         then writeFile fs (getFilePath sourceFile) (getText sourceFile) else fs)
        rest
  end.

(** [renameFileOrFolder]: the result record and the file system afterwards.
    [loadProject] is the project ts-morph builds from the tsconfig found
    above the source, or from the fallback globs. The two checks and the
    rename are given the strings of the options as they are; the import
    update works on the resolved paths. When [fs.rename] throws, the saved
    files stay as they were saved. *)
Definition renameFileOrFolder (loadProject : FileSystem → list SourceFile)
    (fs : FileSystem) (options : FileRenameOptions)
    : FileRenameResult * FileSystem :=
  match Fs.stat fs (sourcePath options) with
  | None =>
      (failure ("Source path not found: " +:+ sourcePath options), fs)
  | Some sourceStats =>
      let isDir := isDirectory sourceStats in
      match Fs.stat fs (destinationPath options) with
      | Some _ =>
          (failure ("Destination already exists: " +:+ destinationPath options), fs)
      | None =>
          let project := loadProject fs in
          let updated :=
            if updateImportsOption options
            then updateImports fs isDir project (sourcePath options) (destinationPath options)
            else (λ sourceFile, (sourceFile, [])) <$> project in
          let saved := saveProject fs updated in
          match Fs.rename saved (sourcePath options) (destinationPath options) with
          | inr renamed =>
              ({| success := true; error := None;
                  updatedFiles :=
                    Some (getFilePath ∘ fst <$> filter (λ u, snd u ≠ []) updated);
                  affectedImports := Some (concat (snd <$> updated));
                  isDirectoryResult := Some isDir |},
               renamed)
          | inl code =>
              (failure (Fs.message code "rename" (sourcePath options)
                          (destinationPath options)), saved)
          end
      end
  end.

End FileRename.

(** ** file-move *)

Module FileMove.

Definition normalizedPath (relativePath : string) : string :=
  Js.replaceAllChar "\"%char "/"%char
    (if Js.startsWith relativePath "." then relativePath else "./" +:+ relativePath).

Definition createOptimalImportPath (fs : FileSystem) (fromDir toPath : string) : string :=
  let targetPath := Js.stripSuffixMatch [".ts"; ".tsx"] toPath in
  let isIndexFile := bool_decide (path.basename targetPath = "index") in
  if isIndexFile then
    let targetDir := path.dirname targetPath in
    normalizedPath (path.relative (cwd fs) fromDir targetDir)
  else
    let targetDir := path.dirname targetPath in
    let indexFiles := [path.join [targetDir; "index.ts"]; path.join [targetDir; "index.tsx"]] in
    let hasIndexFile := existsb (existsSync fs) indexFiles in
    if hasIndexFile
    then normalizedPath (path.relative (cwd fs) fromDir targetPath)
    else normalizedPath (path.relative (cwd fs) fromDir targetPath).

Definition possiblePaths (resolvedPath : string) : list string :=
  [ resolvedPath;
    resolvedPath +:+ ".ts";
    resolvedPath +:+ ".tsx";
    path.join [resolvedPath; "index.ts"];
    path.join [resolvedPath; "index.tsx"] ].

(** What [updateImportPaths] does to one specifier of the file [filePath]:
    [None] when it is left alone. *)
Definition rewriteSpecifier (fs : FileSystem) (filePath oldPath newPath : string)
    (moduleSpecifier : string) : option string :=
  if Js.startsWith moduleSpecifier "." then
    let importerDir := path.dirname filePath in
    let resolvedPath := path.resolve (cwd fs) [importerDir; moduleSpecifier] in
    if existsb (λ p, bool_decide (p = oldPath)) (possiblePaths resolvedPath)
    then Some (createOptimalImportPath fs importerDir newPath)
    else None
  else None.

End FileMove.

(** ** import-optimization

    The passes work on the import declarations of one file. A change entry
    keeps the declarations involved instead of their text. Printing a
    consolidated declaration and reading it back is [readBack]; the text is
    not an import declaration when both a default and a namespace name are
    printed, and the pass has no result in the model then. The text of the
    file has changed when the declarations differ. *)

Module ImportOptimization.

Global Instance NamedImport_eq_dec : EqDecision NamedImport.
Proof. solve_decision. Defined.
Global Instance ImportDeclaration_eq_dec : EqDecision ImportDeclaration.
Proof. solve_decision. Defined.
Global Instance ExportDeclaration_eq_dec : EqDecision ExportDeclaration.
Proof. solve_decision. Defined.
Global Instance Identifier_eq_dec : EqDecision Identifier.
Proof. solve_decision. Defined.
Global Instance SourceText_eq_dec : EqDecision SourceText.
Proof. solve_decision. Defined.

Inductive Change :=
  | RemovedDefault (name : string)
  | RemovedNamed (unusedImport : NamedImport)
  | RemovedImport (importDecl : ImportDeclaration)
  | OptimizedPath (originalImport newImport : ImportDeclaration)
  | Consolidated (originalImports newImports : list ImportDeclaration)
  | Separated (originalImport : ImportDeclaration) (newImports : list ImportDeclaration).

Record ImportOptimizationOptions := {
  optFilePath : string;
  removeUnused : bool;
  optimizeIndexPaths : bool;
  consolidateImports : bool;
  separateTypeImports : bool;
}.

Record ImportOptimizationResult := {
  resFilePath : string;
  optimized : bool;
  changes : list Change;
  optimizedCode : option SourceText;
  error : option string;
}.

(** *** 1. [optimizeIndexImportPaths] *)

Definition optimizeIndexImportPath (importDecl : ImportDeclaration)
    : ImportDeclaration * list Change :=
  let moduleSpecifier := moduleSpecifier importDecl in
  if Js.startsWith moduleSpecifier "." && Js.endsWith moduleSpecifier "/index"
  then
    let optimizedPath := Js.stripSuffixMatch ["/index"] moduleSpecifier in
    let newDecl := ImportPathRepair.setModuleSpecifier importDecl optimizedPath in
    (newDecl, [OptimizedPath importDecl newDecl])
  else (importDecl, []).

Definition optimizeIndexImportPaths (decls : list ImportDeclaration)
    : list ImportDeclaration * list Change :=
  let turns := optimizeIndexImportPath <$> decls in
  (fst <$> turns, concat (snd <$> turns)).

(** *** 2. [consolidateImportsFromSameModule] *)

Definition namesOf (importDecl : ImportDeclaration) : list NamedImport :=
  default [] (namedBindings importDecl).

(** The named imports of the group, every name once, each with the
    classification of its first occurrence: [true] for a type import. *)
Fixpoint collectNamed (seen : list string) (l : list (string * bool))
    : list (string * bool) :=
  match l with
  | [] => []
  | (name, isType) :: rest =>
      if bool_decide (name ∈ seen) then collectNamed seen rest
      else (name, isType) :: collectNamed (name :: seen) rest
  end.

Definition classified (importDecl : ImportDeclaration) : list (string * bool) :=
  (λ namedImport, (niName namedImport, isTypeOnly importDecl || niTypeOnly namedImport))
    <$> namesOf importDecl.

Definition plainName (name : string) : NamedImport :=
  {| niName := name; niAlias := None; niTypeOnly := false |}.

(** The declarations that the text [import type { ... } from 'm';] and
    [import a, b, { ... } from 'm';] are read back as. *)
Definition readBack (moduleSpecifier : string) (defaultName namespaceName : option string)
    (valueImports typeImports : list string) : option (list ImportDeclaration) :=
  let typeStatement :=
    if bool_decide (typeImports = []) then []
    else [{| moduleSpecifier := moduleSpecifier; defaultImport := None;
             namespaceImport := None;
             namedBindings := Some (plainName <$> typeImports);
             isTypeOnly := true |}] in
  let braces :=
    if bool_decide (valueImports = []) then None
    else Some (plainName <$> valueImports) in
  match defaultName, namespaceName with
  | Some _, Some _ => None
  | None, None =>
      Some (typeStatement ++
            match braces with
            | Some _ =>
                [{| moduleSpecifier := moduleSpecifier; defaultImport := None;
                    namespaceImport := None; namedBindings := braces;
                    isTypeOnly := false |}]
            | None => []
            end)
  | Some name, None | None, Some name =>
      Some (typeStatement ++
            [{| moduleSpecifier := moduleSpecifier; defaultImport := Some name;
                namespaceImport := None; namedBindings := braces;
                isTypeOnly := false |}])
  end.

(** Every element of [l] that satisfies [f] is dropped, the first one being
    replaced by [new]. *)
Fixpoint replaceGroup {A} (f : A → bool) (new : list A) (l : list A) : list A :=
  match l with
  | [] => []
  | x :: r => if f x then new ++ filter (λ y, f y = false) r
              else x :: replaceGroup f new r
  end.

(** One turn of the loop over the groups. *)
Definition consolidateGroup (moduleSpecifier' : string)
    (decls : list ImportDeclaration)
    : option (list ImportDeclaration * list Change) :=
  let inGroup := λ d, bool_decide (moduleSpecifier d = moduleSpecifier') in
  let imports := filter (λ d, inGroup d = true) decls in
  if bool_decide (1 < length imports)%nat then
    let defaultName := head (omap defaultImport imports) in
    let namespaceName := head (omap namespaceImport imports) in
    let allNamed := collectNamed [] (concat (classified <$> imports)) in
    let typeImports := fst <$> filter (λ n, snd n = true) allNamed in
    let valueImports := fst <$> filter (λ n, snd n = false) allNamed in
    match readBack moduleSpecifier' defaultName namespaceName valueImports typeImports with
    | None => None
    | Some [] =>
        (* nothing to print: the first declaration stays, no change entry *)
        Some (replaceGroup inGroup (take 1 imports) decls, [])
    | Some newImports =>
        Some (replaceGroup inGroup newImports decls, [Consolidated imports newImports])
    end
  else Some (decls, []).

Fixpoint consolidateGroups (keys : list string) (decls : list ImportDeclaration)
    : option (list ImportDeclaration * list Change) :=
  match keys with
  | [] => Some (decls, [])
  | key :: rest =>
      match consolidateGroup key decls with
      | None => None
      | Some (decls', changes) =>
          match consolidateGroups rest decls' with
          | None => None
          | Some (decls'', changes') => Some (decls'', changes ++ changes')
          end
      end
  end.

(** The keys of the [Map] of the groups, in insertion order. *)
Definition groupKeys (decls : list ImportDeclaration) : list string :=
  remove_dups (moduleSpecifier <$> decls).

Definition consolidateImportsFromSameModule (decls : list ImportDeclaration)
    : option (list ImportDeclaration * list Change) :=
  consolidateGroups (groupKeys decls) decls.

(** *** 3. [removeUnusedImports] *)

(** The identifiers inside an import declaration. *)
Definition identifiersOf (importDecl : ImportDeclaration) : list string :=
  option_list (defaultImport importDecl)
    ++ option_list (namespaceImport importDecl)
    ++ concat ((λ n, niName n :: option_list (niAlias n)) <$> namesOf importDecl).

(** [isIdentifierUsed]: [others] are the identifiers of the file outside
    the declaration at hand. *)
Definition isIdentifierUsed (others : list string) (identifier : string) : bool :=
  bool_decide (identifier ∈ others).

(** One turn of the loop: the declaration afterwards, if it is still there,
    and the change entries. *)
Definition removeUnusedFrom (others : list string) (importDecl : ImportDeclaration)
    : option ImportDeclaration * list Change :=
  if isTypeOnly importDecl then (Some importDecl, [])
  else
    let namedImports := namesOf importDecl in
    let defaultUsed :=
      match defaultImport importDecl with
      | Some name => isIdentifierUsed others name
      | None => false
      end in
    let defaultChanges :=
      match defaultImport importDecl with
      | Some name => if isIdentifierUsed others name then [] else [RemovedDefault name]
      | None => []
      end in
    let namespaceUsed :=
      match namespaceImport importDecl with
      | Some name => isIdentifierUsed others name
      | None => false
      end in
    let usedNamedImports :=
      filter (λ name, isIdentifierUsed others name = true) (niName <$> namedImports) in
    let hasUsedImports :=
      defaultUsed || namespaceUsed || bool_decide (0 < length usedNamedImports)%nat in
    let unusedImports :=
      if bool_decide (0 < length namedImports)%nat
         && bool_decide (length usedNamedImports < length namedImports)%nat
      then filter (λ ni, niName ni ∉ usedNamedImports) namedImports
      else [] in
    let keptImports := filter (λ ni, ni ∉ unusedImports) namedImports in
    let afterRemoval :=
      {| moduleSpecifier := moduleSpecifier importDecl;
         defaultImport := defaultImport importDecl;
         namespaceImport := namespaceImport importDecl;
         namedBindings :=
           match namedBindings importDecl with
           | Some _ => if bool_decide (keptImports = []) && bool_decide (unusedImports ≠ [])
                       then None else Some keptImports
           | None => None
           end;
         isTypeOnly := false |} in
    let changes := defaultChanges ++ (RemovedNamed <$> unusedImports) in
    if hasUsedImports then (Some afterRemoval, changes)
    else (None, changes ++ [RemovedImport afterRemoval]).

(** The loop: [done] are the declarations already handled, as they are now,
    [todo] those still to come. *)
Fixpoint removeUnusedLoop (body : list string) (done todo : list ImportDeclaration)
    : list ImportDeclaration * list Change :=
  match todo with
  | [] => (done, [])
  | importDecl :: rest =>
      let others :=
        concat (identifiersOf <$> done) ++ concat (identifiersOf <$> rest) ++ body in
      let '(kept, changes) := removeUnusedFrom others importDecl in
      let '(final, changes') := removeUnusedLoop body (done ++ option_list kept) rest in
      (final, changes ++ changes')
  end.

Definition removeUnusedImports (body : list Identifier) (decls : list ImportDeclaration)
    : list ImportDeclaration * list Change :=
  removeUnusedLoop (identText <$> body) [] decls.

(** *** 4. [separateTypeAndValueImports] *)

Definition isTypeIdentifier (body : list Identifier) (identifier : string) : bool :=
  existsb (λ i, bool_decide (identText i = identifier) && identInTypePosition i) body.

Definition separateTypeAndValueImport (body : list Identifier)
    (importDecl : ImportDeclaration) : list ImportDeclaration * list Change :=
  if isTypeOnly importDecl then ([importDecl], [])
  else
    let names := niName <$> namesOf importDecl in
    let typeImports := filter (λ n, isTypeIdentifier body n = true) names in
    let valueImports := filter (λ n, isTypeIdentifier body n = false) names in
    if bool_decide (0 < length typeImports)%nat && bool_decide (0 < length valueImports)%nat
    then
      let newImports :=
        [ {| moduleSpecifier := moduleSpecifier importDecl; defaultImport := None;
             namespaceImport := None;
             namedBindings := Some (plainName <$> typeImports); isTypeOnly := true |};
          {| moduleSpecifier := moduleSpecifier importDecl; defaultImport := None;
             namespaceImport := None;
             namedBindings := Some (plainName <$> valueImports); isTypeOnly := false |} ] in
      (newImports, [Separated importDecl newImports])
    else ([importDecl], []).

Definition separateTypeAndValueImports (body : list Identifier)
    (decls : list ImportDeclaration) : list ImportDeclaration * list Change :=
  let turns := separateTypeAndValueImport body <$> decls in
  (concat (fst <$> turns), concat (snd <$> turns)).

(** *** The four passes in the order of [optimizeImports] *)

Definition runPasses (options : ImportOptimizationOptions) (text : SourceText)
    : option (list ImportDeclaration * list Change) :=
  let body := bodyIdentifiers text in
  let '(d1, c1) :=
    if optimizeIndexPaths options then optimizeIndexImportPaths (importDeclarations text)
    else (importDeclarations text, []) in
  match (if consolidateImports options then consolidateImportsFromSameModule d1
         else Some (d1, [])) with
  | None => None
  | Some (d2, c2) =>
      let '(d3, c3) :=
        if removeUnused options then removeUnusedImports body d2 else (d2, []) in
      let '(d4, c4) :=
        if separateTypeImports options then separateTypeAndValueImports body d3
        else (d3, []) in
      Some (d4, c1 ++ c2 ++ c3 ++ c4)
  end.

(** [optimizeImports]: the result record and the file system afterwards;
    [None] where [readBack] has no answer. The text before and the text
    after are compared through what a [SourceText] holds of them. The
    index pass sets specifiers in place, so that the texts differ exactly
    when the declarations do; a pass that prints a declaration anew may
    also change its quotes and spacing, which are not held. *)
Definition optimizeImports (fs : FileSystem) (options : ImportOptimizationOptions)
    : option (ImportOptimizationResult * FileSystem) :=
  match statSync fs (optFilePath options) with
  | Some (File text) =>
      match runPasses options text with
      | None => None
      | Some (decls, changes) =>
          let optimizedCode := ImportPathRepair.withImports text decls in
          let hasChanges := bool_decide (optimizedCode ≠ text) in
          Some ({| resFilePath := optFilePath options;
                   optimized := hasChanges;
                   changes := changes;
                   optimizedCode := if hasChanges then Some optimizedCode else None;
                   error := None |},
                if hasChanges then writeFile fs (optFilePath options) optimizedCode else fs)
      end
  | _ =>
      Some ({| resFilePath := optFilePath options; optimized := false; changes := [];
               optimizedCode := None;
               error := Some ("File not found: " +:+ optFilePath options) |}, fs)
  end.

End ImportOptimization.

(** ** Concrete file systems for the examples *)

Definition emptyText : SourceText :=
  {| importDeclarations := []; exportDeclarations := [];
     dynamicImports := []; bodyIdentifiers := [] |}.

Fixpoint entryAt (entries : list (string * Entry)) (p : string) : option Entry :=
  match entries with
  | [] => None
  | (q, e) :: rest => if bool_decide (q = p) then Some e else entryAt rest p
  end.

(** The file system with the listed entries, no symbolic links, and the
    working directory [dir]. *)
Definition fileSystemOf (dir : string) (entries : list (string * Entry)) : FileSystem :=
  {| cwd := dir; stat := entryAt entries; realpath := λ p, Some p |}.

(** ** Vocabulary of the statements about paths *)

(** [c] occurs in [s]. *)
Fixpoint hasChar (c : ascii) (s : string) : bool :=
  match s with
  | EmptyString => false
  | String a s' => bool_decide (a = c) || hasChar c s'
  end.

(** A segment of a normalized path: a name that is not empty, [.] or [..]
    and has no slash in it. *)
Definition plain (s : string) : bool :=
  negb (bool_decide (s = "")) && negb (bool_decide (s = "."))
    && negb (bool_decide (s = "..")) && negb (hasChar "/" s).

(** ** Vocabulary of the statements about the repair *)

(** The export requirement of an import: a default import asks for a
    default export, every other import for all the names it requires. *)
Definition meetsRequirements (importType : ImportPathRepair.ImportType)
    (requiredExports : list string) (c : ImportPathRepair.FileMatch) : Prop :=
  match importType with
  | ImportPathRepair.defaultT => ImportPathRepair.hasDefault c = true
  | _ => ∀ exportName, exportName ∈ requiredExports → exportName ∈ ImportPathRepair.exports c
  end.

(** [a] ranks at least as high as [b]: export match first, then the
    smaller directory distance, then the greater name similarity. *)
Definition ranksNoLower (importType : ImportPathRepair.ImportType)
    (requiredExports : list string) (a b : ImportPathRepair.FileMatch) : Prop :=
  let meets := meetsRequirements importType requiredExports in
  (meets a ∧ ¬ meets b)
  ∨ ((meets a ↔ meets b)
     ∧ ((ImportPathRepair.distance a < ImportPathRepair.distance b)%nat
        ∨ (ImportPathRepair.distance a = ImportPathRepair.distance b
           ∧ (ImportPathRepair.similarity b <= ImportPathRepair.similarity a)%Q))).



(** ** Vocabulary of the statements about the dependency graph *)

(** The segments of [p] below the directory [root], when [p] lies below
    [root] or is [root] itself. *)
Definition segmentsBelow (cwd root p : string) : option (list string) :=
  match path.stripCommon (path.resolveSegments cwd [root]) (path.resolveSegments cwd [p]) with
  | ([], rest) => Some rest
  | _ => None
  end.

(** [p] lies under [root] and its first segment below [root] does not start
    with a dot. *)
Definition visibleUnder (cwd root p : string) : bool :=
  match segmentsBelow cwd root p with
  | Some (first :: _) => negb (Js.startsWith first ".")
  | Some [] => true
  | None => false
  end.

(** ** Concrete inputs of the examples *)

Module Example.



(** Lower-casing in the examples, whose names are made of ASCII characters:
    there [toLowerCase] changes the letters A to Z and nothing else. *)
Definition lowerAsciiChar (c : ascii) : ascii :=
  let n := nat_of_ascii c in
  if (65 <=? n)%nat && (n <=? 90)%nat then ascii_of_nat (n + 32) else c.

Fixpoint lowerAscii (s : string) : string :=
  match s with
  | EmptyString => EmptyString
  | String c s' => String (lowerAsciiChar c) (lowerAscii s')
  end.

Definition mathSearch : ImportPathRepair.ProjectSearch :=
  {| ImportPathRepair.glob := λ pattern,
       if bool_decide (pattern = "**/math.ts")
       then ["/p/src/alternative/math.ts"; "/p/src/utils/math.ts"] else [];
     ImportPathRepair.fileExports := λ filePath,
       if bool_decide (filePath = "/p/src/utils/math.ts")
       then Some ({["add"; "multiply"]}, true)
       else if bool_decide (filePath = "/p/src/alternative/math.ts")
       then Some ({["divide"]}, false)
       else None;
     ImportPathRepair.toLowerCase := lowerAscii |}.

Definition namedImport (specifier : string) (names : list string) : ImportDeclaration :=
  {| moduleSpecifier := specifier; defaultImport := None; namespaceImport := None;
     namedBindings :=
       Some ((λ n, {| niName := n; niAlias := None; niTypeOnly := false |}) <$> names);
     isTypeOnly := false |}.

Definition textWithImports (decls : list ImportDeclaration) (used : list string) : SourceText :=
  {| importDeclarations := decls; exportDeclarations := []; dynamicImports := [];
     bodyIdentifiers :=
       (λ n, {| identText := n; identInTypePosition := false |}) <$> used |}.

(** The project of the repair scenario: test-specific.ts imports [add] and
    [multiply] from a path that does not exist. *)
Definition brokenText : SourceText :=
  textWithImports [namedImport "./wrong/path/math" ["add"; "multiply"]] ["add"; "multiply"].

Definition mathProject : FileSystem :=
  fileSystemOf "/p"
    [ ("/p", Directory); ("/p/src", Directory); ("/p/src/utils", Directory);
      ("/p/src/alternative", Directory);
      ("/p/src/utils/math.ts", File emptyText);
      ("/p/src/alternative/math.ts", File emptyText);
      ("/p/test-specific.ts", File brokenText) ].

(** The project of the rename scenarios: main.ts next to oldStyle.ts, a
    declaration file, and a directory utils with an index file. *)
Definition styleProject : FileSystem :=
  fileSystemOf "/p"
    [ ("/p", Directory); ("/p/main.ts", File emptyText);
      ("/p/oldStyle.ts", File emptyText); ("/p/types.d.ts", File emptyText);
      ("/p/utils", Directory); ("/p/utils/index.ts", File emptyText) ].

Definition mainFile : SourceFile :=
  {| getFilePath := "/p/main.ts"; getText := emptyText |}.

(** The project of the round trip: main.ts imports [value] from
    [./oldStyle], and there is an empty directory lib. *)
Definition consumerText : SourceText :=
  textWithImports [namedImport "./oldStyle" ["value"]] ["value"].

Definition libProject : FileSystem :=
  fileSystemOf "/p"
    [ ("/p", Directory); ("/p/main.ts", File consumerText);
      ("/p/oldStyle.ts", File emptyText); ("/p/lib", Directory) ].

Definition libSources (fs : FileSystem) : list SourceFile :=
  [ {| getFilePath := "/p/main.ts"; getText := consumerText |};
    {| getFilePath := "/p/oldStyle.ts"; getText := emptyText |} ].



(** The repair of test-specific.ts, written to the file. *)
Definition repairOptions : ImportPathRepair.ImportPathRepairOptions :=
  {| ImportPathRepair.optFilePath := "/p/test-specific.ts";
     ImportPathRepair.dryRun := false |}.

(** main.ts imports [x], which it uses, from [./a/index/index]. *)
Definition nestedIndexText : SourceText :=
  textWithImports [namedImport "./a/index/index" ["x"]] ["x"].

Definition nestedIndexProject : FileSystem :=
  fileSystemOf "/p" [ ("/p", Directory); ("/p/main.ts", File nestedIndexText) ].

(** main.ts imports [x], which it uses, from [./utils/index]. *)
Definition indexText : SourceText :=
  textWithImports [namedImport "./utils/index" ["x"]] ["x"].

Definition indexProject : FileSystem :=
  fileSystemOf "/p" [ ("/p", Directory); ("/p/main.ts", File indexText) ].

(** The options of [optimizeImports] with their defaults. *)
Definition allPasses : ImportOptimization.ImportOptimizationOptions :=
  {| ImportOptimization.optFilePath := "/p/main.ts";
     ImportOptimization.removeUnused := true;
     ImportOptimization.optimizeIndexPaths := true;
     ImportOptimization.consolidateImports := true;
     ImportOptimization.separateTypeImports := true |}.

Definition indexPathsOnly : ImportOptimization.ImportOptimizationOptions :=
  {| ImportOptimization.optFilePath := "/p/main.ts";
     ImportOptimization.removeUnused := false;
     ImportOptimization.optimizeIndexPaths := true;
     ImportOptimization.consolidateImports := false;
     ImportOptimization.separateTypeImports := false |}.

(** A project below /r whose only file lies in a directory with a dot
    name and imports itself, with the extension written out. *)
Definition hiddenFile : SourceFile :=
  {| getFilePath := "/r/.x/a.ts";
     getText := textWithImports [namedImport "./a.ts" ["a"]] ["a"] |}.

Definition hiddenProject : FileSystem :=
  fileSystemOf "/r"
    [ ("/r", Directory); ("/r/.x", Directory); ("/r/.x/a.ts", File (getText hiddenFile)) ].

(** A project below /r with two files that import each other. *)
Definition fileA : SourceFile :=
  {| getFilePath := "/r/src/a.ts";
     getText := textWithImports [namedImport "./b" ["b"]] ["b"] |}.

Definition fileB : SourceFile :=
  {| getFilePath := "/r/src/b.ts";
     getText := textWithImports [namedImport "./a" ["a"]; namedImport "../../lib/x" ["x"]] ["a"; "x"] |}.

Definition mutualProject : FileSystem :=
  fileSystemOf "/r"
    [ ("/r", Directory); ("/r/src", Directory);
      ("/r/src/a.ts", File (getText fileA)); ("/r/src/b.ts", File (getText fileB)) ].

End Example.

(** ** Vocabulary of the statements about the resolvers *)

(** [hit] is the first element of [l] that satisfies [f]. *)
Definition firstIn {A} (f : A → bool) (l : list A) (hit : A) : Prop :=
  ∃ before after,
    l = before ++ hit :: after ∧ f hit = true ∧ Forall (λ x, f x = false) before.

(** The probe sequence of the resolver of check-deletable and of the
    resolver of the repair, for the resolved path [resolved]. *)
Definition probesOfCheckDeletable (resolved : string) : list string :=
  [resolved]
    ++ ((λ ext, resolved +:+ ext) <$> [".ts"; ".tsx"; ".js"; ".jsx"])
    ++ ((λ ext, path.join [resolved; "index" +:+ ext]) <$> [".ts"; ".tsx"; ".js"; ".jsx"]).

Definition probesOfRepair (cwd resolved : string) : list string :=
  ((λ ext, resolved +:+ ext) <$> [".ts"; ".tsx"; ".js"; ".jsx"; ".d.ts"])
    ++ ((λ ext, path.resolve cwd [resolved; "index" +:+ ext])
          <$> [".ts"; ".tsx"; ".js"; ".jsx"; ".d.ts"]).

(** ** Vocabulary of the statements about rewritten specifiers *)

(** A relative path made to start with a dot. *)
Definition dotted (relativePath : string) : string :=
  if Js.startsWith relativePath "." then relativePath else "./" +:+ relativePath.

(** The directory of [fromFile] and the target with the segments [target]
    have the common ancestor [common]; [up] are the segments of the
    directory below it and [down] those of the target. *)
Definition commonAncestor (cwd fromDir : string) (target : list string)
    (common up down : list string) : Prop :=
  path.resolveSegments cwd [fromDir] = common ++ up
  ∧ target = common ++ down
  ∧ path.stripCommon (path.resolveSegments cwd [fromDir]) target = (up, down).

(** The relative specifiers that climb over [up] and descend along [down]:
    optional leading [.] segments, one [..] for every segment of [up], then
    [down]. *)
Definition climbs (up down : list string) (specifier : string) : Prop :=
  ∃ dots, Forall (λ x, x = ".") dots
          ∧ specifier = Js.join "/" (dots ++ replicate (length up) ".." ++ down).

(** ** Vocabulary of the statements about a second run *)

(** A file the search can hand to the repair of [file]: it exists, its
    path is normalized and does not lie above the directory of [file], and
    its name is one of the repair's extensions after a plain name. *)
Definition reachableCandidate (fs : FileSystem) (file candidate : string) : Prop :=
  ∃ xs b common up down,
    candidate = pathOf (xs ++ [b])
    ∧ Forall (λ s, plain s = true) (xs ++ [b])
    ∧ commonAncestor (cwd fs) (path.dirname file) (xs ++ [b]) common up (down ++ [b])
    ∧ Js.testSuffixMatch ImportPathRepair.extensions b = true
    ∧ plain (Js.stripSuffixMatch ImportPathRepair.extensions b) = true
    ∧ existsSync fs candidate = true.

Definition searchFindsFiles (fs : FileSystem) (search : ImportPathRepair.ProjectSearch)
    (file : string) : Prop :=
  ∀ pattern candidate,
    candidate ∈ ImportPathRepair.glob search pattern → reachableCandidate fs file candidate.

(** No relative specifier of the text ends with [/index/index]. *)
Definition noNestedIndex (text : SourceText) : Prop :=
  Forall (λ d, Js.startsWith (moduleSpecifier d) "." = true →
               Js.endsWith (moduleSpecifier d) "/index/index" = false)
         (importDeclarations text).

(** Two file systems with the same working directory and the same
    existing paths. *)
Definition sameEntries (fs fs' : FileSystem) : Prop :=
  cwd fs' = cwd fs ∧ ∀ p, existsSync fs' p = existsSync fs p.
(** ** Vocabulary of the statements about reported cycles *)

(** [a] is a node of the map that imports [b], and the detector follows
    the import: it starts with a dot. *)
Definition importEdge (nodeMap : gmap string DependencyNode) (a b : string) : Prop :=
  ∃ node, nodeMap !! a = Some node ∧ b ∈ imports node ∧ Js.startsWith b "." = true.

(** Every entry of [l] imports the next one. *)
Fixpoint isWalk (nodeMap : gmap string DependencyNode) (l : list string) : Prop :=
  match l with
  | a :: rest =>
      match rest with
      | b :: _ => importEdge nodeMap a b ∧ isWalk nodeMap rest
      | [] => True
      end
  | [] => True
  end.

(** A walk that returns to its first entry and passes no entry twice
    before. *)
Definition closedWalk (nodeMap : gmap string DependencyNode) (c : list string) : Prop :=
  ∃ n mid, c = n :: mid ++ [n] ∧ NoDup (n :: mid) ∧ isWalk nodeMap c.

(** The recursion stack holds the entries of [path], each once. *)
Definition stackIs (path : list string) (st : DfsState) : Prop :=
  recursionStack st = list_to_set path ∧ NoDup path.

Definition reportsSound (nodeMap : gmap string DependencyNode) (st : DfsState) : Prop :=
  Forall (λ c, closedWalk nodeMap (cycle c)) (circularDeps st).

(** ** dependency-visualization: statistics and node names *)

(** [a-zA-Z0-9_], on the code units of the string. *)
Definition isWordChar (c : ascii) : bool :=
  let n := nat_of_ascii c in
  ((48 <=? n) && (n <=? 57)) || ((65 <=? n) && (n <=? 90))
  || ((97 <=? n) && (n <=? 122)) || (n =? 95).

(** [id.replace(/[^a-zA-Z0-9_]/g, '_')] *)
Fixpoint sanitizeId (id : string) : string :=
  match id with
  | EmptyString => EmptyString
  | String c rest => String (if isWordChar c then c else "_"%char) (sanitizeId rest)
  end.

(** The depth of a file below the root: the number of segments of its
    relative path. *)
Definition depthBelow (fs : FileSystem) (rootPath filePath : string) : nat :=
  length (Js.split "/"%char (path.relative (cwd fs) rootPath filePath)).

Definition calculateMaxDepth (fs : FileSystem) (nodes : list DependencyNode)
    (rootPath : string) : nat :=
  foldl (λ maxDepth node, Nat.max maxDepth (depthBelow fs rootPath (filePath node)))
        0%nat nodes.

(** The [statistics] of [visualizeDependencies]. Every node has the type
    ['file']. *)
Record Statistics := {
  totalFiles : nat;
  totalImports : nat;
  statMaxDepth : nat;
  circularCount : nat;
}.

Definition statisticsOf (fs : FileSystem) (nodes : list DependencyNode)
    (circularDependencies : list CircularDependency) (rootPath : string) : Statistics :=
  {| totalFiles := length (filter (λ n : DependencyNode, True) nodes);
     totalImports := foldl (λ sum n, sum + length (imports n))%nat 0%nat nodes;
     statMaxDepth := calculateMaxDepth fs nodes rootPath;
     circularCount := length circularDependencies |}.

(** The part of [visualizeDependencies] between the project and the
    rendering: the nodes, the cycles when [detectCircular] is set, and the
    statistics. [sourceFiles] are the files found by the glob below
    [rootPath] that could be added to the project, [maxDepth] is the
    number of the options or the default 10. *)
Definition visualizeDependencies (fs : FileSystem) (sourceFiles : list SourceFile)
    (rootPath : string) (maxDepth : Js.number) (detectCircular : bool)
    : option (list DependencyNode * list CircularDependency * Statistics) :=
  let nodes := buildDependencyGraph fs sourceFiles rootPath maxDepth in
  match (if detectCircular then detectCircularDependencies nodes else Some []) with
  | Some circularDependencies =>
      Some (nodes, circularDependencies,
            statisticsOf fs nodes circularDependencies rootPath)
  | None => None
  end.

(** ** check-deletable: the reference scanner

    A reference keeps the file, the kind, the imported names and the
    type-only flag; its line, column and text are positions in the text of
    the file, which a [SourceText] does not hold. The target file is the
    source file of the project with the target's path. *)

Module Deletable.

Inductive ReferenceType := import | export | dynamic_import.

Record Reference := {
  file : string;
  type : ReferenceType;
  importedNames : list string;
  refIsTypeOnly : bool;
}.

(** [resolvedPath && targetPathVariations.includes(resolvedPath)] *)
Definition hits (targetPathVariations : list string) (resolvedPath : option string) : bool :=
  match resolvedPath with
  | Some p => negb (bool_decide (p = "")) && bool_decide (p ∈ targetPathVariations)
  | None => false
  end.

Definition importedNamesOf (importDecl : ImportDeclaration) : list string :=
  match defaultImport importDecl with
  | Some name => ["default as " +:+ name]
  | None => []
  end
  ++ match namespaceImport importDecl with
     | Some name => ["* as " +:+ name]
     | None => []
     end
  ++ ((λ namedImport,
         match niAlias namedImport with
         | Some alias => niName namedImport +:+ " as " +:+ alias
         | None => niName namedImport
         end) <$> default [] (namedBindings importDecl)).

Definition findDirectImportReferences (fs : FileSystem) (sourceFile : SourceFile)
    (targetPathVariations : list string) (includeTypes : bool) : list Reference :=
  omap (λ importDecl,
          if negb includeTypes && isTypeOnly importDecl then None
          else if Js.startsWith (moduleSpecifier importDecl) "."
                  && hits targetPathVariations
                       (CheckDeletable.resolveModulePath fs sourceFile
                          (moduleSpecifier importDecl))
          then Some {| file := getFilePath sourceFile;
                       type := import;
                       importedNames := importedNamesOf importDecl;
                       refIsTypeOnly := isTypeOnly importDecl |}
          else None)
       (importDeclarations (getText sourceFile)).

Definition findWildcardExportReferences (fs : FileSystem) (sourceFile : SourceFile)
    (targetPathVariations : list string) : list Reference :=
  omap (λ exportDecl,
          match exportSpecifier exportDecl with
          | Some moduleSpecifierValue =>
              if Js.startsWith moduleSpecifierValue "."
                 && hits targetPathVariations
                      (CheckDeletable.resolveModulePath fs sourceFile moduleSpecifierValue)
              then Some {| file := getFilePath sourceFile;
                           type := export;
                           importedNames := if exportIsWildcard exportDecl then ["*"] else [];
                           refIsTypeOnly := exportIsTypeOnly exportDecl |}
              else None
          | None => None
          end)
       (exportDeclarations (getText sourceFile)).

Definition findDynamicImportReferences (fs : FileSystem) (sourceFile : SourceFile)
    (targetPathVariations : list string) : list Reference :=
  omap (λ moduleSpecifier,
          if Js.startsWith moduleSpecifier "."
             && hits targetPathVariations
                  (CheckDeletable.resolveModulePath fs sourceFile moduleSpecifier)
          then Some {| file := getFilePath sourceFile;
                       type := dynamic_import;
                       importedNames := [];
                       refIsTypeOnly := false |}
          else None)
       (dynamicImports (getText sourceFile)).

Definition targetPathVariationsOf (fs : FileSystem) (targetPath : string) : list string :=
  CheckDeletable.getPathVariations targetPath
    ++ match realpath fs targetPath with
       | Some originalPath =>
           if bool_decide (originalPath ≠ targetPath)
           then CheckDeletable.getPathVariations originalPath else []
       | None => []
       end.

Definition findAllReferences (fs : FileSystem) (targetFile : SourceFile)
    (project : list SourceFile) (includeTypes : bool) : list Reference :=
  let targetPath := getFilePath targetFile in
  let targetPathVariations := targetPathVariationsOf fs targetPath in
  concat
    ((λ sourceFile,
        if bool_decide (getFilePath sourceFile = targetPath) then []
        else findDirectImportReferences fs sourceFile targetPathVariations includeTypes
             ++ findWildcardExportReferences fs sourceFile targetPathVariations
             ++ findDynamicImportReferences fs sourceFile targetPathVariations)
       <$> project).

(** [isDeletable] of the analysis. *)
Definition isDeletable (references : list Reference) : bool :=
  bool_decide (length references = 0%nat).

End Deletable.

(** ** Concrete inputs of the further examples *)

Module Example2.

(** main.ts imports [x] from the directory utils. *)
Definition utilsImporter : SourceFile :=
  {| getFilePath := "/p/main.ts";
     getText := Example.textWithImports [Example.namedImport "./utils" ["x"]] ["x"] |}.

Definition utilsIndex : SourceFile :=
  {| getFilePath := "/p/utils/index.ts"; getText := emptyText |}.

(** oldStyle.ts is renamed to newStyle.ts, the imports are left alone. *)
Definition renameOnly : FileRename.FileRenameOptions :=
  {| FileRename.sourcePath := "/p/oldStyle.ts";
     FileRename.destinationPath := "/p/newStyle.ts";
     FileRename.updateImportsOption := false |}.

End Example2.

(** ** Vocabulary of the statements about a rename *)

(** Every place above the one with the segments [segs] is a directory. *)
Definition underDirectories (fs : FileSystem) (segs : list string) : Prop :=
  ∀ i, (i < length segs)%nat → Fs.lookup fs (take i segs) = Some Directory.

(** ** Vocabulary of the statements about the repair report *)

Definition isRepaired (r : ImportPathRepair.RepairResult) : bool :=
  match ImportPathRepair.status r with
  | ImportPathRepair.repaired => true
  | _ => false
  end.

(** A specifier the repair takes for a package: it starts neither with a
    dot nor with a slash. *)
Definition isExternal (specifier : string) : bool :=
  negb (Js.startsWith specifier ".") && negb (Js.startsWith specifier "/").

(** * Properties *)

(** ** The cycle detector *)

Section dfs_facts.
Context (nodeMap : gmap string DependencyNode).

Lemma reportCycle_severity nodeId path st :
  ∃ c, circularDeps (reportCycle nodeId path st) = circularDeps st ++ [c]
       ∧ severity_by_length c
       ∧ cycle c = Js.slice path (Js.indexOf path nodeId) ++ [nodeId].
Proof.
  eexists; split; [reflexivity|]. split; [|reflexivity].
  unfold severity_by_length; simpl. case_bool_decide; split; (done || lia).
Qed.

Lemma dfs_effect_refl st : dfs_effect st st.
Proof.
  split; [done|]. split; [done|]. exists []. by rewrite app_nil_r.
Qed.

Lemma dfs_effect_trans s1 s2 s3 :
  dfs_effect s1 s2 → dfs_effect s2 s3 → dfs_effect s1 s3.
Proof.
  intros (Hv1 & Hr1 & n1 & Hc1 & Hf1) (Hv2 & Hr2 & n2 & Hc2 & Hf2).
  split; [set_solver|]. split; [congruence|].
  exists (n1 ++ n2). rewrite Hc2, Hc1, app_assoc. split; [done|].
  by apply Forall_app.
Qed.

Lemma forEachImport_effect visit l :
  (∀ i s s', visit i s = Some s' → dfs_effect s s') →
  ∀ s s', forEachImport visit l s = Some s' → dfs_effect s s'.
Proof.
  intros Hvisit. induction l as [|i l IH]; intros s s' H; simpl in H.
  - injection H as <-. apply dfs_effect_refl.
  - destruct (negb (Js.startsWith i ".")); [by apply IH|].
    destruct (visit i s) as [s1|] eqn:E; [|done].
    eapply dfs_effect_trans; [by eapply Hvisit | by apply IH].
Qed.

Lemma dfs_has_effect fuel :
  ∀ nodeId path st st',
    dfs fuel nodeMap nodeId path st = Some st' → dfs_effect st st'.
Proof.
  induction fuel as [|fuel IH]; intros nodeId path st st' H; [done|].
  simpl in H. case_bool_decide as Hstack.
  { injection H as <-. destruct (reportCycle_severity nodeId path st) as (c & Hc & Hs & _).
    split; [done|]. split; [done|]. exists [c]. split; [done|]. by constructor. }
  case_bool_decide as Hvis.
  { injection H as <-. apply dfs_effect_refl. }
  destruct (nodeMap !! nodeId) as [node|] eqn:Hnode; simpl in H.
  - destruct (forEachImport _ _ _) as [s1|] eqn:E; [|done].
    injection H as <-.
    apply forEachImport_effect in E; [|intros; by eapply IH].
    destruct E as (Hv & Hr & new & Hc & Hf).
    split; [simpl in *; set_solver|].
    split; [simpl in *; rewrite Hr; set_solver|].
    exists new. by split.
  - injection H as <-.
    split; [simpl; set_solver|]. split; [simpl; set_solver|].
    exists []. by rewrite app_nil_r.
Qed.

(** *** Termination *)

Lemma unvisited_mono st st' :
  visited st ⊆ visited st' → (unvisited nodeMap st' ≤ unvisited nodeMap st)%nat.
Proof.
  intros H. unfold unvisited.
  apply (subseteq_size (C := gset string)). set_solver.
Qed.

Lemma unvisited_enter nodeId st :
  nodeId ∈ dom nodeMap → nodeId ∉ visited st →
  (unvisited nodeMap (enter nodeId st) < unvisited nodeMap st)%nat.
Proof.
  intros Hd Hv. unfold unvisited; simpl.
  apply (subset_size (C := gset string)). set_solver.
Qed.

Lemma forEachImport_total visit l bound :
  (∀ i s, (unvisited nodeMap s ≤ bound)%nat →
          ∃ s', visit i s = Some s' ∧ dfs_effect s s') →
  ∀ s, (unvisited nodeMap s ≤ bound)%nat → is_Some (forEachImport visit l s).
Proof.
  intros Hvisit. induction l as [|i l IH]; intros s Hs; simpl; [by eexists|].
  destruct (negb (Js.startsWith i ".")); [by apply IH|].
  destruct (Hvisit i s Hs) as (s' & -> & Hv & _).
  apply IH. pose proof (unvisited_mono _ _ Hv). lia.
Qed.

Lemma dfs_enough_fuel fuel :
  ∀ nodeId path st,
    (unvisited nodeMap st < fuel)%nat → is_Some (dfs fuel nodeMap nodeId path st).
Proof.
  induction fuel as [|fuel IH]; intros nodeId path st Hfuel; [lia|].
  simpl. case_bool_decide; [by eexists|]. case_bool_decide as Hvis; [by eexists|].
  destruct (nodeMap !! nodeId) as [node|] eqn:Hnode; simpl; [|by eexists].
  assert (nodeId ∈ dom nodeMap) as Hd by (apply elem_of_dom; by eexists).
  pose proof (unvisited_enter nodeId st Hd Hvis) as Hlt.
  destruct (forEachImport_total
              (λ importPath, dfs fuel nodeMap importPath (path ++ [nodeId]))
              (imports node) (unvisited nodeMap (enter nodeId st))) with (s := enter nodeId st)
    as [s1 ->]; [|lia|by eexists].
  intros i s Hs. destruct (IH i (path ++ [nodeId]) s) as [s' Hs']; [lia|].
  exists s'. split; [done|]. by eapply dfs_has_effect.
Qed.

Lemma dfsRoots_total fuel nodes :
  ∀ st, (size (dom nodeMap) < fuel)%nat →
        ∃ st', dfsRoots fuel nodeMap nodes st = Some st'
               ∧ ∃ new, circularDeps st' = circularDeps st ++ new
                        ∧ Forall severity_by_length new.
Proof.
  induction nodes as [|n nodes IH]; intros st Hfuel; simpl.
  - exists st. split; [done|]. exists []. by rewrite app_nil_r.
  - case_bool_decide; [by apply IH|].
    destruct (dfs_enough_fuel fuel (id n) [] st) as [s1 Hs1].
    { assert (unvisited nodeMap st ≤ size (dom nodeMap))%nat; [|lia].
      unfold unvisited. apply (subseteq_size (C := gset string)). set_solver. }
    rewrite Hs1. destruct (IH s1 Hfuel) as (st' & -> & new2 & Hc2 & Hf2).
    exists st'. split; [done|].
    apply dfs_has_effect in Hs1 as (_ & _ & new1 & Hc1 & Hf1).
    exists (new1 ++ new2). rewrite Hc2, Hc1, app_assoc. split; [done|].
    by apply Forall_app.
Qed.
End dfs_facts.

(** [detectCircularDependencies] always returns. *)
Lemma detectCircularDependencies_total nodes :
  ∃ cycles, detectCircularDependencies nodes = Some cycles
            ∧ Forall severity_by_length cycles.
Proof.
  unfold detectCircularDependencies.
  destruct (dfsRoots_total (nodeMapOf nodes) (S (size (nodeMapOf nodes))) nodes
              initialDfsState) as (st' & -> & new & Hc & Hf).
  { rewrite size_dom. lia. }
  exists (circularDeps st'). split; [done|]. by rewrite Hc.
Qed.

(** *** The node map *)

Lemma nodeMapOf_snoc nodes n :
  nodeMapOf (nodes ++ [n]) = <[id n := n]> (nodeMapOf nodes).
Proof. unfold nodeMapOf. by rewrite foldl_app. Qed.

Lemma dom_nodeMapOf nodes :
  dom (nodeMapOf nodes) = list_to_set (id <$> nodes).
Proof.
  induction nodes as [|n nodes IH] using rev_ind; [done|].
  rewrite nodeMapOf_snoc, dom_insert_L, IH, fmap_app, list_to_set_app_L.
  simpl. set_solver.
Qed.

Lemma nodeMapOf_lookup nodes n :
  NoDup (id <$> nodes) → n ∈ nodes → nodeMapOf nodes !! id n = Some n.
Proof.
  induction nodes as [|m nodes IH] using rev_ind; intros Hnd Hin.
  { by apply elem_of_nil in Hin. }
  rewrite nodeMapOf_snoc. rewrite fmap_app in Hnd.
  apply NoDup_app in Hnd as (Hnd & Hdisj & _).
  apply elem_of_app in Hin as [Hin | ->%list_elem_of_singleton].
  - rewrite lookup_insert_ne; [by apply IH|].
    intros Heq. apply (Hdisj (id n)).
    + apply list_elem_of_fmap. by exists n.
    + rewrite <- Heq. simpl. by left.
  - by rewrite lookup_insert_eq.
Qed.

Lemma size_nodeMapOf nodes :
  NoDup (id <$> nodes) → size (nodeMapOf nodes) = length nodes.
Proof.
  intros Hnd. rewrite <- size_dom, dom_nodeMapOf.
  rewrite size_list_to_set by done. by rewrite length_fmap.
Qed.

(** *** A graph that is one simple cycle *)

Lemma ringFrom_ids first l : id <$> ringFrom first l = l.
Proof. induction l as [|x l IH]; simpl; by f_equal. Qed.

Lemma ringFrom_elem first pre x suf :
  {| id := x; filePath := x; imports := [hd first suf] |}
    ∈ ringFrom first (pre ++ x :: suf).
Proof.
  induction pre as [|p pre IH]; simpl; [by left|by right].
Qed.

Lemma slice_0 {A} (l : list A) : Js.slice l 0 = l.
Proof. reflexivity. Qed.

Lemma indexOf_hd l x : Js.indexOf (l ++ [x]) (hd x l) = 0%Z.
Proof. destruct l as [|y l]; simpl; by rewrite bool_decide_eq_true_2. Qed.

Lemma dfs_ring (M : gmap string DependencyNode) (l : list string) first :
  NoDup l →
  Forall (λ x, Js.startsWith x "." = true) l →
  first = hd "" l →
  (∀ pre x suf, l = pre ++ x :: suf →
     M !! x = Some {| id := x; filePath := x; imports := [hd first suf] |}) →
  ∀ suf pre x fuel st,
    l = pre ++ x :: suf →
    circularDeps st = [] →
    visited st = list_to_set pre →
    recursionStack st = list_to_set pre →
    (length suf + 2 ≤ fuel)%nat →
    ∃ st', dfs fuel M x pre st = Some st'
           ∧ circularDeps st' = [cycleReport (l ++ [first])]
           ∧ visited st' = list_to_set l
           ∧ recursionStack st' = recursionStack st.
Proof.
  intros Hnd Hdot Hfirst HM.
  induction suf as [|y suf IH]; intros pre x fuel st Hl Hc Hv Hr Hfuel.
  - (* the last node of the cycle imports the first one *)
    destruct fuel as [|[|fuel]]; [simpl in Hfuel; lia..|].
    assert (x ∉ pre) as Hx.
    { subst l. apply NoDup_app in Hnd as (_ & Hd & _). intros ?. eapply Hd; [done|by left]. }
    assert (first = hd x pre) as Hf.
    { subst first l. by destruct pre. }
    assert (Js.startsWith first "." = true) as Hfd.
    { rewrite Forall_forall in Hdot. apply Hdot. subst first l. destruct pre; simpl; by left. }
    assert (first ∈ pre ++ [x]) as Hfin.
    { rewrite Hf. destruct pre; simpl; [by apply list_elem_of_singleton|by left]. }
    cbn [dfs].
    rewrite bool_decide_eq_false_2 by (rewrite Hr; set_solver).
    rewrite bool_decide_eq_false_2 by (rewrite Hv; set_solver).
    rewrite (HM pre x [] Hl). cbn [imports forEachImport hd].
    rewrite Hfd. cbn [negb].
    rewrite bool_decide_eq_true_2.
    2:{ cbn [enter recursionStack]. rewrite Hr.
        apply elem_of_app in Hfin as [?| ->%list_elem_of_singleton]; set_solver. }
    eexists. split; [reflexivity|]. cbn.
    split; [|split].
    + rewrite Hc. cbn. unfold cycleReport. rewrite Hf, indexOf_hd. rewrite Hl.
      by rewrite slice_0.
    + rewrite Hv, Hl, list_to_set_app_L. simpl. set_solver.
    + set_solver.
  - destruct fuel as [|fuel]; [simpl in Hfuel; lia|].
    assert (x ∉ pre) as Hx.
    { subst l. apply NoDup_app in Hnd as (_ & Hd & _). intros ?. eapply Hd; [done|by left]. }
    assert (Js.startsWith y "." = true) as Hyd.
    { rewrite Forall_forall in Hdot. apply Hdot. subst l. set_solver. }
    cbn [dfs].
    rewrite bool_decide_eq_false_2 by (rewrite Hr; set_solver).
    rewrite bool_decide_eq_false_2 by (rewrite Hv; set_solver).
    rewrite (HM pre x (y :: suf) Hl). cbn [imports forEachImport hd].
    rewrite Hyd. cbn [negb].
    destruct (IH (pre ++ [x]) y fuel (enter x st)) as (s1 & -> & Hc1 & Hv1 & Hr1).
    + by rewrite <- app_assoc.
    + done.
    + cbn. rewrite Hv, list_to_set_app_L. simpl. set_solver.
    + cbn. rewrite Hr, list_to_set_app_L. simpl. set_solver.
    + simpl in Hfuel. lia.
    + eexists. split; [reflexivity|]. cbn. split; [done|]. split; [done|].
      rewrite Hr1. cbn. set_solver.
Qed.

Lemma dfsRoots_visited fuel M nodes st :
  (∀ n, n ∈ nodes → id n ∈ visited st) →
  dfsRoots fuel M nodes st = Some st.
Proof.
  induction nodes as [|n nodes IH]; intros H; simpl; [done|].
  rewrite bool_decide_eq_true_2 by (apply H; by left).
  apply IH. intros m Hm. apply H. by right.
Qed.

Lemma detect_ring l :
  l ≠ [] → NoDup l → Forall (λ x, Js.startsWith x "." = true) l →
  detectCircularDependencies (ring l) = Some [cycleReport (l ++ [hd "" l])].
Proof.
  intros Hne Hnd Hdot. unfold detectCircularDependencies, ring.
  destruct l as [|x suf]; [done|].
  remember (x :: suf) as l eqn:El.
  remember (hd "" l) as first eqn:Hfirst.
  remember (nodeMapOf (ringFrom first l)) as M eqn:HeqM.
  assert (NoDup (id <$> ringFrom first l)) as Hids by by rewrite ringFrom_ids.
  assert (size M = length l) as Hsize.
  { rewrite HeqM, size_nodeMapOf by done.
    by rewrite <- (ringFrom_ids first l) at 2; rewrite length_fmap. }
  assert (∀ pre y suf', l = pre ++ y :: suf' →
            M !! y = Some {| id := y; filePath := y; imports := [hd first suf'] |})
    as HM.
  { intros pre y suf' Hl. rewrite HeqM.
    apply (nodeMapOf_lookup (ringFrom first l)
             {| id := y; filePath := y; imports := [hd first suf'] |} Hids).
    rewrite Hl. apply ringFrom_elem. }
  destruct (dfs_ring M l first Hnd Hdot Hfirst HM suf [] x (S (size M))
              initialDfsState) as (st' & Hdfs & Hc & Hv & _); try done.
  { rewrite Hsize, El. simpl. lia. }
  assert (ringFrom first l = {| id := x; filePath := x; imports := [hd first suf] |}
                               :: ringFrom first suf) as -> by by rewrite El.
  cbn [dfsRoots id initialDfsState visited].
  rewrite bool_decide_eq_false_2 by set_solver.
  rewrite Hdfs, dfsRoots_visited.
  - simpl. by rewrite Hc.
  - intros n Hn. rewrite Hv.
    apply elem_of_list_to_set. rewrite El. right.
    rewrite <- (ringFrom_ids first suf). apply list_elem_of_fmap. by exists n.
Qed.

(** *** Graphs none of whose node ids starts with a dot *)

Section no_relative_ids.
Context (M : gmap string DependencyNode).
Hypothesis Hkeys : ∀ k, k ∈ dom M → Js.startsWith k "." = false.

Lemma forEachImport_no_cycle visit l :
  (∀ i s s', Js.startsWith i "." = true → recursionStack s ⊆ dom M →
             visit i s = Some s' →
             circularDeps s' = circularDeps s ∧ recursionStack s' = recursionStack s) →
  ∀ s s', recursionStack s ⊆ dom M → forEachImport visit l s = Some s' →
          circularDeps s' = circularDeps s ∧ recursionStack s' = recursionStack s.
Proof.
  intros Hvisit. induction l as [|i l IH]; intros s s' Hs H; simpl in H.
  - by injection H as <-.
  - destruct (Js.startsWith i ".") eqn:Hi; simpl in H; [|by apply IH].
    destruct (visit i s) as [s1|] eqn:E; [|done].
    destruct (Hvisit i s s1 Hi Hs E) as [Hc Hr].
    destruct (IH s1 s') as [Hc' Hr']; [by rewrite Hr|done|].
    split; congruence.
Qed.

Lemma dfs_no_cycle fuel :
  ∀ nodeId path st st',
    nodeId ∉ recursionStack st → recursionStack st ⊆ dom M →
    dfs fuel M nodeId path st = Some st' →
    circularDeps st' = circularDeps st.
Proof.
  induction fuel as [|fuel IH]; intros nodeId path st st' Hn Hs H; [done|].
  simpl in H. rewrite bool_decide_eq_false_2 in H by done.
  case_bool_decide; [by injection H as <-|].
  destruct (M !! nodeId) as [node|] eqn:Hnode; simpl in H; [|by injection H as <-].
  destruct (forEachImport _ _ _) as [s1|] eqn:E; [|done]. injection H as <-.
  apply forEachImport_no_cycle in E as [Hc _]; [done| |].
  - intros i s s' Hi Hsub Hdfs. split.
    + eapply IH; [|done|done].
      intros Hin. apply Hsub, Hkeys in Hin. congruence.
    + by apply dfs_has_effect in Hdfs as (_ & ? & _).
  - simpl. assert (nodeId ∈ dom M) by (apply elem_of_dom; by eexists).
    set_solver.
Qed.

Lemma dfsRoots_no_cycle fuel nodes :
  ∀ st st', recursionStack st = ∅ →
            dfsRoots fuel M nodes st = Some st' →
            circularDeps st' = circularDeps st.
Proof.
  induction nodes as [|n nodes IH]; intros st st' Hs H; simpl in H.
  - by injection H as <-.
  - case_bool_decide; [by eapply IH|].
    destruct (dfs fuel M (id n) [] st) as [s1|] eqn:E; [|done].
    pose proof (dfs_has_effect _ _ _ _ _ _ E) as (_ & Hr & _).
    apply dfs_no_cycle in E; [|rewrite Hs; set_solver..].
    rewrite <- E. eapply IH; [|done]. by rewrite Hr.
Qed.
End no_relative_ids.

(** When no node id starts with a dot, no cycle is reported, whatever the
    imports are. *)
Lemma detect_no_relative_ids nodes :
  Forall (λ n, Js.startsWith (id n) "." = false) nodes →
  detectCircularDependencies nodes = Some [].
Proof.
  intros Hids.
  destruct (detectCircularDependencies_total nodes) as (cycles & Hdet & _).
  rewrite Hdet. f_equal.
  unfold detectCircularDependencies in Hdet.
  destruct (dfsRoots _ _ _ _) as [st'|] eqn:E; [|done].
  injection Hdet as <-.
  apply dfsRoots_no_cycle in E; [done| |done].
  intros k Hk. rewrite dom_nodeMapOf in Hk.
  apply elem_of_list_to_set, list_elem_of_fmap in Hk as (n & -> & Hn).
  rewrite Forall_forall in Hids. by apply Hids.
Qed.

(** ** Strings *)

Lemma app_cons c a b : String c a +:+ b = String c (a +:+ b).
Proof. reflexivity. Qed.

Lemma app_empty_l s : "" +:+ s = s.
Proof. reflexivity. Qed.

Lemma app_empty_r s : s +:+ "" = s.
Proof. induction s as [|c s IH]; [done|]. by rewrite app_cons, IH. Qed.

Lemma app_assoc_s a b c : (a +:+ b) +:+ c = a +:+ (b +:+ c).
Proof. induction a as [|x a IH]; [done|]. by rewrite !app_cons, IH. Qed.

Lemma app_eq_empty a b : a +:+ b = "" → a = "" ∧ b = "".
Proof. destruct a; [done|]. by rewrite app_cons. Qed.

Lemma length_app_s a b : String.length (a +:+ b) = (String.length a + String.length b)%nat.
Proof. induction a as [|x a IH]; [done|]. rewrite app_cons. simpl. by rewrite IH. Qed.

Lemma app_inv_tail_s a b c : a +:+ c = b +:+ c → a = b.
Proof.
  revert b. induction a as [|x a IH]; intros [|y b] H; [done| | |].
  - apply (f_equal String.length) in H.
    rewrite app_empty_l, length_app_s in H. simpl in H. lia.
  - apply (f_equal String.length) in H.
    rewrite app_empty_l, length_app_s in H. simpl in H. lia.
  - rewrite !app_cons in H. injection H as -> H. f_equal. by apply IH.
Qed.

Lemma hasChar_app c a b : hasChar c (a +:+ b) = hasChar c a || hasChar c b.
Proof.
  induction a as [|x a IH]; [done|]. rewrite app_cons. simpl.
  by rewrite IH, orb_assoc.
Qed.

(** *** [startsWith] *)

Lemma prefix_app p s : String.prefix p (p +:+ s) = true.
Proof.
  induction p as [|c p IH]; [by destruct s|].
  rewrite app_cons. simpl. by destruct (ascii_dec c c).
Qed.

Lemma prefix_inv p s : String.prefix p s = true → ∃ t, s = p +:+ t.
Proof.
  revert s. induction p as [|c p IH]; intros s H; [by exists s|].
  destruct s as [|d s]; [done|]. simpl in H.
  destruct (ascii_dec c d) as [->|]; [|done].
  destruct (IH s H) as [t ->]. by exists t.
Qed.

Lemma startsWith_app s p : Js.startsWith (p +:+ s) p = true.
Proof. apply prefix_app. Qed.

Lemma startsWith_cons c s d :
  Js.startsWith (String c s) (String d "") = bool_decide (c = d).
Proof.
  unfold Js.startsWith. simpl. destruct (ascii_dec d c) as [->|Hn].
  - rewrite bool_decide_eq_true_2 by done. by destruct s.
  - by rewrite bool_decide_eq_false_2 by congruence.
Qed.

Lemma startsWith_app_nonempty a b d :
  a ≠ "" → Js.startsWith (a +:+ b) (String d "") = Js.startsWith a (String d "").
Proof. destruct a as [|c a]; [done|]. intros _. by rewrite app_cons, !startsWith_cons. Qed.

(** *** Suffix tests and suffix removal *)

Lemma endsWith_app a p : Js.endsWith (a +:+ p) p = true.
Proof.
  induction a as [|c a IH].
  - rewrite app_empty_l. destruct p; simpl; [done|].
    by rewrite bool_decide_eq_true_2.
  - rewrite app_cons. simpl. case_bool_decide; [done|]. apply IH.
Qed.

Lemma endsWith_inv s p : Js.endsWith s p = true → ∃ a, s = a +:+ p.
Proof.
  induction s as [|c s IH]; simpl; intros H.
  - case_bool_decide; [|done]. subst. by exists "".
  - case_bool_decide as E; [subst p; by exists ""|].
    destruct (IH H) as [a ->]. by exists (String c a).
Qed.

Lemma endsWith_false_app a p :
  Js.endsWith (a +:+ p) p = true.
Proof. apply endsWith_app. Qed.

Lemma testSuffixMatch_inv alts s :
  Js.testSuffixMatch alts s = true → ∃ a e, e ∈ alts ∧ s = a +:+ e.
Proof.
  induction s as [|c s IH]; simpl; intros H.
  - case_bool_decide; [|done]. by exists "", "".
  - case_bool_decide as E; [by exists "", (String c s)|].
    destruct (IH H) as (a & e & He & ->). by exists (String c a), e.
Qed.

Lemma testSuffixMatch_app alts a e :
  e ∈ alts → Js.testSuffixMatch alts (a +:+ e) = true.
Proof.
  intros He. induction a as [|c a IH].
  - rewrite app_empty_l. destruct e; simpl; by rewrite bool_decide_eq_true_2.
  - rewrite app_cons. simpl. case_bool_decide; [done|]. apply IH.
Qed.


(** What [stripSuffixMatch] returns: the string itself when no alternative
    matches, and the string without the matching alternative otherwise. *)
Lemma stripSuffixMatch_spec alts s :
  (Js.testSuffixMatch alts s = false ∧ Js.stripSuffixMatch alts s = s)
  ∨ (Js.testSuffixMatch alts s = true
     ∧ ∃ e, e ∈ alts ∧ s = Js.stripSuffixMatch alts s +:+ e).
Proof.
  induction s as [|c s IH]; simpl.
  - case_bool_decide; [right|left]; [|done]. split; [done|]. by exists "".
  - case_bool_decide as E.
    + right. split; [done|]. by exists (String c s).
    + destruct IH as [[Ht Hs]|[Ht (e & He & Hs)]]; [left|right].
      * by rewrite Hs.
      * split; [done|]. exists e. split; [done|]. by rewrite app_cons, <- Hs.
Qed.


Lemma stripSuffixMatch_cons alts c s :
  Js.stripSuffixMatch alts (String c s) =
  if bool_decide (String c s ∈ alts) then "" else String c (Js.stripSuffixMatch alts s).
Proof. reflexivity. Qed.


Lemma hasChar_cons c a s : hasChar c (String a s) = bool_decide (a = c) || hasChar c s.
Proof. reflexivity. Qed.

(** A string with a slash in it is none of the slash-free alternatives. *)
Lemma not_alt_of_slash alts s :
  Forall (λ e, hasChar "/" e = false) alts → hasChar "/" s = true → s ∉ alts.
Proof.
  intros Halts Hs Hin. rewrite Forall_forall in Halts.
  apply Halts in Hin. congruence.
Qed.

(** Slash-free alternatives are looked for in the last segment only. *)
Lemma hasChar_slash_app a t : hasChar "/" (a +:+ "/" +:+ t) = true.
Proof. rewrite !hasChar_app. by rewrite orb_true_r. Qed.

Lemma stripSuffixMatch_after_slash alts a t :
  Forall (λ e, hasChar "/" e = false) alts →
  Js.stripSuffixMatch alts (a +:+ "/" +:+ t) = a +:+ "/" +:+ Js.stripSuffixMatch alts t.
Proof.
  intros Halts. induction a as [|c a IH].
  - rewrite !app_empty_l. change ("/" +:+ ?x) with (String "/" x).
    rewrite stripSuffixMatch_cons.
    rewrite bool_decide_eq_false_2; [done|]. by apply not_alt_of_slash.
  - rewrite !(app_cons c a), stripSuffixMatch_cons, IH.
    rewrite bool_decide_eq_false_2; [done|].
    apply not_alt_of_slash; [done|].
    by rewrite hasChar_cons, hasChar_slash_app, orb_true_r.
Qed.




(** *** [join] and [split] *)

Lemma join_cons sep x y l :
  Js.join sep (x :: y :: l) = x +:+ sep +:+ Js.join sep (y :: l).
Proof. reflexivity. Qed.

Lemma join_cons_ne sep x l :
  l ≠ [] → Js.join sep (x :: l) = x +:+ sep +:+ Js.join sep l.
Proof. destruct l; [done|]. intros _. apply join_cons. Qed.

Lemma join_app sep l1 l2 :
  l1 ≠ [] → l2 ≠ [] →
  Js.join sep (l1 ++ l2) = Js.join sep l1 +:+ sep +:+ Js.join sep l2.
Proof.
  intros H1 H2. induction l1 as [|x l1 IH]; [done|].
  destruct l1 as [|y l1].
  - simpl app. by rewrite join_cons_ne.
  - change ((x :: y :: l1) ++ l2) with (x :: (y :: l1) ++ l2).
    rewrite join_cons_ne by done. rewrite IH by done.
    rewrite join_cons. by rewrite !app_assoc_s.
Qed.

Lemma join_snoc_suffix sep l b e :
  Js.join sep (l ++ [b]) +:+ e = Js.join sep (l ++ [b +:+ e]).
Proof.
  destruct l as [|x l]; [done|].
  rewrite !(join_app sep (x :: l)) by done.
  by rewrite !app_assoc_s.
Qed.

Lemma split_nonempty c s : Js.split c s ≠ [].
Proof.
  destruct s as [|a s]; [done|]. simpl. case_bool_decide; [done|].
  by destruct (Js.split c s).
Qed.

Lemma split_cons_sep c s : Js.split c (String c s) = "" :: Js.split c s.
Proof. simpl. by rewrite bool_decide_eq_true_2. Qed.

Lemma split_cons_other c a s x r :
  a ≠ c → Js.split c s = x :: r → Js.split c (String a s) = String a x :: r.
Proof. intros Ha Hs. simpl. rewrite bool_decide_eq_false_2 by done. by rewrite Hs. Qed.

(** Splitting at the separator between two strings. *)
Lemma split_app_sep c a b :
  Js.split c (a +:+ String c b) = Js.split c a ++ Js.split c b.
Proof.
  induction a as [|x a IH].
  - rewrite app_empty_l, split_cons_sep. done.
  - rewrite app_cons. destruct (decide (x = c)) as [->|Hx].
    + rewrite !split_cons_sep, IH. done.
    + destruct (Js.split c a) as [|y r] eqn:E; [by apply split_nonempty in E|].
      rewrite (split_cons_other c x a y r) by done.
      rewrite (split_cons_other c x _ y (r ++ Js.split c b)); [done..|].
      by rewrite IH.
Qed.

Lemma split_plain c s : hasChar c s = false → Js.split c s = [s].
Proof.
  induction s as [|a s IH]; [done|]. rewrite hasChar_cons.
  intros [Ha Hs]%orb_false_iff. apply bool_decide_eq_false in Ha.
  by apply split_cons_other; [|apply IH].
Qed.

Lemma split_join c l :
  l ≠ [] → Forall (λ s, hasChar c s = false) l →
  Js.split c (Js.join (String c "") l) = l.
Proof.
  intros Hne Hl. induction Hl as [|x l Hx Hl IH]; [done|].
  destruct l as [|y l]; [by apply split_plain|].
  rewrite join_cons. change (String c "" +:+ ?t) with (String c t).
  rewrite split_app_sep, IH by done. by rewrite split_plain.
Qed.

Lemma split_segments_no_sep c s : Forall (λ x, hasChar c x = false) (Js.split c s).
Proof.
  induction s as [|a s IH]; [by repeat constructor|].
  destruct (decide (a = c)) as [->|Ha].
  - rewrite split_cons_sep. by constructor.
  - destruct (Js.split c s) as [|y r] eqn:E; [by apply split_nonempty in E|].
    rewrite (split_cons_other c a s y r) by done.
    inversion IH; subst. constructor; [|done].
    rewrite hasChar_cons. by rewrite bool_decide_eq_false_2.
Qed.


(** The suffix tests and removals look at the last segment of a joined
    path only. *)
Lemma stripSuffixMatch_join_last alts l b :
  Forall (λ e, hasChar "/" e = false) alts →
  Js.stripSuffixMatch alts (Js.join "/" (l ++ [b]))
  = Js.join "/" (l ++ [Js.stripSuffixMatch alts b]).
Proof.
  intros Halts. destruct l as [|x l]; [done|].
  rewrite !(join_app "/" (x :: l)) by done.
  by rewrite stripSuffixMatch_after_slash.
Qed.


Lemma startsWith_join_cons x l d :
  x ≠ "" → Js.startsWith (Js.join "/" (x :: l)) (String d "") = Js.startsWith x (String d "").
Proof.
  intros Hx. destruct l as [|y l]; [done|].
  rewrite join_cons. by apply startsWith_app_nonempty.
Qed.

(** ** Paths *)

Lemma plain_inv s :
  plain s = true → s ≠ "" ∧ s ≠ "." ∧ s ≠ ".." ∧ hasChar "/" s = false.
Proof.
  unfold plain. rewrite !andb_true_iff, !negb_true_iff.
  intros [[[H1 H2] H3] H4].
  by apply bool_decide_eq_false in H1, H2, H3.
Qed.

Lemma plain_intro s :
  s ≠ "" → s ≠ "." → s ≠ ".." → hasChar "/" s = false → plain s = true.
Proof.
  intros. unfold plain. rewrite !andb_true_iff, !negb_true_iff.
  by rewrite !bool_decide_eq_false_2.
Qed.

Lemma Forall_plain_no_slash l :
  Forall (λ s, plain s = true) l → Forall (λ s, hasChar "/" s = false) l.
Proof.
  intros H. eapply Forall_impl; [exact H|].
  intros s Hs. by apply plain_inv in Hs as (_ & _ & _ & ?).
Qed.

(** *** [normalizeString] *)

Lemma normalize_skip b res s rest :
  s = "" ∨ s = "." →
  path.normalizeSegments b res (s :: rest) = path.normalizeSegments b res rest.
Proof. intros [-> | ->]; reflexivity. Qed.

Lemma normalize_push b res s rest :
  s ≠ "" → s ≠ "." → s ≠ ".." →
  path.normalizeSegments b res (s :: rest) = path.normalizeSegments b (s :: res) rest.
Proof.
  intros H1 H2 H3. cbn [path.normalizeSegments].
  by rewrite !bool_decide_eq_false_2.
Qed.

Lemma normalize_pop b r res rest :
  r ≠ ".." →
  path.normalizeSegments b (r :: res) (".." :: rest) = path.normalizeSegments b res rest.
Proof.
  intros Hr. cbn [path.normalizeSegments].
  rewrite (bool_decide_eq_false_2 (".." = "")), (bool_decide_eq_false_2 (".." = ".")) by done.
  rewrite (bool_decide_eq_true_2 (".." = "..")) by done. cbn [orb].
  by rewrite bool_decide_eq_false_2.
Qed.

Lemma normalize_app b l1 : ∀ res l2,
  path.normalizeSegments b res (l1 ++ l2)
  = path.normalizeSegments b (reverse (path.normalizeSegments b res l1)) l2.
Proof.
  induction l1 as [|s l1 IH]; intros res l2.
  - simpl. by rewrite reverse_involutive.
  - cbn [app path.normalizeSegments].
    destruct (bool_decide (s = "") || bool_decide (s = ".")); [apply IH|].
    destruct (bool_decide (s = "..")); [|apply IH].
    destruct res as [|r res]; [apply IH|].
    destruct (bool_decide (r = "..")); apply IH.
Qed.

Lemma normalize_plain b l : ∀ res,
  Forall (λ s, plain s = true) l →
  path.normalizeSegments b res l = reverse res ++ l.
Proof.
  induction l as [|s l IH]; intros res Hl.
  - simpl. by rewrite app_nil_r.
  - inversion Hl as [|? ? Hs Hl']; subst.
    apply plain_inv in Hs as (H1 & H2 & H3 & _).
    rewrite normalize_push, IH by done.
    by rewrite reverse_cons, <- app_assoc.
Qed.

Lemma normalize_output_plain segs : ∀ res,
  Forall (λ s, plain s = true) res →
  Forall (λ s, hasChar "/" s = false) segs →
  Forall (λ s, plain s = true) (path.normalizeSegments false res segs).
Proof.
  induction segs as [|s segs IH]; intros res Hres Hsegs.
  - simpl. by apply Forall_reverse.
  - inversion Hsegs as [|? ? Hs Hsegs']; subst.
    cbn [path.normalizeSegments].
    destruct (decide (s = "")) as [->|H1]; [by apply IH|].
    destruct (decide (s = ".")) as [->|H2]; [by apply IH|].
    rewrite (bool_decide_eq_false_2 (s = "")), (bool_decide_eq_false_2 (s = ".")) by done.
    cbn [orb]. case_bool_decide as H3.
    + destruct res as [|r res]; [by apply IH|].
      inversion Hres; subst. case_bool_decide; by apply IH.
    + apply IH; [|done]. constructor; [|done]. by apply plain_intro.
Qed.

(** A run of [..] removes as many plain segments. *)
Lemma normalize_pops R : ∀ res rest,
  Forall (λ s, plain s = true) R →
  path.normalizeSegments false (R ++ res) (replicate (length R) ".." ++ rest)
  = path.normalizeSegments false res rest.
Proof.
  induction R as [|r R IH]; intros res rest HR; [done|].
  inversion HR as [|? ? Hr HR']; subst.
  apply plain_inv in Hr as (_ & _ & Hr & _).
  cbn [length replicate app]. rewrite normalize_pop by done. by apply IH.
Qed.

Lemma normalize_skip_dots b res dots rest :
  Forall (λ s, s = ".") dots →
  path.normalizeSegments b res (dots ++ rest) = path.normalizeSegments b res rest.
Proof.
  induction 1 as [|d dots -> _ IH]; [done|].
  cbn [app]. rewrite normalize_skip by by right. done.
Qed.

(** *** [resolve] *)

Lemma gather_no_slash cwd rargs :
  Forall (λ s, hasChar "/" s = false) (path.gather cwd rargs).
Proof.
  induction rargs as [|p rargs IH]; simpl.
  - apply split_segments_no_sep.
  - case_bool_decide; [done|]. destruct (path.isAbsolute p).
    + apply split_segments_no_sep.
    + apply Forall_app. split; [done|apply split_segments_no_sep].
Qed.

Lemma resolveSegments_plain cwd args :
  Forall (λ s, plain s = true) (path.resolveSegments cwd args).
Proof. apply normalize_output_plain; [done|apply gather_no_slash]. Qed.

Lemma pathOf_cons segs : pathOf segs = String "/" (Js.join "/" segs).
Proof. reflexivity. Qed.

Lemma segmentsOf_pathOf segs :
  Forall (λ s, plain s = true) segs →
  path.normalizeSegments false [] (path.segmentsOf (pathOf segs)) = segs.
Proof.
  intros Hsegs. unfold path.segmentsOf. rewrite pathOf_cons, split_cons_sep.
  rewrite normalize_skip by by left.
  destruct segs as [|x segs]; [done|].
  rewrite (split_join "/"%char) by (done || by apply Forall_plain_no_slash).
  by rewrite normalize_plain.
Qed.

Lemma resolveSegments_pathOf cwd segs :
  Forall (λ s, plain s = true) segs →
  path.resolveSegments cwd [pathOf segs] = segs.
Proof.
  intros Hsegs. unfold path.resolveSegments. cbn [reverse rev_append path.gather].
  change (reverse [pathOf segs]) with [pathOf segs]. cbn [path.gather].
  rewrite bool_decide_eq_false_2 by by rewrite pathOf_cons.
  assert (path.isAbsolute (pathOf segs) = true) as ->.
  { unfold path.isAbsolute. rewrite pathOf_cons. by rewrite startsWith_cons. }
  by apply segmentsOf_pathOf.
Qed.

Lemma resolve_pathOf cwd segs :
  Forall (λ s, plain s = true) segs → path.resolve cwd [pathOf segs] = pathOf segs.
Proof. intros H. unfold path.resolve. by rewrite resolveSegments_pathOf. Qed.

(** A resolved path is the path of its plain segments. *)
Lemma resolve_is_pathOf cwd args :
  path.resolve cwd args = pathOf (path.resolveSegments cwd args).
Proof. reflexivity. Qed.

Lemma resolve_idempotent cwd args :
  path.resolve cwd [path.resolve cwd args] = path.resolve cwd args.
Proof. rewrite resolve_is_pathOf at 1. rewrite resolve_is_pathOf. apply resolve_pathOf, resolveSegments_plain. Qed.

Lemma resolveSegments_two cwd dir s :
  s ≠ "" → path.isAbsolute s = false →
  path.resolveSegments cwd [dir; s]
  = path.normalizeSegments false (reverse (path.resolveSegments cwd [dir]))
      (path.segmentsOf s).
Proof.
  intros Hs Habs. unfold path.resolveSegments.
  change (reverse [dir; s]) with [s; dir]. change (reverse [dir]) with [dir].
  cbn [path.gather]. rewrite bool_decide_eq_false_2 by done. rewrite Habs.
  apply normalize_app.
Qed.

(** Resolving, from a directory with the segments [C ++ F'], a relative
    path that climbs over [F'] and descends along [D]. *)
Lemma resolveSegments_relative cwd dir s C F' dots D :
  path.resolveSegments cwd [dir] = C ++ F' →
  s ≠ "" → path.isAbsolute s = false →
  path.segmentsOf s = dots ++ replicate (length F') ".." ++ D →
  Forall (λ x, x = ".") dots →
  Forall (λ x, plain x = true) D →
  path.resolveSegments cwd [dir; s] = C ++ D.
Proof.
  intros HF Hs Habs Hsegs Hdots HD.
  rewrite resolveSegments_two, Hsegs, HF by done.
  rewrite normalize_skip_dots by done.
  pose proof (resolveSegments_plain cwd [dir]) as Hplain. rewrite HF in Hplain.
  apply Forall_app in Hplain as [HC HF'].
  rewrite reverse_app. rewrite <- (length_reverse F').
  rewrite normalize_pops by by apply Forall_reverse.
  rewrite normalize_plain by done. by rewrite reverse_involutive.
Qed.

(** *** [relative] *)

Lemma stripCommon_spec F : ∀ T F' T',
  path.stripCommon F T = (F', T') → ∃ C, F = C ++ F' ∧ T = C ++ T'.
Proof.
  induction F as [|f F IH]; intros T F' T' H.
  - injection H as <- <-. by exists [].
  - destruct T as [|t T]; [injection H as <- <-; by exists []|].
    simpl in H. case_bool_decide as E.
    + subst t. destruct (IH _ _ _ H) as (C & -> & ->). by exists (f :: C).
    + injection H as <- <-. by exists [].
Qed.

Lemma stripCommon_prefix F rest : path.stripCommon F (F ++ rest) = ([], rest).
Proof.
  induction F as [|f F IH]; [by destruct rest|].
  simpl. by rewrite bool_decide_eq_true_2.
Qed.

Lemma relative_below cwd from to rest :
  path.resolveSegments cwd [to] = path.resolveSegments cwd [from] ++ rest →
  path.relative cwd from to = Js.join "/" rest.
Proof. intros H. unfold path.relative. by rewrite H, stripCommon_prefix. Qed.

(** * The claims *)

(** ** C1: severity of a reported cycle *)

(** C1, the claim as stated fails: the graph that is the 3-node cycle
    ./a → ./b → ./c → ./a is reported once, as the closed walk
    [./a; ./b; ./c; ./a] of four entries, and four entries make the
    severity [error], not [warning]. *)
Lemma three_node_cycle_is_not_a_warning :
  detectCircularDependencies
    [mkNode "./a" ["./b"]; mkNode "./b" ["./c"]; mkNode "./c" ["./a"]]
  = Some [cycleReport ["./a"; "./b"; "./c"; "./a"]]
  ∧ severity (cycleReport ["./a"; "./b"; "./c"; "./a"]) = error
  ∧ ¬ ∃ c, detectCircularDependencies
             [mkNode "./a" ["./b"]; mkNode "./b" ["./c"]; mkNode "./c" ["./a"]]
           = Some [c] ∧ severity c = warning.
Proof.
  assert (detectCircularDependencies
            [mkNode "./a" ["./b"]; mkNode "./b" ["./c"]; mkNode "./c" ["./a"]]
          = Some [cycleReport ["./a"; "./b"; "./c"; "./a"]]) as E by by vm_compute.
  split; [done|]. split; [done|].
  intros (c & Hc & Hw). rewrite E in Hc. by injection Hc as <-.
Qed.

(** C1, as amended. A graph that is one simple cycle through the distinct
    ids [l], all starting with a dot, is reported exactly once, as the
    closed walk [l ++ [first]] that names the entry node twice; its severity
    is [error] exactly when the cycle has more than two nodes (a 2-node
    cycle is a [warning], 3-node and 4-node cycles are [error]s). For every
    graph the detector returns, and every reported cycle has severity
    [error] iff its reported sequence has more than 3 entries. *)
Theorem cycle_severity_follows_walk_length (l : list string) :
  l ≠ [] → NoDup l → Forall (λ x, Js.startsWith x "." = true) l →
  detectCircularDependencies (ring l) = Some [cycleReport (l ++ [hd "" l])]
  ∧ (severity (cycleReport (l ++ [hd "" l])) = error ↔ (2 < length l)%nat)
  ∧ ∀ nodes, ∃ cycles,
      detectCircularDependencies nodes = Some cycles
      ∧ Forall severity_by_length cycles.
Proof.
  intros Hne Hnd Hdot. split; [by apply detect_ring|]. split.
  - unfold cycleReport; simpl. rewrite length_app; simpl.
    case_bool_decide; split; (done || lia).
  - apply detectCircularDependencies_total.
Qed.

Lemma cycle_severity_follows_walk_length_witness :
  ["./a"; "./b"; "./c"] ≠ []
  ∧ NoDup ["./a"; "./b"; "./c"]
  ∧ Forall (λ x, Js.startsWith x "." = true) ["./a"; "./b"; "./c"]
  ∧ detectCircularDependencies (ring ["./a"; "./b"; "./c"])
    = Some [cycleReport ["./a"; "./b"; "./c"; "./a"]].
Proof.
  assert (["./a"; "./b"; "./c"] ≠ []) as H1 by done.
  assert (NoDup ["./a"; "./b"; "./c"]) as H2
    by (apply (bool_decide_eq_true_1 (NoDup ["./a"; "./b"; "./c"])); vm_compute; reflexivity).
  assert (Forall (λ x, Js.startsWith x "." = true) ["./a"; "./b"; "./c"]) as H3
    by (repeat constructor).
  split; [exact H1|]. split; [exact H2|]. split; [exact H3|].
  exact (proj1 (cycle_severity_follows_walk_length ["./a"; "./b"; "./c"] H1 H2 H3)).
Defined.

(** ** C6: the choice among the candidates *)

Section sorting.
Context {A : Type} (cmp : A → A → Q).

(** [a] is not sorted after [b]. *)
Let before (a b : A) : Prop := (cmp a b <= 0)%Q.

Hypothesis before_total : ∀ a b, before a b ∨ before b a.
Hypothesis before_trans : ∀ a b c, before a b → before b c → before a c.

Lemma insertSorted_elem x y l :
  y ∈ ImportPathRepair.insertSorted cmp x l ↔ y = x ∨ y ∈ l.
Proof.
  induction l as [|z l IH]; simpl; [set_solver|].
  destruct (Qle_bool (cmp x z) 0); [set_solver|].
  rewrite elem_of_cons, IH. set_solver.
Qed.

Lemma sort_elem y l : y ∈ ImportPathRepair.sort cmp l ↔ y ∈ l.
Proof.
  induction l as [|x l IH]; simpl; [done|].
  rewrite insertSorted_elem, IH. set_solver.
Qed.

Lemma insertSorted_head x l m :
  (∀ h, head l = Some h → ∀ y, y ∈ l → before h y) →
  head (ImportPathRepair.insertSorted cmp x l) = Some m →
  ∀ y, y ∈ x :: l → before m y.
Proof.
  intros Hl Hm y Hy. destruct l as [|z l]; simpl in Hm.
  - injection Hm as <-. apply list_elem_of_singleton in Hy as ->.
    by destruct (before_total x x).
  - destruct (Qle_bool (cmp x z) 0) eqn:E; injection Hm as <-.
    + apply Qle_bool_iff in E.
      apply elem_of_cons in Hy as [->|Hy]; [by destruct (before_total x x)|].
      eapply before_trans; [exact E|]. by apply (Hl z).
    + assert (before z x) as Hzx.
      { destruct (before_total x z) as [H|H]; [|done].
        apply Qle_bool_iff in H. congruence. }
      apply elem_of_cons in Hy as [->|Hy]; [done|]. by apply (Hl z).
Qed.

(** The first element of the sorted array is sorted after none. *)
Lemma sort_head l m :
  head (ImportPathRepair.sort cmp l) = Some m → m ∈ l ∧ ∀ y, y ∈ l → before m y.
Proof.
  revert m. induction l as [|x l IH]; intros m Hm; [done|]. split.
  - apply sort_elem. simpl. by apply head_Some_elem_of.
  - simpl in Hm. intros y Hy.
    apply (insertSorted_head x (ImportPathRepair.sort cmp l) m); [|done|].
    + intros h Hh z Hz. apply (IH h Hh). by apply sort_elem.
    + apply elem_of_cons in Hy as [->|Hy]; [by left|right; by apply sort_elem].
Qed.

Lemma sort_nonempty l : l ≠ [] → is_Some (head (ImportPathRepair.sort cmp l)).
Proof.
  destruct l as [|x l]; [done|]. intros _. simpl.
  destruct (ImportPathRepair.sort cmp l) as [|z r]; simpl; [by eexists|].
  destruct (Qle_bool (cmp x z) 0); by eexists.
Qed.
End sorting.

Section candidates.
Import ImportPathRepair.
Context (importType : ImportType) (requiredExports : list string).

Lemma flag_lt a b : (flag b - flag a <= 0)%Z → flag a ≠ flag b → a = true ∧ b = false.
Proof. destruct a, b; simpl; intros; (done || lia). Qed.

(** The test of the comparator is the export requirement of the import. *)
Lemma hasExports_meets c :
  hasExports importType requiredExports c = true
  ↔ meetsRequirements importType requiredExports c.
Proof.
  assert (hasAll requiredExports c = true
          ↔ ∀ exportName, exportName ∈ requiredExports → exportName ∈ exports c) as Hall.
  { unfold hasAll. rewrite forallb_forall. split.
    - intros H x Hx. apply list_elem_of_In, H in Hx. by apply bool_decide_eq_true in Hx.
    - intros H x Hx. apply bool_decide_eq_true, H. by apply list_elem_of_In. }
  unfold hasExports, meetsRequirements. by destruct importType.
Qed.

(** The ranking with the test of the comparator in the place of the export
    requirement. *)
Let ranks (a b : FileMatch) : Prop :=
  let matches := hasExports importType requiredExports in
  (matches a = true ∧ matches b = false)
  ∨ (matches a = matches b
     ∧ ((distance a < distance b)%nat
        ∨ (distance a = distance b ∧ (similarity b <= similarity a)%Q))).

Lemma ranksNoLower_ranks a b : ranksNoLower importType requiredExports a b ↔ ranks a b.
Proof.
  unfold ranksNoLower, ranks. cbv zeta. rewrite <- !hasExports_meets.
  destruct (hasExports importType requiredExports a),
           (hasExports importType requiredExports b); intuition congruence.
Qed.

(** The comparator is not positive exactly when the first candidate ranks
    no lower. *)
Lemma compareCandidates_before a b :
  (compareCandidates importType requiredExports a b <= 0)%Q
  ↔ ranksNoLower importType requiredExports a b.
Proof.
  rewrite ranksNoLower_ranks. unfold compareCandidates, ranks.
  destruct (hasExports importType requiredExports a) eqn:Ea,
           (hasExports importType requiredExports b) eqn:Eb; simpl.
  - case_bool_decide as Hd.
    + change 0%Q with (inject_Z 0). rewrite <- Zle_Qle. split.
      * intros H. right. split; [done|]. left. lia.
      * intros [[_ ?]|[_ [?|[? _]]]]; (done || lia).
    + split.
      * intros H. right. split; [done|]. right. split; [lia|lra].
      * intros [[_ ?]|[_ [?|[_ H]]]]; [done|lia|lra].
  - split; [intros _; by left|]. intros _. by compute.
  - split; [intros H; by compute in H|]. intros [[? _]|[? _]]; done.
  - case_bool_decide as Hd.
    + change 0%Q with (inject_Z 0). rewrite <- Zle_Qle. split.
      * intros H. right. split; [done|]. left. lia.
      * intros [[? _]|[_ [?|[? _]]]]; (done || lia).
    + split.
      * intros H. right. split; [done|]. right. split; [lia|lra].
      * intros [[? _]|[_ [?|[_ H]]]]; [done|lia|lra].
Qed.

Lemma ranksNoLower_total a b :
  ranksNoLower importType requiredExports a b
  ∨ ranksNoLower importType requiredExports b a.
Proof.
  rewrite !ranksNoLower_ranks. unfold ranks.
  destruct (hasExports importType requiredExports a),
           (hasExports importType requiredExports b);
    [|by left; left|by right; left|];
    (destruct (lt_eq_lt_dec (distance a) (distance b)) as [[?|?]|?];
     [left; right; split; [done|by left]
     | destruct (Qlt_le_dec (similarity a) (similarity b)) as [?%Qlt_le_weak|?];
       [right; right; split; [done|by right]|left; right; split; [done|by right]]
     | right; right; split; [done|by left]]).
Qed.

Lemma ranksNoLower_trans a b c :
  ranksNoLower importType requiredExports a b →
  ranksNoLower importType requiredExports b c →
  ranksNoLower importType requiredExports a c.
Proof.
  rewrite !ranksNoLower_ranks. unfold ranks.
  destruct (hasExports importType requiredExports a),
           (hasExports importType requiredExports b),
           (hasExports importType requiredExports c);
    intros [[? ?]|[? H1]] [[? ?]|[? H2]]; try done; try (by left);
    right; (split; [done|]);
    destruct H1 as [?|[? ?]], H2 as [?|[? ?]];
    try (left; lia); right; (split; [lia|]); lra.
Qed.

End candidates.

Section similarity.
Import ImportPathRepair.

Lemma removeFirst_length c l l' :
  removeFirst c l = Some l' → length l = S (length l').
Proof.
  revert l'. induction l as [|d l IH]; intros l' H; [done|].
  simpl in H. case_bool_decide; [by injection H as <-|].
  destruct (removeFirst c l) as [l0|] eqn:E; [|done].
  injection H as <-. simpl. by rewrite (IH l0).
Qed.

Lemma countCommon_bound l1 : ∀ l2,
  (countCommon l1 l2 ≤ length l1)%nat ∧ (countCommon l1 l2 ≤ length l2)%nat.
Proof.
  induction l1 as [|c l1 IH]; intros l2; simpl; [lia|].
  destruct (removeFirst c l2) as [l2'|] eqn:E.
  - apply removeFirst_length in E. destruct (IH l2'). lia.
  - destruct (IH l2). lia.
Qed.

Lemma length_chars s : length (chars s) = String.length s.
Proof. induction s as [|c s IH]; [done|]. simpl. by rewrite IH. Qed.


Lemma removeFirst_Some_multiset c l l' :
  removeFirst c l = Some l' →
  list_to_set_disj l =@{gmultiset ascii} {[+ c +]} ⊎ list_to_set_disj l'.
Proof.
  revert l'. induction l as [|d l IH]; intros l' H; [done|]. simpl in H.
  case_bool_decide as E.
  - injection H as <-. by rewrite E.
  - destruct (removeFirst c l) as [l0|]; [|done]. injection H as <-.
    rewrite !list_to_set_disj_cons, (IH l0) by done. multiset_solver.
Qed.

Lemma removeFirst_None_multiset c l :
  removeFirst c l = None → c ∉@{gmultiset ascii} list_to_set_disj l.
Proof.
  induction l as [|d l IH]; intros H; [multiset_solver|]. simpl in H.
  case_bool_decide as E; [done|].
  destruct (removeFirst c l) as [l0|]; [done|].
  rewrite list_to_set_disj_cons. specialize (IH eq_refl). multiset_solver.
Qed.

(** The loop counts the characters the two names share, with their
    multiplicities. *)
Lemma countCommon_multiset l1 : ∀ l2,
  countCommon l1 l2
  = size (list_to_set_disj l1 ∩ list_to_set_disj l2 : gmultiset ascii).
Proof.
  induction l1 as [|c l1 IH]; intros l2; simpl.
  - assert (∅ ∩ list_to_set_disj l2 =@{gmultiset ascii} ∅) as -> by multiset_solver.
    symmetry. apply (gmultiset_size_empty (A := ascii)).
  - destruct (removeFirst c l2) as [l2'|] eqn:E.
    + rewrite IH, (removeFirst_Some_multiset c l2 l2') by done.
      assert (({[+ c +]} ⊎ list_to_set_disj l1) ∩ ({[+ c +]} ⊎ list_to_set_disj l2')
              =@{gmultiset ascii}
              {[+ c +]} ⊎ (list_to_set_disj l1 ∩ list_to_set_disj l2')) as ->
        by multiset_solver.
      by rewrite gmultiset_size_disj_union, gmultiset_size_singleton.
    + rewrite IH. apply removeFirst_None_multiset in E. f_equal.
      generalize dependent (list_to_set_disj l2 : gmultiset ascii).
      generalize (list_to_set_disj l1 : gmultiset ascii). clear.
      intros X Y HY. apply gmultiset_eq. intros x.
      rewrite !multiplicity_intersection, multiplicity_disj_union, multiplicity_singleton.
      case_decide as Hx; [|lia]. subst x.
      apply not_elem_of_multiplicity in HY. lia.
Qed.

Lemma size_list_to_set_disj (l : list ascii) :
  size (list_to_set_disj l : gmultiset ascii) = length l.
Proof.
  induction l as [|c l IH]; [done|].
  rewrite list_to_set_disj_cons, gmultiset_size_disj_union, gmultiset_size_singleton.
  cbn [length]. by rewrite IH.
Qed.

Lemma countCommon_comm l1 l2 : countCommon l1 l2 = countCommon l2 l1.
Proof. rewrite !countCommon_multiset. f_equal. multiset_solver. Qed.

Lemma countCommon_permutation l1 l2 : l1 ≡ₚ l2 → countCommon l1 l2 = length l1.
Proof.
  intros H. rewrite countCommon_multiset, <- H, <- size_list_to_set_disj.
  f_equal. multiset_solver.
Qed.


End similarity.

Section selection.
Import ImportPathRepair.

Lemma filtered_fallback (P : FileMatch → bool) (candidates : list FileMatch) :
  candidates ≠ [] →
  let filtered := filter (λ c, P c = true) candidates in
  let L := if bool_decide (length filtered = 0%nat) then candidates else filtered in
  L ≠ [] ∧ (∀ c, c ∈ L → c ∈ candidates)
  ∧ (∀ c, c ∈ candidates → c ∈ L ∨ ∀ b, b ∈ L → P b = true ∧ P c = false).
Proof.
  intros Hne filtered L. subst L. case_bool_decide as E.
  - split; [done|]. split; [done|]. intros c Hc. by left.
  - split; [intros H; by rewrite H in E|].
    split; [intros c Hc; by apply list_elem_of_filter in Hc as [_ ?]|].
    intros c Hc. destruct (P c) eqn:Pc.
    + left. by apply list_elem_of_filter.
    + right. intros b Hb. by apply list_elem_of_filter in Hb as [Hb _].
Qed.

Lemma selectBestCandidate_best candidates requiredExports importType :
  candidates ≠ [] →
  ∃ best, selectBestCandidate candidates requiredExports importType = Some best
          ∧ best ∈ candidates
          ∧ ∀ c, c ∈ candidates → ranksNoLower importType requiredExports best c.
Proof.
  intros Hne. unfold selectBestCandidate.
  rewrite bool_decide_eq_false_2 by (by destruct candidates).
  set (cmp := compareCandidates importType requiredExports).
  assert (∀ a b, (cmp a b <= 0)%Q ∨ (cmp b a <= 0)%Q) as Htotal.
  { intros a b. unfold cmp. rewrite !compareCandidates_before. apply ranksNoLower_total. }
  assert (∀ a b c, (cmp a b <= 0)%Q → (cmp b c <= 0)%Q → (cmp a c <= 0)%Q) as Htrans.
  { intros a b c. unfold cmp. rewrite !compareCandidates_before. apply ranksNoLower_trans. }
  (* the array that is sorted: [L], with what is known of the candidates
     left out of it *)
  assert (∀ L : list FileMatch,
            L ≠ [] → (∀ c, c ∈ L → c ∈ candidates) →
            (∀ c, c ∈ candidates →
                  c ∈ L ∨ ∀ b, b ∈ L →
                    hasExports importType requiredExports b = true
                    ∧ hasExports importType requiredExports c = false) →
            ∃ best, head (sort cmp L) = Some best ∧ best ∈ candidates
                    ∧ ∀ c, c ∈ candidates → ranksNoLower importType requiredExports best c)
    as Hsorted.
  { intros L HL Hsub Hout.
    destruct (sort_nonempty cmp L HL) as [best Hbest].
    destruct (sort_head cmp Htotal Htrans L best Hbest) as [Hin Hmin].
    exists best. split; [done|]. split; [by apply Hsub|].
    intros c Hc. destruct (Hout c Hc) as [HcL|HcL].
    - apply compareCandidates_before. by apply Hmin.
    - destruct (HcL best Hin) as [Hb Hc']. left. split.
      + by apply hasExports_meets.
      + rewrite <- hasExports_meets. by rewrite Hc'. }
  destruct importType.
  - (* named *)
    destruct (bool_decide (0 < length requiredExports)%nat).
    + destruct (filtered_fallback (hasAll requiredExports) candidates Hne)
        as (H1 & H2 & H3).
      by apply Hsorted.
    + destruct (bool_decide (length candidates = 0%nat));
        (apply Hsorted; [done|done|]; intros c Hc; by left).
  - (* default *)
    destruct (filtered_fallback hasDefault candidates Hne) as (H1 & H2 & H3).
    by apply Hsorted.
  - destruct (bool_decide (length candidates = 0%nat));
      (apply Hsorted; [done|done|]; intros c Hc; by left).
  - destruct (bool_decide (length candidates = 0%nat));
      (apply Hsorted; [done|done|]; intros c Hc; by left).
Qed.
End selection.



(** ** C10: the statuses the repair reports *)

Section repair_status.
Import ImportPathRepair.

Lemma repairSingleImport_status fs search sourceFile importDecl :
  let r := repairSingleImport fs search sourceFile importDecl in
  status r = already_valid ∨ status r = not_found ∨ status r = repaired.
Proof.
  unfold repairSingleImport.
  repeat match goal with
         | |- context [if ?b then _ else _] => destruct b
         | |- context [match ?x with _ => _ end] => destruct x
         end; simpl; tauto.
Qed.

(** A broken specifier for which the search finds files is reported as
    [repaired], however many files there are. *)
Lemma repairSingleImport_repaired fs search sourceFile importDecl fileName :
  Js.startsWith (moduleSpecifier importDecl) "." = true →
  resolveImportPath fs (getFilePath sourceFile) (moduleSpecifier importDecl) = None →
  getFileNameFromPath (moduleSpecifier importDecl) = Some fileName →
  findFilesByName search fileName ≠ [] →
  ∃ best,
    selectBestCandidate
      (scoreCandidates fs (findFilesByName search fileName) (getFilePath sourceFile))
      (getNamedImports importDecl) (getImportType importDecl) = Some best
    ∧ status (repairSingleImport fs search sourceFile importDecl) = repaired
    ∧ selectedFile (repairSingleImport fs search sourceFile importDecl)
      = Some (fmPath best).
Proof.
  intros Hrel Hbroken Hname Hfound. unfold repairSingleImport.
  rewrite Hrel, Hbroken, Hname. cbn [negb andb].
  rewrite bool_decide_eq_false_2 by (by destruct (findFilesByName search fileName)).
  destruct (selectBestCandidate_best
              (scoreCandidates fs (findFilesByName search fileName) (getFilePath sourceFile))
              (getNamedImports importDecl) (getImportType importDecl))
    as (best & Hbest & _).
  { unfold scoreCandidates. by destruct (findFilesByName search fileName). }
  exists best. by rewrite Hbest.
Qed.

Lemma fst_repairDeclaration fs search sourceFile dry importDecl :
  fst (repairDeclaration fs search sourceFile dry importDecl)
  = repairSingleImport fs search sourceFile importDecl.
Proof. unfold repairDeclaration. by destruct (countsAsRepaired _). Qed.
End repair_status.

(** C10. No [RepairResult] has the status [multiple_matches]: every import
    is classified as [already_valid], [not_found] or [repaired], by
    [repairSingleImport] and so in every report of [repairImportPaths]. *)
Theorem repair_never_reports_multiple_matches
    (fs : FileSystem) (search : ImportPathRepair.ProjectSearch) :
  (∀ sourceFile importDecl,
     ImportPathRepair.status
       (ImportPathRepair.repairSingleImport fs search sourceFile importDecl)
     ≠ ImportPathRepair.multiple_matches)
  ∧ ∀ options,
      match ImportPathRepair.repairImportPaths fs search options with
      | Some (result, _) =>
          Forall (λ r, ImportPathRepair.status r ≠ ImportPathRepair.multiple_matches
                       ∧ (ImportPathRepair.status r = ImportPathRepair.already_valid
                          ∨ ImportPathRepair.status r = ImportPathRepair.not_found
                          ∨ ImportPathRepair.status r = ImportPathRepair.repaired))
                 (ImportPathRepair.repairedImports result)
      | None => True
      end.
Proof.
  split.
  - intros sourceFile importDecl.
    destruct (repairSingleImport_status fs search sourceFile importDecl)
      as [H|[H|H]]; rewrite H; done.
  - intros options. unfold ImportPathRepair.repairImportPaths.
    destruct (statSync fs _) as [[text|]|]; [|done..].
    cbn [ImportPathRepair.repairedImports].
    apply Forall_fmap, Forall_fmap, Forall_forall. intros d _.
    unfold compose. rewrite fst_repairDeclaration.
    match goal with
    | |- context [ImportPathRepair.repairSingleImport ?a ?b ?c d] =>
        pose proof (repairSingleImport_status a b c d) as H
    end.
    simpl in H.
    (split; [destruct H as [H|[H|H]]; rewrite H; done|done]).
Qed.

(** ** C2: the probe order of the resolvers *)

Lemma firstHit_Some {A} (f : A → bool) l hit :
  firstHit f l = Some hit ↔ firstIn f l hit.
Proof.
  split.
  - induction l as [|x l IH]; [done|]. simpl.
    destruct (f x) eqn:E.
    + intros [= <-]. exists [], l. by repeat split.
    + intros H. destruct (IH H) as (before & after & -> & Hf & Hb).
      exists (x :: before), after. repeat split; [done|]. by constructor.
  - intros (before & after & -> & Hf & Hb).
    induction Hb as [|x before Hx _ IH]; simpl; [by rewrite Hf|by rewrite Hx].
Qed.

Lemma firstHit_None {A} (f : A → bool) l :
  firstHit f l = None ↔ Forall (λ x, f x = false) l.
Proof.
  induction l as [|x l IH]; simpl; [by split; [constructor|]|].
  destruct (f x) eqn:E.
  - split; [done|]. intros H. inversion H; congruence.
  - rewrite IH. split; [by constructor|by inversion 1].
Qed.

Lemma firstHit_app {A} (f : A → bool) l1 l2 :
  firstHit f (l1 ++ l2)
  = match firstHit f l1 with Some x => Some x | None => firstHit f l2 end.
Proof. induction l1 as [|x l1 IH]; [done|]. simpl. by destruct (f x). Qed.

Lemma resolveModulePath_probes fs sourceFile moduleSpecifier :
  CheckDeletable.resolveModulePath fs sourceFile moduleSpecifier
  = (λ hit, default hit (realpath fs hit))
      <$> firstHit (existsSync fs)
            (probesOfCheckDeletable
               (path.resolve (cwd fs)
                  [path.dirname (getFilePath sourceFile); moduleSpecifier])).
Proof.
  unfold CheckDeletable.resolveModulePath.
  change (CheckDeletable.possiblePaths ?r) with (probesOfCheckDeletable r).
  by destruct (firstHit _ _).
Qed.

Lemma repair_resolveImportPath_probes fs currentFilePath importPath :
  ImportPathRepair.resolveImportPath fs currentFilePath importPath
  = firstHit (existsSync fs)
      (probesOfRepair (cwd fs)
         (path.resolve (cwd fs) [path.dirname currentFilePath; importPath])).
Proof.
  unfold ImportPathRepair.resolveImportPath, probesOfRepair.
  by rewrite firstHit_app.
Qed.

(** C2, the claim as stated fails for both resolvers. The resolver of
    the repair never probes the literal path: [./oldStyle.ts] next to an
    existing /p/oldStyle.ts is unresolved. The resolver of check-deletable
    never probes [.d.ts]: [./types] next to an existing /p/types.d.ts is
    unresolved. *)
Lemma resolvers_do_not_follow_the_stated_order :
  (existsSync Example.styleProject "/p/oldStyle.ts" = true
   ∧ path.resolve "/p" [path.dirname "/p/main.ts"; "./oldStyle.ts"] = "/p/oldStyle.ts"
   ∧ ImportPathRepair.resolveImportPath Example.styleProject "/p/main.ts" "./oldStyle.ts"
     = None)
  ∧ (existsSync Example.styleProject "/p/types.d.ts" = true
     ∧ path.resolve "/p" [path.dirname "/p/main.ts"; "./types"] +:+ ".d.ts"
       = "/p/types.d.ts"
     ∧ CheckDeletable.resolveModulePath Example.styleProject Example.mainFile "./types"
       = None).
Proof. by vm_compute. Qed.

(** C2, as amended. The resolver of check-deletable returns the canonical
    form of the first existing path among: the literal resolved path, the
    path with each of .ts, .tsx, .js, .jsx appended, the path joined with
    index.ts, index.tsx, index.js, index.jsx; so a specifier whose literal
    resolved path exists resolves to that path. The resolver of the repair,
    for a specifier whose literal resolved path does not exist, returns the
    first existing path among: the path with each of .ts, .tsx, .js, .jsx,
    .d.ts appended, then index plus each of the same extensions below the
    path. Each is unresolved exactly when none of its probes exists. *)
Theorem resolvers_return_the_first_existing_probe
    (fs : FileSystem) (sourceFile : SourceFile)
    (moduleSpecifier currentFilePath importPath : string) :
  let literal :=
    path.resolve (cwd fs) [path.dirname (getFilePath sourceFile); moduleSpecifier] in
  let resolved := path.resolve (cwd fs) [path.dirname currentFilePath; importPath] in
  existsSync fs resolved = false →
  ((∀ p, CheckDeletable.resolveModulePath fs sourceFile moduleSpecifier = Some p
         ↔ ∃ hit, firstIn (existsSync fs) (probesOfCheckDeletable literal) hit
                  ∧ p = default hit (realpath fs hit))
   ∧ (CheckDeletable.resolveModulePath fs sourceFile moduleSpecifier = None
      ↔ Forall (λ q, existsSync fs q = false) (probesOfCheckDeletable literal))
   ∧ (existsSync fs literal = true →
      CheckDeletable.resolveModulePath fs sourceFile moduleSpecifier
      = Some (default literal (realpath fs literal))))
  ∧ ((∀ p, ImportPathRepair.resolveImportPath fs currentFilePath importPath = Some p
           ↔ firstIn (existsSync fs) (probesOfRepair (cwd fs) resolved) p)
     ∧ (ImportPathRepair.resolveImportPath fs currentFilePath importPath = None
        ↔ Forall (λ q, existsSync fs q = false) (probesOfRepair (cwd fs) resolved))).
Proof.
  intros literal resolved _. split; [split; [|split]|split].
  - intros p. rewrite resolveModulePath_probes. fold literal.
    destruct (firstHit _ _) as [hit|] eqn:E; simpl.
    + apply firstHit_Some in E. split.
      * intros [= <-]. by exists hit.
      * intros (hit' & Hhit' & ->). apply firstHit_Some in E, Hhit'. congruence.
    + split; [done|]. intros (hit' & Hhit' & _).
      apply firstHit_Some in Hhit'. congruence.
  - rewrite resolveModulePath_probes. fold literal. rewrite <- firstHit_None.
    by destruct (firstHit _ _).
  - intros Hlit. rewrite resolveModulePath_probes. fold literal.
    unfold probesOfCheckDeletable. cbn [app firstHit]. by rewrite Hlit.
  - intros p. rewrite repair_resolveImportPath_probes. apply firstHit_Some.
  - rewrite repair_resolveImportPath_probes. apply firstHit_None.
Qed.

Lemma resolvers_return_the_first_existing_probe_witness :
  existsSync Example.styleProject
    (path.resolve (cwd Example.styleProject) [path.dirname "/p/main.ts"; "./oldStyle"])
  = false
  ∧ CheckDeletable.resolveModulePath Example.styleProject Example.mainFile "./oldStyle.ts"
    = Some "/p/oldStyle.ts"
  ∧ ImportPathRepair.resolveImportPath Example.styleProject "/p/main.ts" "./oldStyle"
    = Some "/p/oldStyle.ts".
Proof.
  assert (existsSync Example.styleProject
            (path.resolve (cwd Example.styleProject)
               [path.dirname "/p/main.ts"; "./oldStyle"]) = false) as H
    by (vm_compute; reflexivity).
  split; [exact H|].
  pose proof (resolvers_return_the_first_existing_probe Example.styleProject
                Example.mainFile "./oldStyle.ts" "/p/main.ts" "./oldStyle" H)
    as [(_ & _ & Hlit) [Hrep _]].
  split.
  - apply Hlit. vm_compute. reflexivity.
  - apply Hrep. exists [], ["/p/oldStyle.tsx"; "/p/oldStyle.js"; "/p/oldStyle.jsx";
      "/p/oldStyle.d.ts"; "/p/oldStyle/index.ts"; "/p/oldStyle/index.tsx";
      "/p/oldStyle/index.js"; "/p/oldStyle/index.jsx"; "/p/oldStyle/index.d.ts"].
    split; [vm_compute; reflexivity|]. split; [vm_compute; reflexivity|constructor].
Defined.

(** ** C7: a rename that fails validation *)

(** C7. When [fs.stat] does not find the source path, or finds the
    destination path, [renameFileOrFolder] returns a result with
    [success = false] and an error message that names the path, and the
    file system is the one it was given: nothing was saved and nothing was
    moved. *)
Theorem rename_validation_failure_mutates_nothing
    (loadProject : FileSystem → list SourceFile) (fs : FileSystem)
    (options : FileRename.FileRenameOptions) :
  Fs.stat fs (FileRename.sourcePath options) = None
  ∨ is_Some (Fs.stat fs (FileRename.destinationPath options)) →
  let result := fst (FileRename.renameFileOrFolder loadProject fs options) in
  let after := snd (FileRename.renameFileOrFolder loadProject fs options) in
  FileRename.success result = false
  ∧ (FileRename.error result
     = Some ("Source path not found: " +:+ FileRename.sourcePath options)
     ∨ FileRename.error result
       = Some ("Destination already exists: " +:+ FileRename.destinationPath options))
  ∧ FileRename.updatedFiles result = None
  ∧ after = fs.
Proof.
  intros Hfail. unfold FileRename.renameFileOrFolder.
  destruct (Fs.stat fs (FileRename.sourcePath options)) as [sourceStats|] eqn:Es.
  - destruct Hfail as [?|[destStats Ed]]; [done|]. rewrite Ed. simpl.
    repeat split; by right.
  - simpl. repeat split; by left.
Qed.

Lemma rename_validation_failure_mutates_nothing_witness :
  (Fs.stat Example.styleProject "/p/oldStyle.ts" = None
   ∨ is_Some (Fs.stat Example.styleProject "/p/utils"))
  ∧ fst (FileRename.renameFileOrFolder (λ _, [Example.mainFile]) Example.styleProject
           {| FileRename.sourcePath := "/p/oldStyle.ts";
              FileRename.destinationPath := "/p/utils";
              FileRename.updateImportsOption := true |})
    = FileRename.failure "Destination already exists: /p/utils"
  ∧ snd (FileRename.renameFileOrFolder (λ _, [Example.mainFile]) Example.styleProject
           {| FileRename.sourcePath := "/p/oldStyle.ts";
              FileRename.destinationPath := "/p/utils";
              FileRename.updateImportsOption := true |})
    = Example.styleProject.
Proof.
  assert (Fs.stat Example.styleProject "/p/oldStyle.ts" = None
          ∨ is_Some (Fs.stat Example.styleProject "/p/utils")) as H
    by (right; vm_compute; by eexists).
  split; [exact H|].
  split; [vm_compute; reflexivity|].
  exact (proj2 (proj2 (proj2
           (rename_validation_failure_mutates_nothing (λ _, [Example.mainFile])
              Example.styleProject
              {| FileRename.sourcePath := "/p/oldStyle.ts";
                 FileRename.destinationPath := "/p/utils";
                 FileRename.updateImportsOption := true |} H)))).
Defined.

(** ** C9: the graph built from a project *)

Lemma buildDependencyGraph_ids fs sourceFiles rootPath maxDepth :
  Forall (λ n, ∃ sourceFile,
            sourceFile ∈ sourceFiles
            ∧ id n = path.relative (cwd fs) rootPath (getFilePath sourceFile))
         (buildDependencyGraph fs sourceFiles rootPath maxDepth).
Proof.
  induction sourceFiles as [|sf sourceFiles IH]; simpl; [constructor|].
  assert (Forall (λ n, ∃ sourceFile,
                    sourceFile ∈ sf :: sourceFiles
                    ∧ id n = path.relative (cwd fs) rootPath (getFilePath sourceFile))
                 (buildDependencyGraph fs sourceFiles rootPath maxDepth)) as IH'.
  { eapply Forall_impl; [exact IH|]. intros n (s & Hs & Hn). exists s. split; [by right|done]. }
  destruct (Js.exceeds _ maxDepth); [done|]. constructor; [|done].
  exists sf. split; [by left|done].
Qed.

Lemma visibleUnder_relative cwd root p :
  visibleUnder cwd root p = true →
  Js.startsWith (path.relative cwd root p) "." = false.
Proof.
  unfold visibleUnder, segmentsBelow, path.relative.
  pose proof (resolveSegments_plain cwd [p]) as Hplain.
  destruct (path.stripCommon _ _) as [F T] eqn:E.
  apply stripCommon_spec in E as (C & HF & HT).
  destruct F as [|f F]; [|done]. simpl.
  destruct T as [|first T]; [done|]. intros Hfirst.
  rewrite HT in Hplain. apply Forall_app in Hplain as [_ Hplain].
  inversion Hplain as [|? ? Hp _]; subst. apply plain_inv in Hp as (Hne & _).
  rewrite startsWith_join_cons by done. by apply negb_true_iff.
Qed.

(** C9, the claim as stated fails: a project whose only file lies under
    the root /r, in the directory .x, and imports itself as [./a.ts]. The
    id of the node and its import are both [.x/a.ts], which starts with a
    dot: the edge is followed and a cycle is reported. *)
Lemma a_project_under_the_root_with_a_reported_cycle :
  segmentsBelow "/r" "/r" (getFilePath Example.hiddenFile) = Some [".x"; "a.ts"]
  ∧ buildDependencyGraph Example.hiddenProject [Example.hiddenFile] "/r" (Js.finite 10)
    = [ {| id := ".x/a.ts"; filePath := "/r/.x/a.ts"; imports := [".x/a.ts"] |} ]
  ∧ detectCircularDependencies
      (buildDependencyGraph Example.hiddenProject [Example.hiddenFile] "/r" (Js.finite 10))
    = Some [cycleReport [".x/a.ts"; ".x/a.ts"]]
  ∧ detectCircularDependencies
      (buildDependencyGraph Example.hiddenProject [Example.hiddenFile] "/r" (Js.finite 10))
    ≠ Some [].
Proof. by vm_compute. Qed.

(** C9, as amended. For every project whose source files all lie under the
    root path, none in a file or directory directly below the root whose
    name starts with a dot, [detectCircularDependencies] applied to the
    nodes of [buildDependencyGraph] returns the empty sequence: no node id
    starts with a dot, so an import that passes the edge filter (one that
    leaves the root, say) is never the id of a node, and no cycle is
    reported, whatever the files import. *)
Theorem graph_of_a_project_under_the_root_has_no_reported_cycle
    (fs : FileSystem) (sourceFiles : list SourceFile) (rootPath : string)
    (maxDepth : Js.number) :
  Forall (λ sourceFile, visibleUnder (cwd fs) rootPath (getFilePath sourceFile) = true)
         sourceFiles →
  Forall (λ n, Js.startsWith (id n) "." = false)
         (buildDependencyGraph fs sourceFiles rootPath maxDepth)
  ∧ detectCircularDependencies (buildDependencyGraph fs sourceFiles rootPath maxDepth)
    = Some [].
Proof.
  intros Hunder.
  assert (Forall (λ n, Js.startsWith (id n) "." = false)
                 (buildDependencyGraph fs sourceFiles rootPath maxDepth)) as Hids.
  { eapply Forall_impl; [apply buildDependencyGraph_ids|].
    intros n (sf & Hsf & ->). apply visibleUnder_relative.
    rewrite Forall_forall in Hunder. by apply Hunder. }
  split; [done|]. by apply detect_no_relative_ids.
Qed.

Lemma graph_of_a_project_under_the_root_has_no_reported_cycle_witness :
  Forall (λ sourceFile,
            visibleUnder (cwd Example.mutualProject) "/r" (getFilePath sourceFile) = true)
         [Example.fileA; Example.fileB]
  ∧ buildDependencyGraph Example.mutualProject [Example.fileA; Example.fileB] "/r" (Js.finite 10)
    = [ {| id := "src/a.ts"; filePath := "/r/src/a.ts"; imports := ["src/b"] |};
        {| id := "src/b.ts"; filePath := "/r/src/b.ts"; imports := ["src/a"; "../lib/x"] |} ]
  ∧ detectCircularDependencies
      (buildDependencyGraph Example.mutualProject [Example.fileA; Example.fileB] "/r" (Js.finite 10))
    = Some [].
Proof.
  assert (Forall (λ sourceFile,
                    visibleUnder (cwd Example.mutualProject) "/r"
                      (getFilePath sourceFile) = true)
                 [Example.fileA; Example.fileB]) as H
    by (repeat constructor).
  split; [exact H|]. split; [vm_compute; reflexivity|].
  exact (proj2 (graph_of_a_project_under_the_root_has_no_reported_cycle
                  Example.mutualProject [Example.fileA; Example.fileB] "/r" (Js.finite 10) H)).
Defined.

(** ** Relative specifiers *)

Lemma join_nonempty x l : x ≠ "" → Js.join "/" (x :: l) ≠ "".
Proof.
  intros Hx. destruct l as [|y l]; [done|]. rewrite join_cons.
  intros H. by apply app_eq_empty in H as [? _].
Qed.

Lemma startsWith_slash_plain x :
  x ≠ "" → hasChar "/" x = false → Js.startsWith x "/" = false.
Proof.
  destruct x as [|c x]; [done|]. intros _. rewrite hasChar_cons.
  intros [H _]%orb_false_iff. by rewrite startsWith_cons.
Qed.

Lemma commonAncestor_exists cwd fromDir target :
  ∃ common up down, commonAncestor cwd fromDir target common up down.
Proof.
  destruct (path.stripCommon (path.resolveSegments cwd [fromDir]) target)
    as [up down] eqn:E.
  destruct (stripCommon_spec _ _ _ _ E) as (C & HF & HT).
  by exists C, up, down.
Qed.

Lemma relative_to_pathOf cwd fromDir target common up down :
  Forall (λ s, plain s = true) target →
  commonAncestor cwd fromDir target common up down →
  path.relative cwd fromDir (pathOf target)
  = Js.join "/" (replicate (length up) ".." ++ down).
Proof.
  intros Hplain (_ & _ & E). unfold path.relative.
  by rewrite resolveSegments_pathOf, E.
Qed.

Lemma dotdot_plain_facts n :
  Forall (λ s, s ≠ "" ∧ hasChar "/" s = false) (replicate n "..").
Proof. induction n; constructor; done. Qed.

(** The relative path from a directory to a target below the common
    ancestor climbs and descends. *)
Lemma dotted_climbs up down :
  down ≠ [] → Forall (λ s, plain s = true) down →
  climbs up down (dotted (Js.join "/" (replicate (length up) ".." ++ down))).
Proof.
  intros Hne Hplain. unfold dotted.
  destruct (Js.startsWith _ ".") eqn:E.
  - by exists [].
  - exists ["."]. split; [by repeat constructor|].
    change (["."] ++ ?l) with ("." :: l). rewrite join_cons_ne; [done|].
    by destruct (length up), down.
Qed.

Lemma climbs_segments up down s :
  down ≠ [] → Forall (λ x, plain x = true) down → climbs up down s →
  s ≠ "" ∧ path.isAbsolute s = false
  ∧ ∃ dots, Forall (λ x, x = ".") dots
            ∧ path.segmentsOf s = dots ++ replicate (length up) ".." ++ down.
Proof.
  intros Hne Hplain (dots & Hdots & ->).
  assert (Forall (λ x, x ≠ "" ∧ hasChar "/" x = false)
                 (dots ++ replicate (length up) ".." ++ down)) as Hall.
  { apply Forall_app. split; [|apply Forall_app; split].
    - eapply Forall_impl; [exact Hdots|]. by intros ? ->.
    - apply dotdot_plain_facts.
    - eapply Forall_impl; [exact Hplain|]. intros x Hx.
      by apply plain_inv in Hx as (? & _ & _ & ?). }
  destruct (dots ++ replicate (length up) ".." ++ down) as [|x l] eqn:E.
  { apply app_eq_nil in E as [_ E]. by apply app_eq_nil in E as [_ ?]. }
  inversion Hall as [|? ? [Hx1 Hx2] Hl]; subst.
  split; [by apply join_nonempty|]. split.
  - unfold path.isAbsolute. rewrite startsWith_join_cons by done.
    by apply startsWith_slash_plain.
  - exists dots. split; [done|]. unfold path.segmentsOf.
    rewrite E. apply (split_join "/"%char); [done|].
    eapply Forall_impl; [exact Hall|]. by intros ? [_ ?].
Qed.

(** Resolving such a specifier from the directory leads to the target. *)
Lemma resolve_climbs cwd fromDir common up down s :
  path.resolveSegments cwd [fromDir] = common ++ up →
  down ≠ [] → Forall (λ x, plain x = true) down → climbs up down s →
  path.resolve cwd [fromDir; s] = pathOf (common ++ down).
Proof.
  intros HF Hne Hplain Hs.
  destruct (climbs_segments up down s Hne Hplain Hs)
    as (Hs1 & Hs2 & dots & Hdots & Hsegs).
  unfold path.resolve.
  by rewrite (resolveSegments_relative cwd fromDir s common up dots down).
Qed.




(** *** [dirname] and [basename] of a normalized path *)

Lemma dropTrailingEmpty_snoc l x :
  x ≠ "" → path.dropTrailingEmpty (l ++ [x]) = l ++ [x].
Proof.
  intros Hx. induction l as [|y l IH]; simpl.
  - by rewrite bool_decide_eq_false_2.
  - rewrite IH. by destruct l.
Qed.

Lemma dirname_pathOf segs x :
  Forall (λ s, plain s = true) segs → plain x = true →
  path.dirname (pathOf (segs ++ [x])) = pathOf segs.
Proof.
  intros Hsegs Hx. rewrite pathOf_cons. unfold path.dirname.
  pose proof (plain_inv x Hx) as (Hx1 & _ & _ & Hx2).
  unfold path.segmentsOf. rewrite (split_join "/"%char).
  2:{ by destruct segs. }
  2:{ apply Forall_plain_no_slash, Forall_app. split; [done|by constructor]. }
  rewrite dropTrailingEmpty_snoc by done. rewrite removelast_last.
  destruct segs as [|s segs]; [done|].
  rewrite (bool_decide_eq_false_2 (s :: segs = [])) by done.
  rewrite (bool_decide_eq_true_2 ("/"%char = "/"%char)) by done.
  rewrite bool_decide_eq_false_2; [done|].
  inversion Hsegs as [|? ? Hs _]; subst.
  apply plain_inv in Hs as (Hs & _). congruence.
Qed.

(** *** [replace] of a leading occurrence *)

Lemma substitution_plain matched before after rep :
  hasChar "$" rep = false → Js.substitution matched before after rep = rep.
Proof.
  induction rep as [|c rep IH]; [done|]. rewrite hasChar_cons.
  intros [Hc Hrep]%orb_false_iff. cbn [Js.substitution].
  rewrite Hc. by rewrite IH.
Qed.

Lemma dropString_app a b : Js.dropString (String.length a) (a +:+ b) = b.
Proof. induction a as [|c a IH]; [by destruct b|]. by rewrite app_cons. Qed.

Lemma replace_prefix old rest new :
  hasChar "$" new = false → Js.replace (old +:+ rest) old new = new +:+ rest.
Proof.
  intros Hnew. unfold Js.replace.
  destruct (old +:+ rest) as [|c s] eqn:E.
  - apply app_eq_empty in E as [-> ->]. simpl.
    by rewrite substitution_plain.
  - rewrite <- E. unfold Js.replaceGo.
    assert (String.prefix old (old +:+ rest) = true) as Hp by apply prefix_app.
    rewrite E in *. rewrite Hp. rewrite <- E.
    by rewrite dropString_app, substitution_plain.
Qed.

Lemma replace_whole old new :
  hasChar "$" new = false → Js.replace old old new = new.
Proof.
  intros H. rewrite <- (app_empty_r old) at 1.
  by rewrite replace_prefix, app_empty_r.
Qed.

(** *** Removing a trailing [/index] *)

Lemma stripSuffixMatch_single p a :
  p ≠ "" → Js.stripSuffixMatch [p] (a +:+ p) = a.
Proof.
  intros Hp. induction a as [|c a IH].
  - rewrite app_empty_l. destruct p as [|d p]; [done|].
    rewrite stripSuffixMatch_cons. by rewrite bool_decide_eq_true_2 by set_solver.
  - rewrite app_cons, stripSuffixMatch_cons, IH.
    rewrite bool_decide_eq_false_2; [done|].
    intros Hin%list_elem_of_singleton. apply (f_equal String.length) in Hin.
    cbn [String.length] in Hin. rewrite length_app_s in Hin. lia.
Qed.




Lemma stripIndex_index l :
  l ≠ [] →
  Js.stripSuffixMatch ["/index"] (Js.join "/" (l ++ ["index"])) = Js.join "/" l.
Proof.
  intros Hl. rewrite join_app by done.
  change (Js.join "/" ["index"]) with "index".
  change ("/" +:+ "index") with "/index". by apply stripSuffixMatch_single.
Qed.


Lemma basename_pathOf segs x :
  Forall (λ s, plain s = true) segs → plain x = true →
  path.basename (pathOf (segs ++ [x])) = x.
Proof.
  intros Hsegs Hx. unfold path.basename, path.segmentsOf.
  rewrite pathOf_cons, split_cons_sep.
  rewrite (split_join "/"%char).
  2:{ by destruct segs. }
  2:{ apply Forall_plain_no_slash, Forall_app. split; [done|by constructor]. }
  rewrite filter_cons_False by (intros H; by apply H).
  rewrite filter_app, filter_cons_True by (by apply plain_inv in Hx as (? & _)).
  rewrite filter_nil. by rewrite last_snoc.
Qed.

(** ** The rewriting of file-rename *)

Lemma dotted_startsWith r : Js.startsWith (dotted r) "." = true.
Proof.
  unfold dotted. destruct (Js.startsWith r ".") eqn:E; [done|].
  change ("./" +:+ r) with (String "." (String "/" r)). by rewrite startsWith_cons.
Qed.


Lemma commonAncestor_plain cwd fromDir target common up down :
  Forall (λ s, plain s = true) target →
  commonAncestor cwd fromDir target common up down →
  Forall (λ s, plain s = true) common ∧ Forall (λ s, plain s = true) down.
Proof. intros Hplain (_ & -> & _). by apply Forall_app in Hplain. Qed.







(** ** The rewriting of file-move *)



(** *** The specifiers file-move takes for references to a file *)

Lemma pathOf_snoc_suffix segs b e : pathOf (segs ++ [b]) +:+ e = pathOf (segs ++ [b +:+ e]).
Proof.
  unfold pathOf. rewrite <- join_snoc_suffix.
  change ("/" +:+ ?t) with (String "/" t). by rewrite app_cons.
Qed.



(** ** Claim C5: a moved index file *)





(** ** Claim C4: the extension style *)




(** ** Claim C3: rewriting, then resolving *)





(** ** A second run of the repair *)

Section second_repair.
Import ImportPathRepair.

Lemma firstHit_ext {A} (f g : A → bool) l :
  (∀ x, f x = g x) → firstHit f l = firstHit g l.
Proof. intros E. induction l as [|x l IH]; [done|]. simpl. by rewrite E, IH. Qed.

Lemma firstHit_hit {A} (f : A → bool) l x :
  x ∈ l → f x = true → ∃ hit, firstHit f l = Some hit ∧ f hit = true.
Proof.
  intros Hx Hf. destruct (firstHit f l) as [hit|] eqn:E.
  - exists hit. split; [done|]. by apply firstHit_Some in E as (? & ? & _ & ? & _).
  - rewrite firstHit_None, Forall_forall in E. specialize (E x Hx). congruence.
Qed.

Lemma sameEntries_refl fs : sameEntries fs fs.
Proof. done. Qed.

(** Writing a file that is there leaves the set of existing paths as it
    is. *)
Lemma sameEntries_writeFile fs p text0 text :
  statSync fs p = Some (File text0) →
  sameEntries fs (writeFile fs (path.resolve (cwd fs) [p]) text).
Proof.
  intros Hp. split; [done|]. intros q.
  unfold existsSync, statSync, writeFile. cbn [cwd stat].
  rewrite resolve_idempotent.
  destruct (bool_decide (path.resolve (cwd fs) [q] = path.resolve (cwd fs) [p])) eqn:E;
    [|done].
  apply bool_decide_eq_true_1 in E. rewrite E. unfold statSync in Hp. rewrite Hp.
  by rewrite !bool_decide_eq_true_2.
Qed.

Lemma statSync_writeFile fs p text :
  statSync (writeFile fs (path.resolve (cwd fs) [p]) text) p = Some (File text).
Proof.
  unfold statSync, writeFile. cbn [cwd stat]. rewrite resolve_idempotent.
  by rewrite bool_decide_eq_true_2.
Qed.

Lemma resolveImportPath_same fs fs' currentFilePath importPath :
  sameEntries fs fs' →
  resolveImportPath fs' currentFilePath importPath
  = resolveImportPath fs currentFilePath importPath.
Proof.
  intros [Hcwd Hex]. unfold resolveImportPath. rewrite Hcwd.
  by rewrite !(firstHit_ext (existsSync fs') (existsSync fs)).
Qed.

(** The repair of one import reads the file system through the working
    directory and the existence of paths only, and the source file through
    its path only. *)
Lemma repairSingleImport_same fs fs' search sourceFile sourceFile' importDecl :
  sameEntries fs fs' →
  getFilePath sourceFile' = getFilePath sourceFile →
  repairSingleImport fs' search sourceFile' importDecl
  = repairSingleImport fs search sourceFile importDecl.
Proof.
  intros Hsame Hpath. unfold repairSingleImport.
  rewrite Hpath, (resolveImportPath_same fs fs') by done.
  destruct Hsame as [Hcwd Hex].
  assert (∀ l f, scoreCandidates fs' l f = scoreCandidates fs l f) as Hscore.
  { intros l f. unfold scoreCandidates, calculateDirectoryDistance. by rewrite Hcwd. }
  assert (∀ a b, generateRelativePath fs' a b = generateRelativePath fs a b) as Hgen.
  { intros a b. unfold generateRelativePath. by rewrite Hcwd. }
  destruct (negb _ && negb _); [done|].
  assert (∀ resolved : option string,
            match resolved with Some r => existsSync fs' r | None => false end
            = match resolved with Some r => existsSync fs r | None => false end) as ->.
  { intros [r|]; [apply Hex|done]. }
  destruct (match resolveImportPath fs _ _ with Some _ => _ | None => _ end); [done|].
  destruct (getFileNameFromPath _) as [fileName|]; [|done].
  destruct (bool_decide _); [done|]. rewrite Hscore.
  destruct (selectBestCandidate _ _ _); [|done]. by rewrite Hgen.
Qed.

Lemma extensions_no_slash : Forall (λ e, hasChar "/" e = false) extensions.
Proof. by repeat constructor. Qed.

Lemma generateRelativePath_dotted fs fromFile toFile :
  Js.startsWith (generateRelativePath fs fromFile toFile) "." = true.
Proof.
  unfold generateRelativePath.
  change (if negb (Js.startsWith ?r ".") then "./" +:+ ?r else ?r)
    with (if negb (Js.startsWith r ".") then "./" +:+ r else r).
  set (r := Js.stripSuffixMatch _ _).
  destruct (Js.startsWith r ".") eqn:E; [done|]. cbn [negb].
  change ("./" +:+ r) with (String "." (String "/" r)). by rewrite startsWith_cons.
Qed.

Lemma generateRelativePath_nonempty fs fromFile toFile :
  orNull (generateRelativePath fs fromFile toFile)
  = Some (generateRelativePath fs fromFile toFile).
Proof.
  pose proof (generateRelativePath_dotted fs fromFile toFile) as H.
  unfold orNull. by destruct (generateRelativePath fs fromFile toFile).
Qed.

(** The specifier the repair writes for a candidate resolves, with the
    repair's own resolver, to a file that exists. *)
Lemma repaired_specifier_resolves fs file candidate :
  reachableCandidate fs file candidate →
  ∃ hit, resolveImportPath fs file (generateRelativePath fs file candidate) = Some hit
         ∧ existsSync fs hit = true.
Proof.
  intros (xs & b & common & up & down & -> & Hplain & Hanc & Hext & Hb' & Hex).
  destruct (commonAncestor_plain _ _ _ _ _ _ Hplain Hanc) as [_ Hdown].
  pose proof Hanc as (Hdir & Htarget & _).
  assert (xs = common ++ down) as Hxs.
  { rewrite app_assoc in Htarget. by apply app_inj_tail in Htarget as [? _]. }
  set (b' := Js.stripSuffixMatch extensions b) in *.
  assert (Forall (λ s, plain s = true) (down ++ [b'])) as Hdown'.
  { apply Forall_app. split; [by apply Forall_app in Hdown as [? _]|by constructor]. }
  assert (generateRelativePath fs file (pathOf (xs ++ [b]))
          = dotted (Js.join "/" (replicate (length up) ".." ++ down ++ [b']))) as ->.
  { unfold generateRelativePath.
    rewrite (relative_to_pathOf _ _ _ common up (down ++ [b])) by done.
    rewrite !app_assoc, stripSuffixMatch_join_last by apply extensions_no_slash.
    unfold dotted. by destruct (Js.startsWith _ "."). }
  pose proof (dotted_climbs up (down ++ [b'])) as Hclimbs.
  unfold resolveImportPath.
  rewrite (resolve_climbs _ _ common up (down ++ [b'])); try done;
    [|by destruct down|by apply Hclimbs; [destruct down|]].
  destruct (stripSuffixMatch_spec extensions b) as [[Hno _]|[_ (e & He & Hb)]];
    [congruence|]. fold b' in Hb.
  destruct (firstHit_hit (existsSync fs)
              ((λ ext, pathOf (common ++ down ++ [b']) +:+ ext) <$> extensions)
              (pathOf (xs ++ [b]))) as (hit & -> & Hhit); [|done|by exists hit].
  apply list_elem_of_fmap. exists e. split; [|done].
  by rewrite app_assoc, <- Hxs, pathOf_snoc_suffix, <- Hb.
Qed.

Lemma unique_elem x l : ∀ seen, x ∈ unique seen l → x ∈ l.
Proof.
  induction l as [|y l IH]; intros seen; simpl; [done|].
  destruct (bool_decide (y ∈ seen)).
  - intros H. right. by apply (IH seen).
  - intros [->|H]%elem_of_cons; [by left|right; by apply (IH _ H)].
Qed.

Lemma findFilesByName_paths search fileName c :
  c ∈ findFilesByName search fileName →
  ∃ pattern, fmPath c ∈ glob search pattern.
Proof.
  unfold findFilesByName. intros (filePath & Hin & Hc)%list_elem_of_omap.
  apply unique_elem, list_elem_of_In, in_concat in Hin as (l & Hpat & Hl).
  apply list_elem_of_In, list_elem_of_fmap in Hpat as (pattern & -> & _).
  apply list_elem_of_In in Hl.
  exists pattern. destruct (fileExports search filePath) as [[? ?]|]; [|done].
  by injection Hc as <-.
Qed.

(** A specifier that the repair sets names a file found by the search. *)
Lemma countsAsRepaired_inv fs search sourceFile importDecl p :
  countsAsRepaired (repairSingleImport fs search sourceFile importDecl) = Some p →
  ∃ pattern candidate,
    candidate ∈ glob search pattern
    ∧ p = generateRelativePath fs (getFilePath sourceFile) candidate.
Proof.
  unfold repairSingleImport.
  destruct (negb _ && negb _); [done|].
  destruct (match resolveImportPath fs _ _ with Some _ => _ | None => _ end); [done|].
  destruct (getFileNameFromPath _) as [fileName|]; [|done].
  destruct (bool_decide _) eqn:Hlen; [done|].
  destruct (selectBestCandidate _ _ _) as [best|] eqn:Hbest; [|done].
  unfold countsAsRepaired. cbn [status repairedPath].
  rewrite generateRelativePath_nonempty. intros [= <-].
  destruct (selectBestCandidate_best
              (scoreCandidates fs (findFilesByName search fileName) (getFilePath sourceFile))
              (getNamedImports importDecl) (getImportType importDecl))
    as (best' & Hbest' & Hin & _).
  { apply bool_decide_eq_false_1 in Hlen. unfold scoreCandidates.
    by destruct (findFilesByName search fileName). }
  rewrite Hbest in Hbest'. injection Hbest' as <-.
  unfold scoreCandidates in Hin. apply list_elem_of_fmap in Hin as (c & -> & Hc).
  apply findFilesByName_paths in Hc as (pattern & Hc).
  by exists pattern, (fmPath c).
Qed.

Lemma countsAsRepaired_None_status fs search sourceFile importDecl :
  countsAsRepaired (repairSingleImport fs search sourceFile importDecl) = None →
  status (repairSingleImport fs search sourceFile importDecl) ≠ repaired.
Proof.
  unfold repairSingleImport.
  destruct (negb _ && negb _); [done|].
  destruct (match resolveImportPath fs _ _ with Some _ => _ | None => _ end); [done|].
  destruct (getFileNameFromPath _) as [fileName|]; [|done].
  destruct (bool_decide _) eqn:Hlen; [done|].
  destruct (selectBestCandidate _ _ _) as [best|] eqn:Hbest; [|done].
  unfold countsAsRepaired. cbn [status repairedPath].
  by rewrite generateRelativePath_nonempty.
Qed.

(** After its turn of the loop, a declaration is one the repair leaves
    alone. *)
Lemma turn_settled fs search sourceFile importDecl :
  searchFindsFiles fs search (getFilePath sourceFile) →
  countsAsRepaired
    (repairSingleImport fs search sourceFile
       (snd (repairDeclaration fs search sourceFile false importDecl))) = None.
Proof.
  intros Hsearch. unfold repairDeclaration.
  destruct (countsAsRepaired (repairSingleImport fs search sourceFile importDecl))
    as [p|] eqn:E; [|done]. cbn [snd].
  apply countsAsRepaired_inv in E as (pattern & candidate & Hin & ->).
  destruct (repaired_specifier_resolves fs (getFilePath sourceFile) candidate)
    as (hit & Hhit & Hex); [by apply (Hsearch pattern)|].
  unfold repairSingleImport. cbn [moduleSpecifier setModuleSpecifier].
  by rewrite generateRelativePath_dotted, Hhit, Hex.
Qed.

Lemma omap_nil_Forall {A B} (f : A → option B) l :
  omap f l = [] → Forall (λ x, f x = None) l.
Proof.
  induction l as [|x l IH]; [done|]. simpl.
  destruct (f x) eqn:E; [done|]. intros H. constructor; [done|by apply IH].
Qed.

Lemma Forall_omap_nil {A B} (f : A → option B) l :
  Forall (λ x, f x = None) l → omap f l = [].
Proof. induction 1 as [|x l E _ IH]; [done|]. simpl. by rewrite E. Qed.

(** A run of the repair on a file whose declarations the repair leaves
    alone reports no repair and writes nothing. *)
Lemma repair_of_settled_file fs fs1 search options text1 sourceFile :
  sameEntries fs fs1 →
  statSync fs1 (optFilePath options) = Some (File text1) →
  getFilePath sourceFile = path.resolve (cwd fs) [optFilePath options] →
  Forall (λ d, countsAsRepaired (repairSingleImport fs search sourceFile d) = None)
    (importDeclarations text1) →
  ∃ r2, repairImportPaths fs1 search options = Some (r2, fs1)
        ∧ totalImportsRepaired r2 = 0%nat
        ∧ Forall (λ r, status r ≠ repaired) (repairedImports r2).
Proof.
  intros Hsame Hstat Hpath Hsettled. unfold repairImportPaths. rewrite Hstat.
  set (sourceFile1 := {| getFilePath := _; getText := text1 |}).
  assert (fst <$> (repairDeclaration fs1 search sourceFile1 (dryRun options)
                     <$> importDeclarations text1)
          = repairSingleImport fs search sourceFile <$> importDeclarations text1) as ->.
  { rewrite <- list_fmap_compose. apply list_fmap_ext. intros i d _. cbn [compose].
    rewrite fst_repairDeclaration. apply repairSingleImport_same; [done|].
    subst sourceFile1. cbn [getFilePath]. destruct Hsame as [-> _]. by rewrite Hpath. }
  assert (omap countsAsRepaired
            (repairSingleImport fs search sourceFile <$> importDeclarations text1) = [])
    as ->.
  { apply Forall_omap_nil, Forall_fmap. apply Hsettled. }
  cbn [length]. rewrite bool_decide_eq_false_2 by lia. rewrite andb_false_r.
  eexists. split; [done|]. split; [done|]. cbn [repairedImports].
  apply Forall_fmap. eapply Forall_impl; [exact Hsettled|].
  intros d. apply countsAsRepaired_None_status.
Qed.

(** The repair, run again on the file system it leaves, repairs nothing
    and writes nothing. *)
Lemma repairImportPaths_again fs search options r1 fs1 :
  dryRun options = false →
  searchFindsFiles fs search (path.resolve (cwd fs) [optFilePath options]) →
  repairImportPaths fs search options = Some (r1, fs1) →
  ∃ r2, repairImportPaths fs1 search options = Some (r2, fs1)
        ∧ totalImportsRepaired r2 = 0%nat
        ∧ Forall (λ r, status r ≠ repaired) (repairedImports r2).
Proof.
  intros Hdry Hsearch Hrun. unfold repairImportPaths in Hrun.
  destruct (statSync fs (optFilePath options)) as [[text|]|] eqn:Hstat; try done.
  set (sourceFile := {| getFilePath := _; getText := text |}) in Hrun.
  rewrite Hdry in Hrun. cbn [negb andb] in Hrun.
  set (turns := _ <$> importDeclarations text) in Hrun.
  destruct (bool_decide (0 < length (omap countsAsRepaired (fst <$> turns)))%nat) eqn:Hcount;
    injection Hrun as <- <-.
  - apply (repair_of_settled_file fs _ search options
             (withImports text (snd <$> turns)) sourceFile).
    + by apply (sameEntries_writeFile fs _ text).
    + apply statSync_writeFile.
    + done.
    + cbn [withImports importDeclarations]. subst turns.
      rewrite <- list_fmap_compose. apply Forall_fmap, Forall_forall.
      intros d _. cbn [compose]. by apply turn_settled.
  - apply (repair_of_settled_file fs _ search options text sourceFile); try done.
    apply bool_decide_eq_false_1 in Hcount.
    assert (omap countsAsRepaired (fst <$> turns) = []) as Hnil.
    { destruct (omap countsAsRepaired (fst <$> turns)); [done|]. cbn [length] in Hcount. lia. }
    apply omap_nil_Forall in Hnil. subst turns.
    rewrite <- list_fmap_compose in Hnil. apply Forall_fmap in Hnil.
    eapply Forall_impl; [exact Hnil|]. intros d. cbn [compose].
    by rewrite fst_repairDeclaration.
Qed.

End second_repair.

(** ** A second run of the optimization *)

Section second_optimization.
Import ImportOptimization.

Lemma statSync_writeFile_at fs p text : statSync (writeFile fs p text) p = Some (File text).
Proof. unfold statSync, writeFile. cbn [cwd stat]. by rewrite bool_decide_eq_true_2. Qed.

Lemma endsWith_nested a :
  Js.endsWith (a +:+ "/index") "/index/index" = false → Js.endsWith a "/index" = false.
Proof.
  intros H. destruct (Js.endsWith a "/index") eqn:E; [|done].
  apply endsWith_inv in E as [a' ->]. rewrite app_assoc_s in H.
  change ("/index" +:+ "/index") with "/index/index" in H. by rewrite endsWith_app in H.
Qed.

(** A declaration that went through the index-path pass is left alone by
    it, unless its specifier ended with [/index/index]. *)
Lemma optimizeIndexImportPath_stable importDecl :
  (Js.startsWith (moduleSpecifier importDecl) "." = true →
   Js.endsWith (moduleSpecifier importDecl) "/index/index" = false) →
  optimizeIndexImportPath (fst (optimizeIndexImportPath importDecl))
  = (fst (optimizeIndexImportPath importDecl), []).
Proof.
  intros Hnested. unfold optimizeIndexImportPath at 2 3.
  destruct (Js.startsWith (moduleSpecifier importDecl) "."
            && Js.endsWith (moduleSpecifier importDecl) "/index") eqn:E; cbn [fst].
  - apply andb_true_iff in E as [Hdot Hindex]. specialize (Hnested Hdot).
    apply endsWith_inv in Hindex as [a Ha]. rewrite Ha in Hnested |- *.
    rewrite stripSuffixMatch_single by done.
    unfold optimizeIndexImportPath. cbn [moduleSpecifier ImportPathRepair.setModuleSpecifier].
    by rewrite (endsWith_nested a), andb_false_r.
  - unfold optimizeIndexImportPath. by rewrite E.
Qed.

Lemma optimizeIndexImportPaths_stable decls :
  Forall (λ d, Js.startsWith (moduleSpecifier d) "." = true →
               Js.endsWith (moduleSpecifier d) "/index/index" = false) decls →
  optimizeIndexImportPaths (fst (optimizeIndexImportPaths decls))
  = (fst (optimizeIndexImportPaths decls), []).
Proof.
  unfold optimizeIndexImportPaths. cbn [fst].
  induction 1 as [|d decls Hd _ IH]; [done|].
  rewrite !fmap_cons. cbn [concat]. injection IH as IH1 IH2.
  rewrite (optimizeIndexImportPath_stable d Hd). cbn [fst snd app].
  by rewrite IH1, IH2.
Qed.

(** With the index-path pass alone, the passes leave their own result as
    it is. *)
Lemma runPasses_index_again options text decls changes :
  removeUnused options = false →
  consolidateImports options = false →
  separateTypeImports options = false →
  noNestedIndex text →
  runPasses options text = Some (decls, changes) →
  runPasses options (ImportPathRepair.withImports text decls) = Some (decls, []).
Proof.
  intros Hunused Hconsolidate Hseparate Hnested. unfold runPasses.
  rewrite Hunused, Hconsolidate, Hseparate. cbn [ImportPathRepair.withImports importDeclarations].
  destruct (optimizeIndexPaths options).
  - pose proof (optimizeIndexImportPaths_stable _ Hnested) as Hstable.
    destruct (optimizeIndexImportPaths (importDeclarations text)) as [d1 c1].
    cbn [fst] in Hstable. intros [= <- <-]. by rewrite Hstable.
  - by intros [= <- <-].
Qed.

Lemma optimizeImports_index_again fs options r1 fs1 :
  removeUnused options = false →
  consolidateImports options = false →
  separateTypeImports options = false →
  (∀ text, statSync fs (optFilePath options) = Some (File text) → noNestedIndex text) →
  optimizeImports fs options = Some (r1, fs1) →
  ∃ r2, optimizeImports fs1 options = Some (r2, fs1)
        ∧ optimized r2 = false ∧ changes r2 = [].
Proof.
  intros Hunused Hconsolidate Hseparate Hnested Hrun.
  unfold optimizeImports in Hrun.
  destruct (statSync fs (optFilePath options)) as [[text|]|] eqn:Hstat.
  - destruct (runPasses options text) as [[decls changes]|] eqn:Hpasses; [|done].
    pose proof (runPasses_index_again options text decls changes
                  Hunused Hconsolidate Hseparate (Hnested text eq_refl) Hpasses) as Hagain.
    assert (statSync fs1 (optFilePath options)
            = Some (File (ImportPathRepair.withImports text decls))) as Hstat1.
    { destruct (bool_decide (ImportPathRepair.withImports text decls ≠ text)) eqn:E;
        injection Hrun as <- <-.
      - apply statSync_writeFile_at.
      - apply bool_decide_eq_false_1 in E. apply dec_stable in E. by rewrite E. }
    unfold optimizeImports. rewrite Hstat1, Hagain.
    cbn [ImportPathRepair.withImports importDeclarations exportDeclarations
         dynamicImports bodyIdentifiers].
    rewrite bool_decide_eq_false_2 by (by intros H; apply H).
    by eexists.
  - injection Hrun as <- <-. unfold optimizeImports. rewrite Hstat. by eexists.
  - injection Hrun as <- <-. unfold optimizeImports. rewrite Hstat. by eexists.
Qed.

End second_optimization.

(** ** Claim C8: a second run *)

(** C8, as stated, fails for the optimization: main.ts imports from
    [./a/index/index]; the first run rewrites the specifier to [./a/index]
    and saves the file, and the second run, on that result, reports a
    change again and rewrites the file to import from [./a]. *)
Lemma second_optimization_changes_the_file_again :
  match ImportOptimization.optimizeImports Example.nestedIndexProject Example.allPasses with
  | Some (r1, fs1) =>
      match ImportOptimization.optimizeImports fs1 Example.allPasses with
      | Some (r2, fs2) =>
          ImportOptimization.optimized r1 = true
          ∧ ImportOptimization.optimized r2 = true
          ∧ ImportOptimization.changes r2 ≠ []
          ∧ statSync fs2 "/p/main.ts" ≠ statSync fs1 "/p/main.ts"
      | None => False
      end
  | None => False
  end.
Proof. vm_compute. repeat split; done. Qed.

(** C8, amended: the repair, run a second time on the file system the
    first run leaves, repairs no import and writes nothing, when every file
    the search finds exists, has a normalized path that does not lie above
    the directory of the repaired file, and has one of the repair's
    extensions after a plain name. The optimization with the index-path
    pass alone, run a second time on the file system the first run leaves,
    reports no change and writes nothing, when no relative specifier of the
    file ends with [/index/index]. *)
Theorem second_run_changes_nothing fs :
  (∀ search options r1 fs1,
     ImportPathRepair.dryRun options = false →
     searchFindsFiles fs search
       (path.resolve (cwd fs) [ImportPathRepair.optFilePath options]) →
     ImportPathRepair.repairImportPaths fs search options = Some (r1, fs1) →
     ∃ r2, ImportPathRepair.repairImportPaths fs1 search options = Some (r2, fs1)
           ∧ ImportPathRepair.totalImportsRepaired r2 = 0%nat
           ∧ Forall (λ r, ImportPathRepair.status r ≠ ImportPathRepair.repaired)
               (ImportPathRepair.repairedImports r2))
  ∧ (∀ options r1 fs1,
       ImportOptimization.removeUnused options = false →
       ImportOptimization.consolidateImports options = false →
       ImportOptimization.separateTypeImports options = false →
       (∀ text, statSync fs (ImportOptimization.optFilePath options) = Some (File text) →
                noNestedIndex text) →
       ImportOptimization.optimizeImports fs options = Some (r1, fs1) →
       ∃ r2, ImportOptimization.optimizeImports fs1 options = Some (r2, fs1)
             ∧ ImportOptimization.optimized r2 = false
             ∧ ImportOptimization.changes r2 = []).
Proof.
  split.
  - intros search options r1 fs1. apply repairImportPaths_again.
  - intros options r1 fs1. apply optimizeImports_index_again.
Qed.

(** The search of the math project finds two files that exist. *)
Lemma mathSearch_finds_files :
  searchFindsFiles Example.mathProject Example.mathSearch "/p/test-specific.ts".
Proof.
  intros pattern candidate Hin. cbn [ImportPathRepair.glob Example.mathSearch] in Hin.
  destruct (bool_decide (pattern = "**/math.ts")); [|by apply elem_of_nil in Hin].
  apply elem_of_cons in Hin as [->|Hin];
    [|apply elem_of_cons in Hin as [->|Hin]; [|by apply elem_of_nil in Hin]].
  - exists ["p"; "src"; "alternative"], "math.ts", ["p"], [], ["src"; "alternative"].
    split; [reflexivity|]. split; [by repeat constructor|].
    split; [by vm_compute|]. split; [reflexivity|]. split; [reflexivity|].
    by vm_compute.
  - exists ["p"; "src"; "utils"], "math.ts", ["p"], [], ["src"; "utils"].
    split; [reflexivity|]. split; [by repeat constructor|].
    split; [by vm_compute|]. split; [reflexivity|]. split; [reflexivity|].
    by vm_compute.
Qed.

Lemma second_run_changes_nothing_witness :
  (∃ r1 fs1 r2,
     ImportPathRepair.repairImportPaths Example.mathProject Example.mathSearch
       Example.repairOptions = Some (r1, fs1)
     ∧ ImportPathRepair.totalImportsRepaired r1 = 1%nat
     ∧ ImportPathRepair.repairImportPaths fs1 Example.mathSearch Example.repairOptions
       = Some (r2, fs1)
     ∧ ImportPathRepair.totalImportsRepaired r2 = 0%nat)
  ∧ (∃ r1 fs1 r2,
       ImportOptimization.optimizeImports Example.indexProject Example.indexPathsOnly
       = Some (r1, fs1)
       ∧ ImportOptimization.optimized r1 = true
       ∧ ImportOptimization.optimizeImports fs1 Example.indexPathsOnly = Some (r2, fs1)
       ∧ ImportOptimization.optimized r2 = false
       ∧ ImportOptimization.changes r2 = []).
Proof.
  split.
  - destruct (ImportPathRepair.repairImportPaths Example.mathProject Example.mathSearch
                Example.repairOptions) as [[r1 fs1]|] eqn:E; [|by vm_compute in E].
    destruct (second_run_changes_nothing Example.mathProject) as [Hrepair _].
    destruct (Hrepair Example.mathSearch Example.repairOptions r1 fs1 eq_refl
                mathSearch_finds_files E) as (r2 & H2 & H0 & _).
    exists r1, fs1, r2. split; [reflexivity|].
    split; [|split; [exact H2|exact H0]].
    assert (ImportPathRepair.totalImportsRepaired ∘ fst
                <$> ImportPathRepair.repairImportPaths Example.mathProject
                      Example.mathSearch Example.repairOptions = Some 1%nat) as H1
        by (vm_compute; reflexivity).
      rewrite E in H1. by injection H1.
  - destruct (ImportOptimization.optimizeImports Example.indexProject
                Example.indexPathsOnly) as [[r1 fs1]|] eqn:E; [|by vm_compute in E].
    destruct (second_run_changes_nothing Example.indexProject) as [_ Hoptimize].
    destruct (Hoptimize Example.indexPathsOnly r1 fs1 eq_refl eq_refl eq_refl)
      as (r2 & H2 & H0 & Hc); [|exact E|].
    + intros text Htext. vm_compute in Htext. injection Htext as <-.
      constructor; [|constructor]. intros _. reflexivity.
    + exists r1, fs1, r2. split; [reflexivity|].
      split; [|split; [exact H2|split; [exact H0|exact Hc]]].
      assert (ImportOptimization.optimized ∘ fst
                <$> ImportOptimization.optimizeImports Example.indexProject
                      Example.indexPathsOnly = Some true) as H1
        by (vm_compute; reflexivity).
      rewrite E in H1. by injection H1.
Defined.
(** * Further properties of the services *)

(** ** The reported cycles are cycles of the graph *)

Section dfs_sound.
Context (nodeMap : gmap string DependencyNode).

Lemma isWalk_suffix l1 l2 : isWalk nodeMap (l1 ++ l2) → isWalk nodeMap l2.
Proof.
  induction l1 as [|a l1 IH]; [done|]. intros H. apply IH.
  simpl in H. destruct (l1 ++ l2); [done|]. by destruct H.
Qed.

Lemma isWalk_snoc l a b :
  isWalk nodeMap (l ++ [a]) → importEdge nodeMap a b → isWalk nodeMap ((l ++ [a]) ++ [b]).
Proof.
  intros Hl Hab. induction l as [|x l IH]; [by split|].
  simpl in Hl |- *. destruct (l ++ [a]) as [|y r] eqn:E; [by destruct l|].
  destruct Hl as [Hxy Hr]. split; [done|]. by apply IH.
Qed.

Lemma indexOf_first pre x post :
  x ∉ pre → Js.indexOf (pre ++ x :: post) x = Z.of_nat (length pre).
Proof.
  induction pre as [|y pre IH]; intros Hx; simpl.
  - by rewrite bool_decide_eq_true_2.
  - rewrite bool_decide_eq_false_2 by set_solver.
    rewrite IH by set_solver. destruct (Z.ltb_spec (Z.of_nat (length pre)) 0); lia.
Qed.

Lemma slice_of_nat {A} (l : list A) n : Js.slice l (Z.of_nat n) = drop n l.
Proof.
  unfold Js.slice. destruct (Z.ltb_spec (Z.of_nat n) 0); [lia|]. by rewrite Nat2Z.id.
Qed.

(** The report made when [nodeId] is met on the recursion stack. *)
Lemma reportCycle_sound nodeId path st :
  nodeId ∈ recursionStack st → stackIs path st →
  isWalk nodeMap (path ++ [nodeId]) → reportsSound nodeMap st →
  reportsSound nodeMap (reportCycle nodeId path st).
Proof.
  intros Hin [Hstack Hnodup] Hwalk Hsound. unfold reportsSound, reportCycle. cbn [circularDeps].
  apply Forall_app. split; [done|]. constructor; [|done]. cbn [cycle].
  rewrite Hstack, elem_of_list_to_set in Hin.
  apply list_elem_of_split_l in Hin as (pre & post & -> & Hpre).
  rewrite indexOf_first, slice_of_nat, drop_app_length by done.
  exists nodeId, post. split; [done|]. split.
  - by apply NoDup_app in Hnodup as (_ & _ & ?).
  - rewrite <- app_assoc in Hwalk. by apply isWalk_suffix in Hwalk.
Qed.

Lemma stackIs_enter nodeId path st :
  nodeId ∉ recursionStack st → stackIs path st →
  stackIs (path ++ [nodeId]) (enter nodeId st).
Proof.
  intros Hnot [Hstack Hnodup]. split.
  - cbn [enter recursionStack]. rewrite Hstack, list_to_set_app_L. set_solver.
  - apply NoDup_app. split; [done|]. split; [|apply NoDup_singleton].
    intros x Hx ->%list_elem_of_singleton. apply Hnot. rewrite Hstack. set_solver.
Qed.

Lemma forEachImport_sound visit l path :
  (∀ i s s', i ∈ l → Js.startsWith i "." = true → visit i s = Some s' →
             stackIs path s → reportsSound nodeMap s →
             reportsSound nodeMap s' ∧ recursionStack s' = recursionStack s) →
  ∀ s s', forEachImport visit l s = Some s' →
          stackIs path s → reportsSound nodeMap s → reportsSound nodeMap s'.
Proof.
  induction l as [|i l IH]; intros Hvisit s s' H Hstack Hsound; simpl in H.
  - by injection H as <-.
  - destruct (Js.startsWith i ".") eqn:Hdot; cbn [negb] in H.
    + destruct (visit i s) as [s1|] eqn:E; [|done].
      destruct (Hvisit i s s1) as [Hs1 Hr]; try done; [by left|].
      apply (IH (λ j t t' Hj, Hvisit j t t' (list_elem_of_further _ _ _ Hj)) s1 s');
        [done| |done].
      destruct Hstack as [Hst Hnd]. split; [by rewrite Hr|done].
    + by apply (IH (λ j t t' Hj, Hvisit j t t' (list_elem_of_further _ _ _ Hj)) s s').
Qed.

Lemma dfs_sound fuel :
  ∀ nodeId path st st',
    dfs fuel nodeMap nodeId path st = Some st' →
    stackIs path st → isWalk nodeMap (path ++ [nodeId]) → reportsSound nodeMap st →
    reportsSound nodeMap st'.
Proof.
  induction fuel as [|fuel IH]; intros nodeId path st st' H Hstack Hwalk Hsound; [done|].
  simpl in H. case_bool_decide as Hin.
  { injection H as <-. by apply reportCycle_sound. }
  case_bool_decide as Hvis; [by injection H as <-|].
  destruct (nodeMap !! nodeId) as [node|] eqn:Hnode; simpl in H; [|by injection H as <-].
  destruct (forEachImport _ _ _) as [s1|] eqn:E; [|done]. injection H as <-.
  unfold reportsSound. cbn [leave circularDeps].
  apply (forEachImport_sound _ _ (path ++ [nodeId]) ) in E; try done.
  - intros i s s' Hi Hdot Hdfs Hs Hsnd. split.
    + apply (IH i (path ++ [nodeId]) s s'); try done.
      apply isWalk_snoc; [done|]. by exists node.
    + by apply dfs_has_effect in Hdfs as (_ & ? & _).
  - by apply stackIs_enter.
Qed.

Lemma dfsRoots_sound fuel nodes :
  ∀ st st', dfsRoots fuel nodeMap nodes st = Some st' →
            recursionStack st = ∅ → reportsSound nodeMap st → reportsSound nodeMap st'.
Proof.
  induction nodes as [|n nodes IH]; intros st st' H Hempty Hsound; simpl in H.
  - by injection H as <-.
  - case_bool_decide; [by apply (IH st)|].
    destruct (dfs fuel nodeMap (id n) [] st) as [s1|] eqn:E; [|done].
    apply (IH s1); [done| |].
    + apply dfs_has_effect in E as (_ & Hr & _). by rewrite Hr.
    + apply (dfs_sound fuel (id n) [] st s1); try done. split; [|constructor].
      by rewrite Hempty.
Qed.

End dfs_sound.

(** X1. The detector returns on every graph, cyclic or not, and every cycle
    it reports is a cycle of the graph: a walk along imports that start
    with a dot, from nodes of the map, that returns to its first entry and
    passes no entry twice before. *)
Theorem reported_cycles_are_closed_walks (nodes : list DependencyNode) :
  ∃ cycles, detectCircularDependencies nodes = Some cycles
            ∧ Forall (λ c, closedWalk (nodeMapOf nodes) (cycle c)) cycles.
Proof.
  destruct (detectCircularDependencies_total nodes) as (cycles & Hrun & _).
  exists cycles. split; [done|]. unfold detectCircularDependencies in Hrun.
  destruct (dfsRoots _ _ _ _) as [st|] eqn:E; [|done]. injection Hrun as <-.
  apply (dfsRoots_sound _ _ _ _ _ E); [done|]. by apply Forall_nil.
Qed.

(** ** Statistics and node names of the visualization *)

Lemma isWordChar_underscore : isWordChar "_" = true.
Proof. reflexivity. Qed.

(** X3. [sanitizeId] keeps the length of the id, leaves letters, digits and
    underscores where they are, and yields only such characters; applied
    twice it gives what it gives once. *)
Theorem sanitizeId_yields_word_characters (id : string) :
  String.length (sanitizeId id) = String.length id
  ∧ (∀ c, hasChar c (sanitizeId id) = true → isWordChar c = true)
  ∧ (∀ i c, String.get i id = Some c → isWordChar c = true →
            String.get i (sanitizeId id) = Some c)
  ∧ sanitizeId (sanitizeId id) = sanitizeId id.
Proof.
  induction id as [|a id (Hlen & Hchars & Hkeep & Hidem)]; [by repeat split|].
  cbn [sanitizeId]. repeat split.
  - cbn [String.length]. by rewrite Hlen.
  - intros c. cbn [hasChar]. intros [Hc|Hc]%orb_true_iff; [|by apply Hchars].
    apply bool_decide_eq_true_1 in Hc as <-. by destruct (isWordChar a) eqn:E.
  - intros [|i] c; cbn [String.get].
    + intros [= ->] ->. done.
    + apply Hkeep.
  - cbn [sanitizeId]. rewrite Hidem. f_equal.
    destruct (isWordChar a) eqn:E; [by rewrite E|done].
Qed.

Lemma foldl_max_start {A} (f : A → nat) (l : list A) : ∀ start,
  (start ≤ foldl (λ m x, Nat.max m (f x)) start l)%nat.
Proof.
  induction l as [|y l IH]; intros start; simpl; [done|].
  specialize (IH (Nat.max start (f y))). lia.
Qed.

Lemma foldl_max_ge {A} (f : A → nat) (l : list A) x : ∀ start,
  x ∈ l → (f x ≤ foldl (λ m x, Nat.max m (f x)) start l)%nat.
Proof.
  induction l as [|y l IH]; intros start Hx; [by apply elem_of_nil in Hx|]. simpl.
  apply elem_of_cons in Hx as [->|Hx]; [|by apply IH].
  pose proof (foldl_max_start f l (Nat.max start (f y))). lia.
Qed.

Lemma foldl_max_elem {A} (f : A → nat) (l : list A) : ∀ start,
  foldl (λ m x, Nat.max m (f x)) start l = start
  ∨ ∃ x, x ∈ l ∧ foldl (λ m x, Nat.max m (f x)) start l = f x.
Proof.
  induction l as [|y l IH]; intros start; simpl; [by left|].
  destruct (IH (Nat.max start (f y))) as [E|(x & Hx & E)].
  - rewrite E. destruct (Nat.max_spec start (f y)) as [[_ ->]|[_ ->]].
    + right. exists y. split; [by left|done].
    + by left.
  - right. exists x. split; [by right|done].
Qed.

Lemma buildDependencyGraph_nodes fs sourceFiles rootPath maxDepth node :
  node ∈ buildDependencyGraph fs sourceFiles rootPath maxDepth →
  ∃ sourceFile, sourceFile ∈ sourceFiles
    ∧ node = createDependencyNode fs sourceFile rootPath
    ∧ Js.exceeds (depthBelow fs rootPath (getFilePath sourceFile)) maxDepth = false.
Proof.
  induction sourceFiles as [|sf rest IH]; simpl; [by intros ?%elem_of_nil|].
  destruct (Js.exceeds _ maxDepth) eqn:Hdepth.
  - intros (sourceFile & ? & ? & ?)%IH. exists sourceFile. split; [by right|done].
  - intros [->|Hin]%elem_of_cons.
    + exists sf. split; [by left|]. by split.
    + destruct (IH Hin) as (sourceFile & ? & ? & ?).
      exists sourceFile. split; [by right|done].
Qed.

Lemma depthBelow_positive fs rootPath filePath : (1 ≤ depthBelow fs rootPath filePath)%nat.
Proof.
  unfold depthBelow. pose proof (split_nonempty "/"%char (path.relative (cwd fs) rootPath filePath)).
  destruct (Js.split _ _); [done|]. simpl. lia.
Qed.

Lemma exceeds_finite n q : Js.exceeds n (Js.finite q) = false ↔ (inject_Z (Z.of_nat n) <= q)%Q.
Proof. unfold Js.exceeds. rewrite negb_false_iff. apply Qle_bool_iff. Qed.

(** X2. No node of a visualization lies deeper below the root than
    [maxDepth] allows: for its depth, the test [depth > maxDepth] is
    false. The reported maximal depth is the depth of the deepest node, and
    0 when there is none; so it does not exceed a [maxDepth] that is not
    negative. The depth of a file counts its name: with a [maxDepth] below
    1 no file is kept and the reported depth is 0, which lies above a
    negative [maxDepth]. The files counted are nodes of source files of
    the project, and no cycle is counted when the detection is off. *)
Theorem statistics_stay_within_maxDepth
    fs sourceFiles rootPath maxDepth detectCircular :
  ∃ nodes cycles statistics,
    visualizeDependencies fs sourceFiles rootPath maxDepth detectCircular
    = Some (nodes, cycles, statistics)
    ∧ (∀ node, node ∈ nodes →
         Js.exceeds (depthBelow fs rootPath (filePath node)) maxDepth = false
         ∧ (1 ≤ depthBelow fs rootPath (filePath node) ≤ statMaxDepth statistics)%nat)
    ∧ (statMaxDepth statistics = 0%nat
       ∨ ∃ node, node ∈ nodes
           ∧ statMaxDepth statistics = depthBelow fs rootPath (filePath node))
    ∧ (∀ q, maxDepth = Js.finite q → (0 <= q)%Q →
         (inject_Z (Z.of_nat (statMaxDepth statistics)) <= q)%Q)
    ∧ (∀ q, maxDepth = Js.finite q → (q < 1)%Q →
         nodes = [] ∧ statMaxDepth statistics = 0%nat)
    ∧ totalFiles statistics = length nodes
    ∧ (totalFiles statistics ≤ length sourceFiles)%nat
    ∧ circularCount statistics = length cycles
    ∧ (detectCircular = false → cycles = []).
Proof.
  unfold visualizeDependencies.
  set (nodes := buildDependencyGraph fs sourceFiles rootPath maxDepth).
  assert (∃ cycles, (if detectCircular then detectCircularDependencies nodes else Some [])
                    = Some cycles ∧ (detectCircular = false → cycles = []))
    as (cycles & -> & Hoff).
  { destruct detectCircular.
    - destruct (detectCircularDependencies_total nodes) as (cycles & -> & _).
      by exists cycles.
    - by exists []. }
  exists nodes, cycles, (statisticsOf fs nodes cycles rootPath).
  split; [done|]. cbn [statisticsOf statMaxDepth totalFiles circularCount].
  assert (length (filter (λ _ : DependencyNode, True) nodes) = length nodes) as Hfiles.
  { clear. induction nodes as [|n nodes IH]; [done|].
    rewrite filter_cons_True by done. cbn [length]. by rewrite IH. }
  assert (∀ node, node ∈ nodes →
            Js.exceeds (depthBelow fs rootPath (filePath node)) maxDepth = false)
    as Hwithin.
  { intros node (sf & _ & -> & Hdepth)%buildDependencyGraph_nodes. done. }
  assert (calculateMaxDepth fs nodes rootPath = 0%nat
          ∨ ∃ node, node ∈ nodes
              ∧ calculateMaxDepth fs nodes rootPath = depthBelow fs rootPath (filePath node))
    as Hmax.
  { unfold calculateMaxDepth.
    apply (foldl_max_elem (λ n, depthBelow fs rootPath (filePath n))). }
  split; [|split; [done|split; [|split; [|split; [done|split; [|done]]]]]].
  - intros node Hnode. split; [by apply Hwithin|]. split; [apply depthBelow_positive|].
    unfold calculateMaxDepth.
    by apply (foldl_max_ge (λ n, depthBelow fs rootPath (filePath n))).
  - intros q -> Hq. destruct Hmax as [->|(node & Hnode & ->)]; [done|].
    by apply exceeds_finite, Hwithin.
  - intros q -> Hq.
    assert (nodes = []) as Hnone.
    { destruct nodes as [|node rest] eqn:E; [done|]. exfalso.
      assert (node ∈ node :: rest) as Hnode by (by left).
      apply Hwithin, exceeds_finite in Hnode.
      pose proof (depthBelow_positive fs rootPath (filePath node)) as Hpos.
      assert (1 <= inject_Z (Z.of_nat (depthBelow fs rootPath (filePath node))))%Q as H1.
      { change 1%Q with (inject_Z 1). rewrite <- Zle_Qle. lia. }
      lra. }
    by rewrite Hnone.
  - rewrite Hfiles. subst nodes. clear.
    induction sourceFiles as [|sf rest IH]; simpl; [done|].
    destruct (Js.exceeds _ maxDepth); cbn [length]; lia.
Qed.

(** ** The reference scanner of check-deletable *)

Section deletable.
Import Deletable.

Lemma omap_sublist {A B} (f g : A → option B) l :
  (∀ x, f x = None ∨ f x = g x) → omap f l `sublist_of` omap g l.
Proof.
  intros H. induction l as [|x l IH]; [done|]. simpl.
  destruct (H x) as [->| ->].
  - destruct (g x); [by apply sublist_cons|done].
  - destruct (g x); [by apply sublist_skip|done].
Qed.

Lemma concat_sublist {A} (l1 l2 : list (list A)) :
  Forall2 sublist l1 l2 → concat l1 `sublist_of` concat l2.
Proof. induction 1; [done|]. simpl. by apply sublist_app. Qed.

Lemma findDirectImportReferences_sublist fs sourceFile variations :
  findDirectImportReferences fs sourceFile variations false
  `sublist_of` findDirectImportReferences fs sourceFile variations true.
Proof.
  apply omap_sublist. intros d. cbn [negb andb].
  destruct (isTypeOnly d); [by left|by right].
Qed.

Lemma findAllReferences_sublist fs targetFile project :
  findAllReferences fs targetFile project false
  `sublist_of` findAllReferences fs targetFile project true.
Proof.
  unfold findAllReferences. apply concat_sublist.
  induction project as [|sf project IH]; [constructor|]. rewrite !fmap_cons.
  constructor; [|done]. case_bool_decide; [done|].
  apply sublist_app; [apply findDirectImportReferences_sublist|done].
Qed.

End deletable.

(** X4. Leaving the type-only imports out can only remove references: the
    references found without them are among those found with them, in the
    same order; none of them is a type-only import; and a file that is
    deletable when type-only imports count is deletable when they do not. *)
Theorem type_only_imports_only_add_references fs targetFile project :
  Deletable.findAllReferences fs targetFile project false
    `sublist_of` Deletable.findAllReferences fs targetFile project true
  ∧ Forall (λ r, Deletable.type r = Deletable.import → Deletable.refIsTypeOnly r = false)
      (Deletable.findAllReferences fs targetFile project false)
  ∧ (Deletable.isDeletable (Deletable.findAllReferences fs targetFile project true) = true →
     Deletable.isDeletable (Deletable.findAllReferences fs targetFile project false) = true).
Proof.
  pose proof (findAllReferences_sublist fs targetFile project) as Hsub.
  split; [done|]. split.
  - unfold Deletable.findAllReferences. apply Forall_forall. intros r Hr.
    apply list_elem_of_In, in_concat in Hr as (l & Hl & Hr).
    apply list_elem_of_In, list_elem_of_fmap in Hl as (sf & -> & _).
    apply list_elem_of_In in Hr. case_bool_decide; [by apply elem_of_nil in Hr|].
    apply elem_of_app in Hr as [Hr|Hr].
    + unfold Deletable.findDirectImportReferences in Hr.
      apply list_elem_of_omap in Hr as (d & _ & Hd). cbn [negb andb] in Hd.
      destruct (isTypeOnly d) eqn:E; [done|].
      destruct (_ && _); [|done]. by injection Hd as <-.
    + apply elem_of_app in Hr as [Hr|Hr].
      * unfold Deletable.findWildcardExportReferences in Hr.
        apply list_elem_of_omap in Hr as (e & _ & He).
        destruct (exportSpecifier e); [|done]. destruct (_ && _); [|done].
        by injection He as <-.
      * unfold Deletable.findDynamicImportReferences in Hr.
        apply list_elem_of_omap in Hr as (m & _ & Hm).
        destruct (_ && _); [|done]. by injection Hm as <-.
  - unfold Deletable.isDeletable. intros Htrue%bool_decide_eq_true_1.
    apply bool_decide_eq_true_2. apply sublist_length in Hsub. lia.
Qed.

Section deletable_references.
Import Deletable.

Lemma reference_of_import fs targetFile project includeTypes sourceFile importDecl p :
  sourceFile ∈ project →
  getFilePath sourceFile ≠ getFilePath targetFile →
  importDecl ∈ importDeclarations (getText sourceFile) →
  Js.startsWith (moduleSpecifier importDecl) "." = true →
  includeTypes = true ∨ isTypeOnly importDecl = false →
  CheckDeletable.resolveModulePath fs sourceFile (moduleSpecifier importDecl) = Some p →
  p ≠ "" →
  p ∈ CheckDeletable.getPathVariations (getFilePath targetFile) →
  {| file := getFilePath sourceFile; type := import;
     importedNames := importedNamesOf importDecl;
     refIsTypeOnly := isTypeOnly importDecl |}
  ∈ findAllReferences fs targetFile project includeTypes.
Proof.
  intros Hin Hother Hdecl Hdot Htypes Hres Hp Hvar. unfold findAllReferences.
  apply list_elem_of_In, in_concat. eexists. split.
  { apply list_elem_of_In, list_elem_of_fmap. by exists sourceFile. }
  apply list_elem_of_In. rewrite bool_decide_eq_false_2 by done.
  apply elem_of_app. left. unfold findDirectImportReferences.
  apply list_elem_of_omap. exists importDecl. split; [done|].
  assert (negb includeTypes && isTypeOnly importDecl = false) as ->.
  { destruct Htypes as [-> | ->]; [done|apply andb_false_r]. }
  rewrite Hdot, Hres. unfold hits, targetPathVariationsOf.
  rewrite bool_decide_eq_false_2 by done.
  rewrite bool_decide_eq_true_2; [done|]. apply elem_of_app. by left.
Qed.

End deletable_references.

(** X5. An import of a directory counts as a reference to the index file of
    that directory: when a file of the project other than the target
    imports, through a relative specifier, a path that resolves to the
    existing directory of the target [index.*], the target is not
    deletable. *)
Theorem directory_import_refers_to_index_file
    fs targetFile project includeTypes sourceFile importDecl dsegs ext :
  getFilePath targetFile = pathOf (dsegs ++ ["index" +:+ ext]) →
  Forall (λ s, plain s = true) dsegs →
  plain ("index" +:+ ext) = true →
  Js.startsWith ext "." = true →
  sourceFile ∈ project →
  getFilePath sourceFile ≠ getFilePath targetFile →
  importDecl ∈ importDeclarations (getText sourceFile) →
  Js.startsWith (moduleSpecifier importDecl) "." = true →
  includeTypes = true ∨ isTypeOnly importDecl = false →
  path.resolve (cwd fs) [path.dirname (getFilePath sourceFile); moduleSpecifier importDecl]
  = pathOf dsegs →
  existsSync fs (pathOf dsegs) = true →
  default (pathOf dsegs) (realpath fs (pathOf dsegs)) = pathOf dsegs →
  Deletable.isDeletable (Deletable.findAllReferences fs targetFile project includeTypes)
  = false.
Proof.
  intros Htarget Hplain Hindex Hext Hin Hother Hdecl Hdot Htypes Hres Hex Hreal.
  pose proof (reference_of_import fs targetFile project includeTypes sourceFile importDecl
                (pathOf dsegs) Hin Hother Hdecl Hdot Htypes) as Href.
  unfold Deletable.isDeletable. apply bool_decide_eq_false_2. intros Hlen.
  destruct (Deletable.findAllReferences fs targetFile project includeTypes);
    [|done]. eapply elem_of_nil, Href; clear Href.
  - unfold CheckDeletable.resolveModulePath, CheckDeletable.possiblePaths.
    rewrite Hres. cbn [firstHit]. by rewrite Hex, Hreal.
  - done.
  - rewrite Htarget. unfold CheckDeletable.getPathVariations.
    rewrite basename_pathOf, dirname_pathOf by done.
    assert (Js.startsWith ("index" +:+ ext) "index." = true) as ->.
    { destruct ext as [|c ext]; [done|]. rewrite startsWith_cons in Hext.
      apply bool_decide_eq_true_1 in Hext as ->.
      change ("index" +:+ String "." ext) with ("index." +:+ ext).
      apply startsWith_app. }
    set_solver.
Qed.

Lemma directory_import_refers_to_index_file_witness :
  Deletable.isDeletable
    (Deletable.findAllReferences Example.styleProject Example2.utilsIndex
       [Example2.utilsImporter; Example2.utilsIndex] true) = false.
Proof.
  apply (directory_import_refers_to_index_file Example.styleProject Example2.utilsIndex
           [Example2.utilsImporter; Example2.utilsIndex] true Example2.utilsImporter
           (Example.namedImport "./utils" ["x"]) ["p"; "utils"] ".ts").
  - reflexivity.
  - by repeat constructor.
  - reflexivity.
  - reflexivity.
  - by left.
  - done.
  - by left.
  - reflexivity.
  - by left.
  - reflexivity.
  - reflexivity.
  - reflexivity.
Defined.

(** X6. No reference is located in the target itself: every reference lies in
    a file of the project with another path. A file that only imports
    itself is deletable. *)
Theorem references_lie_in_other_files fs targetFile project includeTypes :
  Forall (λ r, Deletable.file r ≠ getFilePath targetFile
               ∧ ∃ sourceFile, sourceFile ∈ project
                               ∧ Deletable.file r = getFilePath sourceFile)
    (Deletable.findAllReferences fs targetFile project includeTypes)
  ∧ Deletable.isDeletable
      (Deletable.findAllReferences fs targetFile [targetFile] includeTypes) = true.
Proof.
  split.
  - apply Forall_forall. intros r Hr. unfold Deletable.findAllReferences in Hr.
    apply list_elem_of_In, in_concat in Hr as (l & Hl & Hr).
    apply list_elem_of_In, list_elem_of_fmap in Hl as (sf & -> & Hsf).
    apply list_elem_of_In in Hr. case_bool_decide as Hpath; [by apply elem_of_nil in Hr|].
    assert (Deletable.file r = getFilePath sf) as Hfile.
    { apply elem_of_app in Hr as [Hr|Hr]; [|apply elem_of_app in Hr as [Hr|Hr]].
      - apply list_elem_of_omap in Hr as (d & _ & Hd).
        destruct (_ && _); [done|]. destruct (_ && _); [|done]. by injection Hd as <-.
      - apply list_elem_of_omap in Hr as (e & _ & He).
        destruct (exportSpecifier e); [|done]. destruct (_ && _); [|done].
        by injection He as <-.
      - apply list_elem_of_omap in Hr as (m & _ & Hm).
        destruct (_ && _); [|done]. by injection Hm as <-. }
    rewrite Hfile. split; [done|]. by exists sf.
  - unfold Deletable.findAllReferences. cbn [fmap list_fmap concat].
    by rewrite bool_decide_eq_true_2.
Qed.

(** ** The similarity of two names *)

(** X7. The similarity of two names does not depend on their order and is
    never negative. When lower-casing keeps the length of one of the names
    it is at most 1, and when it keeps the lengths of both and the
    lower-cased names have the same characters, in whatever order, it is
    1: names that differ in case only, and anagrams, count as equal. *)
Theorem similarity_ignores_order_and_case
    (toLowerCase : string → string) (str1 str2 : string) :
  (ImportPathRepair.calculateSimilarity toLowerCase str1 str2
   == ImportPathRepair.calculateSimilarity toLowerCase str2 str1)%Q
  ∧ (0 <= ImportPathRepair.calculateSimilarity toLowerCase str1 str2)%Q
  ∧ (String.length (toLowerCase str1) = String.length str1 →
     (ImportPathRepair.calculateSimilarity toLowerCase str1 str2 <= 1)%Q)
  ∧ (String.length (toLowerCase str1) = String.length str1 →
     String.length (toLowerCase str2) = String.length str2 →
     ImportPathRepair.chars (toLowerCase str1)
       ≡ₚ ImportPathRepair.chars (toLowerCase str2) →
     (ImportPathRepair.calculateSimilarity toLowerCase str1 str2 == 1)%Q).
Proof.
  unfold ImportPathRepair.calculateSimilarity.
  set (l1 := ImportPathRepair.chars (toLowerCase str1)).
  set (l2 := ImportPathRepair.chars (toLowerCase str2)).
  assert (length l1 = String.length (toLowerCase str1)) as Hl1 by apply length_chars.
  assert (length l2 = String.length (toLowerCase str2)) as Hl2 by apply length_chars.
  destruct (countCommon_bound l1 l2) as [Hb1 Hb2].
  rewrite (countCommon_comm l2 l1), (Nat.max_comm (String.length str2)).
  destruct (decide (String.length str1 = 0%nat)) as [E1|E1],
           (decide (String.length str2 = 0%nat)) as [E2|E2].
  - rewrite !(bool_decide_eq_true_2 _ E1), !(bool_decide_eq_true_2 _ E2). simpl.
    split; [done|]. split; [by compute|]. split; [by compute|done].
  - rewrite !(bool_decide_eq_true_2 _ E1), !(bool_decide_eq_false_2 _ E2). simpl.
    split; [done|]. split; [by compute|]. split; [by compute|].
    intros H1 H2 Hperm%Permutation_length. lia.
  - rewrite !(bool_decide_eq_false_2 _ E1), !(bool_decide_eq_true_2 _ E2). simpl.
    split; [done|]. split; [by compute|]. split; [by compute|].
    intros H1 H2 Hperm%Permutation_length. lia.
  - rewrite !(bool_decide_eq_false_2 _ E1), !(bool_decide_eq_false_2 _ E2). simpl.
    destruct (decide (str1 = str2)) as [Heq|Heq].
    + rewrite !bool_decide_eq_true_2 by done.
      split; [done|]. split; [by compute|]. split; [by compute|done].
    + rewrite !bool_decide_eq_false_2 by done.
      split; [done|]. split; [unfold Qle; simpl; lia|]. split.
      * intros H1. unfold Qle. simpl. lia.
      * intros H1 H2 Hperm. rewrite (countCommon_permutation _ _ Hperm).
        apply Permutation_length in Hperm. unfold Qeq. simpl. lia.
Qed.

Lemma similarity_ignores_order_and_case_witness :
  (ImportPathRepair.calculateSimilarity Example.lowerAscii "Ab" "ba" == 1)%Q
  ∧ (ImportPathRepair.calculateSimilarity Example.lowerAscii "Ab" "xyz" <= 1)%Q.
Proof.
  destruct (similarity_ignores_order_and_case Example.lowerAscii "Ab" "ba")
    as (_ & _ & _ & Hsame).
  destruct (similarity_ignores_order_and_case Example.lowerAscii "Ab" "xyz")
    as (_ & _ & Hbound & _).
  split.
  - apply Hsame; [reflexivity|reflexivity|apply perm_swap].
  - apply Hbound. reflexivity.
Defined.

(** ** The distance of two directories *)

Section distance_facts.
Import ImportPathRepair.

Lemma filter_Forall_id {A} (P : A → Prop) `{∀ x, Decision (P x)} (l : list A) :
  Forall P l → filter P l = l.
Proof.
  induction 1 as [|x l Hx _ IH]; [done|]. by rewrite filter_cons_True, IH.
Qed.

Lemma foldl_steps_up n : ∀ count,
  foldl (λ count part, if bool_decide (part = "..") then count + 2 else count + 1)%nat
        count (replicate n "..") = (count + 2 * n)%nat.
Proof.
  induction n as [|n IH]; intros count; simpl; [lia|]. rewrite IH. lia.
Qed.

Lemma foldl_steps_down down : ∀ count,
  Forall (λ s, plain s = true) down →
  foldl (λ count part, if bool_decide (part = "..") then count + 2 else count + 1)%nat
        count down = (count + length down)%nat.
Proof.
  induction down as [|s down IH]; intros count Hplain; simpl; [lia|].
  inversion Hplain as [|? ? Hs Hdown]; subst.
  apply plain_inv in Hs as (_ & _ & Hs & _).
  rewrite bool_decide_eq_false_2 by done. rewrite IH by done. lia.
Qed.

(** X8. The distance between two directories counts two for every step up
    from the first to their common ancestor and one for every step down to
    the second. The distance of a directory to itself is not 0 but 1, as
    for a directory directly below it. *)
Theorem directory_distance_counts_steps fs dir1 target common up down :
  Forall (λ s, plain s = true) target →
  commonAncestor (cwd fs) dir1 target common up down →
  calculateDirectoryDistance fs dir1 (pathOf target)
  = match up ++ down with
    | [] => 1%nat
    | _ => (2 * length up + length down)%nat
    end.
Proof.
  intros Hplain Hanc.
  destruct (commonAncestor_plain _ _ _ _ _ _ Hplain Hanc) as [_ Hdown].
  unfold calculateDirectoryDistance.
  rewrite (relative_to_pathOf _ _ _ common up down) by done.
  destruct (decide (up ++ down = [])) as [E|E].
  { rewrite E. apply app_eq_nil in E as [-> ->]. done. }
  assert (replicate (length up) ".." ++ down ≠ []) as Hne.
  { destruct up; [by destruct down|done]. }
  rewrite split_join; [|done|].
  2:{ apply Forall_app. split; [|by apply Forall_plain_no_slash].
      eapply Forall_impl; [apply dotdot_plain_facts|]. by intros s [_ ?]. }
  rewrite filter_Forall_id.
  2:{ apply Forall_app. split.
      - apply Forall_forall. by intros s [-> _]%elem_of_replicate.
      - eapply Forall_impl; [exact Hdown|]. intros s Hs. by apply plain_inv in Hs as (_ & ? & _). }
  rewrite foldl_app, foldl_steps_up, foldl_steps_down by done.
  destruct (up ++ down); [done|]. lia.
Qed.

End distance_facts.

Lemma directory_distance_counts_steps_witness :
  ImportPathRepair.calculateDirectoryDistance Example.mathProject "/p/src/utils" "/p/src"
  = 2%nat
  ∧ ImportPathRepair.calculateDirectoryDistance Example.mathProject "/p/src" "/p/src"
    = 1%nat
  ∧ ImportPathRepair.calculateDirectoryDistance Example.mathProject "/p/src" "/p/src/utils"
    = 1%nat.
Proof.
  split; [|split].
  - apply (directory_distance_counts_steps Example.mathProject "/p/src/utils"
             ["p"; "src"] ["p"; "src"] ["utils"] []);
      [by repeat constructor|by vm_compute].
  - apply (directory_distance_counts_steps Example.mathProject "/p/src"
             ["p"; "src"] ["p"; "src"] [] []);
      [by repeat constructor|by vm_compute].
  - apply (directory_distance_counts_steps Example.mathProject "/p/src"
             ["p"; "src"; "utils"] ["p"; "src"] [] ["utils"]);
      [by repeat constructor|by vm_compute].
Defined.

(** ** The search and the report of the repair *)

Section repair_report.
Import ImportPathRepair.

Lemma unique_NoDup l : ∀ seen,
  NoDup (unique seen l) ∧ ∀ x, x ∈ unique seen l → x ∉ seen.
Proof.
  induction l as [|y l IH]; intros seen; simpl; [split; [constructor|by intros ? ?%elem_of_nil]|].
  case_bool_decide as Hy; [apply IH|].
  destruct (IH ({[y]} ∪ seen)) as [Hnd Hnot]. split.
  - constructor; [|done]. intros Hin. apply Hnot in Hin. set_solver.
  - intros x [->|Hx]%elem_of_cons; [done|]. apply Hnot in Hx. set_solver.
Qed.

Lemma omap_paths_sublist (f : string → option FileMatch) l :
  (∀ p c, f p = Some c → fmPath c = p) → fmPath <$> omap f l `sublist_of` l.
Proof.
  intros Hf. induction l as [|p l IH]; [done|]. simpl.
  destruct (f p) as [c|] eqn:E; [|by apply sublist_cons].
  rewrite fmap_cons, (Hf p c E). by apply sublist_skip.
Qed.

(** X9. [findFilesByName] lists every file once, also when several of the
    nine patterns match it; each candidate was found by one of the
    patterns, could be added to the project, and starts with distance 0. *)
Theorem findFilesByName_lists_each_file_once search fileName :
  NoDup (fmPath <$> findFilesByName search fileName)
  ∧ Forall (λ c, (∃ pattern, pattern ∈ patterns fileName ∧ fmPath c ∈ glob search pattern)
                 ∧ is_Some (fileExports search (fmPath c))
                 ∧ distance c = 0%nat)
      (findFilesByName search fileName).
Proof.
  split.
  - unfold findFilesByName.
    apply (sublist_NoDup _ (unique ∅ (concat (glob search <$> patterns fileName))));
      [apply unique_NoDup|].
    apply omap_paths_sublist. intros p c H.
    destruct (fileExports search p) as [[? ?]|]; [|done]. by injection H as <-.
  - apply Forall_forall. intros c Hc. unfold findFilesByName in Hc.
    apply list_elem_of_omap in Hc as (p & Hp & Hc).
    apply unique_elem, list_elem_of_In, in_concat in Hp as (l & Hl & Hp).
    apply list_elem_of_In, list_elem_of_fmap in Hl as (pattern & -> & Hpattern).
    apply list_elem_of_In in Hp.
    destruct (fileExports search p) as [[ex hd]|] eqn:E; [|done]. injection Hc as <-.
    cbn [fmPath distance]. split; [by exists pattern|]. by rewrite E.
Qed.

Lemma originalPath_repairSingleImport fs search sourceFile importDecl :
  originalPath (repairSingleImport fs search sourceFile importDecl)
  = moduleSpecifier importDecl.
Proof.
  unfold repairSingleImport.
  repeat match goal with
         | |- context [if ?b then _ else _] => destruct b
         | |- context [match ?x with _ => _ end] => destruct x
         end; reflexivity.
Qed.

Lemma countsAsRepaired_isRepaired fs search sourceFile importDecl :
  isRepaired (repairSingleImport fs search sourceFile importDecl)
  = bool_decide (is_Some (countsAsRepaired
                            (repairSingleImport fs search sourceFile importDecl))).
Proof.
  destruct (countsAsRepaired (repairSingleImport fs search sourceFile importDecl))
    as [p|] eqn:E.
  - rewrite bool_decide_eq_true_2 by done. unfold countsAsRepaired in E.
    unfold isRepaired. by destruct (status _).
  - rewrite bool_decide_eq_false_2 by (by intros [? ?]).
    apply countsAsRepaired_None_status in E. unfold isRepaired. by destruct (status _).
Qed.

Lemma external_already_valid fs search sourceFile importDecl :
  isExternal (moduleSpecifier importDecl) = true →
  status (repairSingleImport fs search sourceFile importDecl) = already_valid
  ∧ snd (repairDeclaration fs search sourceFile false importDecl) = importDecl.
Proof.
  unfold isExternal. intros H. unfold repairDeclaration, repairSingleImport. by rewrite H.
Qed.

(** X10. The report of the repair accounts for every import declaration of the
    file, in order; the number of repairs is the number of entries with the
    status [repaired]; an import of a package is reported as already valid
    and its declaration is left as it is. *)
Theorem report_accounts_for_every_import fs search options text r fs' :
  statSync fs (optFilePath options) = Some (File text) →
  repairImportPaths fs search options = Some (r, fs') →
  originalPath <$> repairedImports r = moduleSpecifier <$> importDeclarations text
  ∧ totalImportsChecked r = length (repairedImports r)
  ∧ totalImportsRepaired r = length (filter (λ x, isRepaired x = true) (repairedImports r))
  ∧ (totalImportsRepaired r ≤ totalImportsChecked r)%nat
  ∧ Forall (λ x, isExternal (originalPath x) = true → status x = already_valid)
      (repairedImports r).
Proof.
  intros Hstat Hrun. unfold repairImportPaths in Hrun. rewrite Hstat in Hrun.
  injection Hrun as <- _.
  cbn [repairedImports totalImportsChecked totalImportsRepaired].
  set (sourceFile := {| getFilePath := _; getText := text |}).
  assert (fst <$> (repairDeclaration fs search sourceFile (dryRun options)
                     <$> importDeclarations text)
          = repairSingleImport fs search sourceFile <$> importDeclarations text) as ->.
  { rewrite <- list_fmap_compose. apply list_fmap_ext. intros i d _. cbn [compose].
    apply fst_repairDeclaration. }
  assert (length (omap countsAsRepaired
                    (repairSingleImport fs search sourceFile <$> importDeclarations text))
          = length (filter (λ x, isRepaired x = true)
                      (repairSingleImport fs search sourceFile <$> importDeclarations text)))
    as Hcount.
  { induction (importDeclarations text) as [|d l IH]; [done|]. rewrite fmap_cons.
    cbn [omap list_omap]. rewrite filter_cons, countsAsRepaired_isRepaired.
    destruct (countsAsRepaired (repairSingleImport fs search sourceFile d)) as [p|].
    - rewrite bool_decide_eq_true_2 by done. rewrite decide_True by done.
      cbn [length]. by f_equal.
    - rewrite bool_decide_eq_false_2 by (by intros [? ?]). by rewrite decide_False. }
  split; [|split; [by rewrite length_fmap|split; [done|split]]].
  - rewrite <- list_fmap_compose. apply list_fmap_ext. intros i d _.
    apply originalPath_repairSingleImport.
  - rewrite Hcount. etrans; [apply length_filter|]. by rewrite length_fmap.
  - apply Forall_fmap, Forall_forall. intros d _. cbn [compose].
    rewrite originalPath_repairSingleImport. intros Hext.
    by apply external_already_valid.
Qed.

Lemma report_accounts_for_every_import_witness :
  ∃ r fs',
    repairImportPaths Example.mathProject Example.mathSearch Example.repairOptions
    = Some (r, fs')
    ∧ originalPath <$> repairedImports r = ["./wrong/path/math"]
    ∧ totalImportsRepaired r = 1%nat.
Proof.
  destruct (repairImportPaths Example.mathProject Example.mathSearch Example.repairOptions)
    as [[r fs']|] eqn:E; [|by vm_compute in E].
  destruct (report_accounts_for_every_import Example.mathProject Example.mathSearch
              Example.repairOptions Example.brokenText r fs' eq_refl E)
    as (Hpaths & _ & Hrepaired & _).
  exists r, fs'. split; [done|]. split; [exact Hpaths|].
  assert (totalImportsRepaired ∘ fst
            <$> repairImportPaths Example.mathProject Example.mathSearch
                  Example.repairOptions = Some 1%nat) as H1 by (vm_compute; reflexivity).
  rewrite E in H1. by injection H1.
Defined.

(** X11. A dry run reports what a real run reports and writes nothing. *)
Theorem dry_run_reports_the_same_and_writes_nothing fs search filePath :
  fst <$> repairImportPaths fs search {| optFilePath := filePath; dryRun := true |}
  = fst <$> repairImportPaths fs search {| optFilePath := filePath; dryRun := false |}
  ∧ snd <$> repairImportPaths fs search {| optFilePath := filePath; dryRun := true |}
    = (λ _, fs) <$> repairImportPaths fs search {| optFilePath := filePath; dryRun := true |}.
Proof.
  unfold repairImportPaths. cbn [optFilePath dryRun].
  destruct (statSync fs filePath) as [[text|]|]; [|done|done].
  cbn [negb andb fmap option_fmap option_map fst snd]. split; [|done].
  set (sourceFile := {| getFilePath := _; getText := text |}).
  assert (∀ dry, fst <$> (repairDeclaration fs search sourceFile dry
                            <$> importDeclarations text)
                 = repairSingleImport fs search sourceFile <$> importDeclarations text)
    as Hfst.
  { intros dry. rewrite <- list_fmap_compose. apply list_fmap_ext. intros i d _.
    apply fst_repairDeclaration. }
  by rewrite !Hfst.
Qed.

End repair_report.

(** ** The rename and its import update *)

Section rename_facts.
Import FileRename.

Lemma saveProject_untouched fs (project : list SourceFile) :
  saveProject fs ((λ sourceFile, (sourceFile, [])) <$> project) = fs.
Proof.
  induction project as [|sf project IH]; [done|]. rewrite fmap_cons. cbn [saveProject].
  by rewrite bool_decide_eq_false_2 by (by intros H; apply H).
Qed.

Lemma no_file_updated (project : list SourceFile) :
  getFilePath ∘ fst
    <$> filter (λ u : SourceFile * list AffectedImport, snd u ≠ [])
          ((λ sourceFile, (sourceFile, [])) <$> project) = [].
Proof.
  induction project as [|sf l IH]; [done|]. rewrite fmap_cons.
  rewrite filter_cons_False; [done|]. cbn [snd]. by intros H.
Qed.

Lemma no_import_affected (project : list SourceFile) :
  concat (snd <$> ((λ sourceFile, (sourceFile, @nil AffectedImport)) <$> project)) = [].
Proof. induction project as [|sf l IH]; [done|]. by rewrite !fmap_cons. Qed.

(** *** The walk along a normalized path *)

Lemma searchable_None fs dir :
  Fs.searchable fs dir = None ↔ Fs.lookup fs (reverse dir) = Some Directory.
Proof.
  unfold Fs.searchable. by destruct (Fs.lookup fs (reverse dir)) as [[|]|].
Qed.

Lemma step_plain dir c : plain c = true → Fs.step dir c = c :: dir.
Proof.
  intros (H1 & H2 & H3 & _)%plain_inv. unfold Fs.step.
  by rewrite !bool_decide_eq_false_2.
Qed.

Lemma walk_plain_inr fs segs : ∀ pre d,
  Forall (λ s, plain s = true) segs →
  Fs.walk fs (reverse pre) segs = inr d →
  d = reverse (pre ++ segs)
  ∧ ∀ i, (i < length segs)%nat → Fs.lookup fs (pre ++ take i segs) = Some Directory.
Proof.
  induction segs as [|c segs IH]; intros pre d Hplain Hwalk.
  - injection Hwalk as <-. rewrite app_nil_r. split; [done|]. simpl. lia.
  - inversion Hplain as [|? ? Hc Hsegs]; subst. cbn [Fs.walk] in Hwalk.
    destruct (Fs.searchable fs (reverse pre)) eqn:Es; [done|].
    apply searchable_None in Es. rewrite reverse_involutive in Es.
    rewrite step_plain, <- reverse_snoc in Hwalk by done.
    destruct (IH (pre ++ [c]) d Hsegs Hwalk) as [-> Hdirs].
    rewrite <- app_assoc. split; [done|]. intros [|i] Hi.
    + by rewrite take_0, app_nil_r.
    + cbn [take]. rewrite cons_middle, app_assoc. apply Hdirs. simpl in Hi. lia.
Qed.

Lemma walk_plain_intro fs segs : ∀ pre,
  Forall (λ s, plain s = true) segs →
  (∀ i, (i < length segs)%nat → Fs.lookup fs (pre ++ take i segs) = Some Directory) →
  Fs.walk fs (reverse pre) segs = inr (reverse (pre ++ segs)).
Proof.
  induction segs as [|c segs IH]; intros pre Hplain Hdirs.
  - by rewrite app_nil_r.
  - inversion Hplain as [|? ? Hc Hsegs]; subst. cbn [Fs.walk].
    assert (Fs.searchable fs (reverse pre) = None) as ->.
    { apply searchable_None. rewrite reverse_involutive.
      specialize (Hdirs 0%nat). rewrite take_0, app_nil_r in Hdirs.
      apply Hdirs. simpl. lia. }
    rewrite step_plain, <- reverse_snoc by done.
    rewrite (IH (pre ++ [c])); [by rewrite <- app_assoc|done|].
    intros i Hi. rewrite <- app_assoc. apply (Hdirs (S i)). simpl. lia.
Qed.

Lemma split_pathOf segs x :
  Forall (λ s, plain s = true) (segs ++ [x]) →
  path.segmentsOf (pathOf (segs ++ [x])) = "" :: segs ++ [x].
Proof.
  intros Hplain. unfold path.segmentsOf. rewrite pathOf_cons, split_cons_sep.
  rewrite (split_join "/"%char); [done|by destruct segs|by apply Forall_plain_no_slash].
Qed.

Lemma pathOf_nonempty segs : pathOf segs ≠ "".
Proof. by rewrite pathOf_cons. Qed.

Lemma start_pathOf fs segs : Fs.start fs (pathOf segs) = [].
Proof. unfold Fs.start, path.isAbsolute. rewrite pathOf_cons. by rewrite startsWith_cons. Qed.

Lemma walk_root fs segs : Fs.walk fs [] ("" :: segs) = Fs.walk fs [] segs.
Proof. reflexivity. Qed.

(** [fs.stat] of a normalized path finds the entry at that path when
    every directory above it is there. *)
Lemma stat_pathOf fs segs x entry :
  Forall (λ s, plain s = true) (segs ++ [x]) →
  Fs.stat fs (pathOf (segs ++ [x])) = Some entry
  ↔ underDirectories fs (segs ++ [x]) ∧ Fs.lookup fs (segs ++ [x]) = Some entry.
Proof.
  intros Hplain. unfold Fs.stat.
  rewrite bool_decide_eq_false_2 by apply pathOf_nonempty.
  rewrite start_pathOf, split_pathOf, walk_root by done.
  change (@nil string) with (reverse (@nil string)) at 1. split.
  - destruct (Fs.walk fs (reverse []) (segs ++ [x])) as [|d] eqn:Hwalk; [done|].
    apply walk_plain_inr in Hwalk as [-> Hdirs]; [|done].
    rewrite reverse_involutive. by intros H.
  - intros [Hdirs Hentry]. rewrite walk_plain_intro by done.
    by rewrite reverse_involutive.
Qed.

Lemma stat_pathOf_None fs segs x :
  Forall (λ s, plain s = true) (segs ++ [x]) →
  Fs.lookup fs (segs ++ [x]) = None → Fs.stat fs (pathOf (segs ++ [x])) = None.
Proof.
  intros Hplain Hnone. destruct (Fs.stat fs _) as [entry|] eqn:E; [|done].
  apply stat_pathOf in E as [_ E]; [congruence|done].
Qed.

Lemma parent_pathOf fs segs x dir last slash :
  Forall (λ s, plain s = true) (segs ++ [x]) →
  Fs.parent fs (pathOf (segs ++ [x])) = inr (dir, last, slash) →
  dir = segs ∧ last = x ∧ slash = false
  ∧ underDirectories fs (segs ++ [x]).
Proof.
  intros Hplain. pose proof Hplain as [Hsegs Hx]%Forall_app.
  inversion Hx as [|? ? Hx' _]; subst. apply plain_inv in Hx' as (Hne & _).
  unfold Fs.parent. rewrite start_pathOf, split_pathOf by done.
  rewrite (app_comm_cons segs [x] ""), dropTrailingEmpty_snoc by done.
  rewrite removelast_last, last_last, walk_root.
  rewrite (bool_decide_eq_false_2 (_ ≠ _)) by (by intros H).
  change (@nil string) with (reverse (@nil string)) at 1.
  destruct (Fs.walk fs (reverse []) segs) as [|d] eqn:Hwalk; [done|].
  apply walk_plain_inr in Hwalk as [-> Hdirs]; [|done].
  destruct (Fs.searchable fs _) eqn:Es; [done|]. intros [= <- <- <-].
  apply searchable_None in Es. rewrite !reverse_involutive in *.
  split; [done|]. split; [done|]. split; [done|].
  intros i Hi. rewrite length_app in Hi. simpl in Hi.
  destruct (decide (i = length segs)) as [->|Hlt].
  - by rewrite take_app_length.
  - rewrite take_app_le by lia. apply (Hdirs i). lia.
Qed.

(** *** Normalized paths as strings *)

Lemma pathOf_inj a b :
  Forall (λ s, plain s = true) a → Forall (λ s, plain s = true) b →
  pathOf a = pathOf b → a = b.
Proof.
  intros Ha Hb E.
  by rewrite <- (resolveSegments_pathOf "" a), E, resolveSegments_pathOf.
Qed.

Lemma pathOf_below a x b y :
  Forall (λ s, plain s = true) (a ++ [x]) → Forall (λ s, plain s = true) (b ++ [y]) →
  Js.startsWith (pathOf (a ++ [x])) (pathOf (b ++ [y]) +:+ "/") = true →
  (b ++ [y]) `prefix_of` a.
Proof.
  intros Ha Hb [t E]%prefix_inv.
  apply (f_equal path.segmentsOf) in E. rewrite split_pathOf in E by done.
  rewrite app_assoc_s in E. change ("/" +:+ t) with (String "/" t) in E.
  unfold path.segmentsOf in E at 1. rewrite split_app_sep in E.
  change (Js.split "/" (pathOf (b ++ [y]))) with (path.segmentsOf (pathOf (b ++ [y]))) in E.
  rewrite split_pathOf in E by done. injection E as E.
  pose proof (split_nonempty "/"%char t) as Hne. revert E Hne.
  generalize (Js.split "/" t). intros l E Hne.
  destruct l as [|z r _] using rev_ind; [done|].
  rewrite app_assoc in E. apply app_inj_tail in E as [-> _]. by exists r.
Qed.

(** The places above a destination that a rename reaches are not moved
    by it. *)
Lemma lookup_moved_above fs ss ds pre :
  Forall (λ s, plain s = true) ss → Forall (λ s, plain s = true) ds →
  Forall (λ s, plain s = true) pre →
  ss ≠ [] → ds ≠ [] →
  ¬ ss `prefix_of` pre → ¬ ds `prefix_of` pre →
  Fs.lookup (Fs.moved fs (pathOf ss) (pathOf ds)) pre = Fs.lookup fs pre.
Proof.
  intros Hss Hds Hpre Hs Hd Hns Hnd.
  destruct pre as [|p pre _] using rev_ind; [done|].
  assert (∀ l : list string, Fs.lookup fs (l ++ [p]) = stat fs (pathOf (l ++ [p]))) as Hl
    by (by intros [|? ?]).
  assert (∀ l : list string,
            Fs.lookup (Fs.moved fs (pathOf ss) (pathOf ds)) (l ++ [p])
            = stat (Fs.moved fs (pathOf ss) (pathOf ds)) (pathOf (l ++ [p]))) as Hl'
    by (by intros [|? ?]).
  rewrite Hl, Hl'. unfold Fs.moved. cbn [stat].
  destruct ss as [|s0 ss _] using rev_ind; [done|].
  destruct ds as [|d0 ds _] using rev_ind; [done|].
  rewrite bool_decide_eq_false_2.
  2:{ intros E%pathOf_inj; [|done..]. apply Hnd. by rewrite E. }
  destruct (Js.startsWith (pathOf (pre ++ [p])) (pathOf (ds ++ [d0]) +:+ "/")) eqn:E1.
  { apply pathOf_below in E1; [|done..]. destruct Hnd. by apply prefix_app_r. }
  rewrite bool_decide_eq_false_2.
  2:{ intros E%pathOf_inj; [|done..]. apply Hns. by rewrite E. }
  destruct (Js.startsWith (pathOf (pre ++ [p])) (pathOf (ss ++ [s0]) +:+ "/")) eqn:E2.
  { apply pathOf_below in E2; [|done..]. destruct Hns. by apply prefix_app_r. }
  done.
Qed.

(** X14. A rename succeeds only when [fs.stat] finds the source and does not
    find the destination; the result then tells whether the source is a
    directory and holds no error. Without the import update no file and
    no import is reported, and for normalized absolute paths [fs.stat]
    afterwards finds at the destination the entry the source held and
    nothing at the source, and every path that is neither of the two nor
    lies below one of them holds what it held. *)
Theorem successful_rename_moves_the_entry loadProject fs options r fs' :
  renameFileOrFolder loadProject fs options = (r, fs') →
  success r = true →
  ∃ entry,
    Fs.stat fs (sourcePath options) = Some entry
    ∧ Fs.stat fs (destinationPath options) = None
    ∧ isDirectoryResult r = Some (isDirectory entry)
    ∧ error r = None
    ∧ (updateImportsOption options = false →
       updatedFiles r = Some [] ∧ affectedImports r = Some []
       ∧ ∀ sdir sname ddir dname,
           sourcePath options = pathOf (sdir ++ [sname]) →
           destinationPath options = pathOf (ddir ++ [dname]) →
           Forall (λ s, plain s = true) (sdir ++ [sname]) →
           Forall (λ s, plain s = true) (ddir ++ [dname]) →
           Fs.stat fs' (destinationPath options) = Some entry
           ∧ Fs.stat fs' (sourcePath options) = None
           ∧ ∀ q, q ≠ sourcePath options → q ≠ destinationPath options →
                  Js.startsWith q (sourcePath options +:+ "/") = false →
                  Js.startsWith q (destinationPath options +:+ "/") = false →
                  stat fs' q = stat fs q).
Proof.
  unfold renameFileOrFolder. intros Hrun Hsuccess.
  destruct (Fs.stat fs (sourcePath options)) as [entry|] eqn:Hsource;
    [|by injection Hrun as <- _].
  destruct (Fs.stat fs (destinationPath options)) as [other|] eqn:Hdest;
    [by injection Hrun as <- _|].
  set (updated := if updateImportsOption options then _ else _) in Hrun.
  destruct (Fs.rename (saveProject fs updated) _ _) as [code|renamed] eqn:Hrename;
    [by injection Hrun as <- _|].
  injection Hrun as <- <-. exists entry. split; [done|]. split; [done|].
  split; [done|]. split; [done|].
  intros Hoff. subst updated. rewrite Hoff in *. rewrite saveProject_untouched in Hrename.
  split; [cbn [updatedFiles]; f_equal; apply no_file_updated|].
  split; [cbn [affectedImports]; f_equal; apply no_import_affected|].
  intros sdir sname ddir dname Es Ed Hs Hd. rewrite Es, Ed in *.
  apply stat_pathOf in Hsource as [Hsdirs Hsentry]; [|done].
  unfold Fs.rename in Hrename.
  rewrite !(bool_decide_eq_false_2 (pathOf _ = "")) in Hrename by apply pathOf_nonempty.
  cbn [orb] in Hrename.
  destruct (Fs.parent fs (pathOf (sdir ++ [sname]))) as [|[[oldDir oldLast] oldSlash]] eqn:Ho;
    [done|].
  destruct (Fs.parent fs (pathOf (ddir ++ [dname]))) as [|[[newDir newLast] newSlash]] eqn:Hn;
    [done|].
  apply parent_pathOf in Ho as (-> & -> & -> & _); [|done].
  apply parent_pathOf in Hn as (-> & -> & -> & Hddirs); [|done].
  destruct (negb (Fs.isNormal sname) || negb (Fs.isNormal dname)); [done|].
  rewrite Hsentry in Hrename. rewrite orb_false_r, andb_false_r in Hrename.
  case_bool_decide as Hinto; [done|]. case_bool_decide as Honto; [done|].
  case_bool_decide as Hsame.
  { rewrite Hsame in Hsentry. assert (Fs.stat fs (pathOf (ddir ++ [dname])) = Some entry)
      as Hfound by (by apply stat_pathOf). congruence. }
  destruct (Fs.lookup fs (ddir ++ [dname])) as [target|] eqn:Htarget.
  { assert (Fs.stat fs (pathOf (ddir ++ [dname])) = Some target)
      as Hfound by (by apply stat_pathOf). congruence. }
  assert (renamed = Fs.moved fs (pathOf (sdir ++ [sname])) (pathOf (ddir ++ [dname]))) as ->.
  { destruct entry; by injection Hrename as <-. }
  assert (sdir ++ [sname] ≠ []) as Hsne by (by destruct sdir).
  assert (ddir ++ [dname] ≠ []) as Hdne by (by destruct ddir).
  split; [|split].
  - apply stat_pathOf; [done|]. split.
    + intros i Hi. rewrite lookup_moved_above; [by apply Hddirs|done|done| |done|done| |].
      * by apply Forall_take.
      * intros Hp. apply Hinto. etrans; [exact Hp|].
        rewrite length_app in Hi. simpl in Hi.
        rewrite take_app_le by lia. apply prefix_take.
      * intros Hp%prefix_length. rewrite length_take in Hp. lia.
    + assert (Fs.lookup (Fs.moved fs (pathOf (sdir ++ [sname])) (pathOf (ddir ++ [dname])))
                (ddir ++ [dname])
              = stat (Fs.moved fs (pathOf (sdir ++ [sname])) (pathOf (ddir ++ [dname])))
                  (pathOf (ddir ++ [dname]))) as -> by (by destruct ddir).
      unfold Fs.moved. cbn [stat]. rewrite bool_decide_eq_true_2 by done.
      rewrite <- Hsentry. by destruct sdir.
  - apply stat_pathOf_None; [done|].
    assert (Fs.lookup (Fs.moved fs (pathOf (sdir ++ [sname])) (pathOf (ddir ++ [dname])))
              (sdir ++ [sname])
            = stat (Fs.moved fs (pathOf (sdir ++ [sname])) (pathOf (ddir ++ [dname])))
                (pathOf (sdir ++ [sname]))) as -> by (by destruct sdir).
    unfold Fs.moved. cbn [stat].
    rewrite bool_decide_eq_false_2.
    2:{ intros E%pathOf_inj; done. }
    destruct (Js.startsWith (pathOf (sdir ++ [sname])) (pathOf (ddir ++ [dname]) +:+ "/"))
      eqn:E1.
    { apply pathOf_below in E1; done. }
    by rewrite (bool_decide_eq_true_2 (_ = _)).
  - intros q Hq1 Hq2 Hq3 Hq4. unfold Fs.moved. cbn [stat].
    rewrite (bool_decide_eq_false_2 (q = pathOf (ddir ++ [dname]))) by done.
    rewrite Hq4. rewrite (bool_decide_eq_false_2 (q = pathOf (sdir ++ [sname]))) by done.
    by rewrite Hq3.
Qed.

Lemma successful_rename_moves_the_entry_witness :
  let moved :=
    snd (renameFileOrFolder Example.libSources Example.libProject Example2.renameOnly) in
  Fs.stat moved "/p/newStyle.ts" = Some (File emptyText)
  ∧ Fs.stat moved "/p/oldStyle.ts" = None
  ∧ stat moved "/p/main.ts" = stat Example.libProject "/p/main.ts".
Proof.
  destruct (successful_rename_moves_the_entry Example.libSources Example.libProject
              Example2.renameOnly
              (fst (renameFileOrFolder Example.libSources Example.libProject
                      Example2.renameOnly))
              (snd (renameFileOrFolder Example.libSources Example.libProject
                      Example2.renameOnly)))
    as (entry & Hsource & _ & _ & _ & Hoff).
  - apply surjective_pairing.
  - reflexivity.
  - vm_compute in Hsource. injection Hsource as <-.
    destruct (Hoff eq_refl) as (_ & _ & Hnormal).
    destruct (Hnormal ["p"] "oldStyle.ts" ["p"] "newStyle.ts")
      as (Hdest & Hgone & Hrest); [reflexivity|reflexivity|by repeat constructor..|].
    split; [exact Hdest|]. split; [exact Hgone|].
    apply Hrest; reflexivity || (by intros H; inversion H).
Defined.

End rename_facts.

Section import_update_facts.
Import FileRename.

Lemma rewriteSpecifier_not_relative fs isDir filePath oldAbsPath newAbsPath newFilePath s :
  Js.startsWith s "." = false →
  default s (rewriteSpecifier fs isDir filePath oldAbsPath newAbsPath newFilePath s) = s.
Proof.
  intros Hs. unfold rewriteSpecifier. destruct (refersTo _ _ _); [|done].
  unfold calculateNewImportPath. by rewrite Hs.
Qed.

(** X15. The import update changes module specifiers only, and only those that
    start with a dot: the path and the body of the file, the bindings of
    every import, the flags of every export and every specifier of a
    package are as before. *)
Theorem import_update_keeps_bindings_and_packages
    fs isDir oldAbsPath newAbsPath sourceFile :
  let updated := fst (updateSourceFile fs isDir oldAbsPath newAbsPath sourceFile) in
  getFilePath updated = getFilePath sourceFile
  ∧ bodyIdentifiers (getText updated) = bodyIdentifiers (getText sourceFile)
  ∧ Forall2 (λ d d',
       defaultImport d' = defaultImport d
       ∧ namespaceImport d' = namespaceImport d
       ∧ namedBindings d' = namedBindings d
       ∧ isTypeOnly d' = isTypeOnly d
       ∧ (Js.startsWith (moduleSpecifier d) "." = false → d' = d))
      (importDeclarations (getText sourceFile)) (importDeclarations (getText updated))
  ∧ Forall2 (λ e e',
       exportIsWildcard e' = exportIsWildcard e
       ∧ exportIsTypeOnly e' = exportIsTypeOnly e
       ∧ (exportSpecifier e = None → e' = e)
       ∧ (∀ m, exportSpecifier e = Some m → Js.startsWith m "." = false → e' = e))
      (exportDeclarations (getText sourceFile)) (exportDeclarations (getText updated))
  ∧ Forall2 (λ m m', Js.startsWith m "." = false → m' = m)
      (dynamicImports (getText sourceFile)) (dynamicImports (getText updated)).
Proof.
  unfold updateSourceFile. cbn [fst getFilePath getText importDeclarations
    exportDeclarations dynamicImports bodyIdentifiers].
  set (rw := rewriteSpecifier fs isDir (getFilePath sourceFile) oldAbsPath newAbsPath _).
  assert (∀ s, Js.startsWith s "." = false → default s (rw s) = s) as Hrw.
  { intros s. apply rewriteSpecifier_not_relative. }
  split; [done|]. split; [done|]. split; [|split].
  - apply Forall2_fmap_r, Forall_Forall2_diag, Forall_forall. intros d _. unfold compose. cbn beta.
    destruct (rw (moduleSpecifier d)) as [new|] eqn:E; [|done].
    repeat split; try done. intros Hd. specialize (Hrw _ Hd). rewrite E in Hrw.
    cbn in Hrw. subst new. by destruct d.
  - apply Forall2_fmap_r, Forall_Forall2_diag, Forall_forall. intros e _. unfold compose. cbn beta.
    destruct (exportSpecifier e) as [m|] eqn:Hm; cbn [mbind option_bind]; [|done].
    case_bool_decide as Hempty; cbn [mbind option_bind]; [done|].
    destruct (rw m) as [new|] eqn:E; [|done].
    repeat split; try done. intros m' [= <-] Hd. specialize (Hrw _ Hd).
    rewrite E in Hrw. cbn in Hrw. subst new. destruct e. cbn in Hm. by subst.
  - apply Forall2_fmap_r, Forall_Forall2_diag, Forall_forall. intros m _. unfold compose. cbn beta. intros Hm.
    by apply Hrw.
Qed.

End import_update_facts.

(** ** The passes of the import optimization *)

Section optimization_passes.
Import ImportOptimization.

(** X17. The index-path pass keeps every declaration in its place and changes
    nothing but the specifier of a relative import that ends with
    [/index], from which it removes this suffix once; it reports one
    change for each such declaration. A package specifier such as
    [pkg/index] is left alone. *)
Theorem index_pass_strips_relative_index_suffixes (decls : list ImportDeclaration) :
  Forall2 (λ d d',
     defaultImport d' = defaultImport d
     ∧ namespaceImport d' = namespaceImport d
     ∧ namedBindings d' = namedBindings d
     ∧ isTypeOnly d' = isTypeOnly d
     ∧ if Js.startsWith (moduleSpecifier d) "." && Js.endsWith (moduleSpecifier d) "/index"
       then moduleSpecifier d = moduleSpecifier d' +:+ "/index"
       else d' = d)
    decls (fst (optimizeIndexImportPaths decls))
  ∧ length (snd (optimizeIndexImportPaths decls))
    = length (filter (λ d, Js.startsWith (moduleSpecifier d) "."
                           && Js.endsWith (moduleSpecifier d) "/index" = true) decls).
Proof.
  unfold optimizeIndexImportPaths. cbn [fst snd]. split.
  - rewrite <- list_fmap_compose.
    apply Forall2_fmap_r, Forall_Forall2_diag, Forall_forall. intros d _.
    unfold compose, optimizeIndexImportPath. cbn beta.
    destruct (Js.startsWith (moduleSpecifier d) "." && Js.endsWith (moduleSpecifier d) "/index")
      eqn:E; cbn [fst]; [|done].
    repeat split. cbn [moduleSpecifier ImportPathRepair.setModuleSpecifier].
    apply andb_true_iff in E as [_ [a Ha]%endsWith_inv].
    rewrite Ha at 1 2. by rewrite stripSuffixMatch_single.
  - induction decls as [|d decls IH]; [done|]. rewrite !fmap_cons. cbn [concat].
    rewrite length_app, IH, filter_cons. unfold optimizeIndexImportPath at 1.
    destruct (Js.startsWith (moduleSpecifier d) "." && Js.endsWith (moduleSpecifier d) "/index");
      cbn [snd length].
    + by rewrite decide_True.
    + by rewrite decide_False.
Qed.

Lemma filter_partition {A} (f : A → bool) (l : list A) :
  filter (λ x, f x = true) l ++ filter (λ x, f x = false) l ≡ₚ l.
Proof.
  induction l as [|x l IH]; [done|]. rewrite !filter_cons.
  destruct (f x) eqn:E.
  - rewrite decide_True, decide_False by done. cbn [app]. by rewrite IH.
  - rewrite decide_False, decide_True by done.
    rewrite <- Permutation_middle. by rewrite IH.
Qed.

Lemma niName_plainName (names : list string) : niName <$> (plainName <$> names) = names.
Proof. induction names as [|n names IH]; [done|]. rewrite !fmap_cons. by rewrite IH. Qed.

(** X20. The separation of type and value imports keeps every imported name
    once and the specifier; a type-only declaration is left as it is. When
    a declaration is split, the two new declarations carry named imports
    only: the aliases, the default import and the namespace import of the
    original are not written again. *)
Theorem separation_keeps_the_imported_names (body : list Identifier)
    (importDecl : ImportDeclaration) :
  let separated := fst (separateTypeAndValueImport body importDecl) in
  niName <$> concat (namesOf <$> separated) ≡ₚ niName <$> namesOf importDecl
  ∧ Forall (λ d, moduleSpecifier d = moduleSpecifier importDecl) separated
  ∧ (isTypeOnly importDecl = true → separated = [importDecl])
  ∧ (separated = [importDecl]
     ∨ ∃ typeImport valueImport,
         separated = [typeImport; valueImport]
         ∧ isTypeOnly typeImport = true ∧ isTypeOnly valueImport = false
         ∧ Forall (λ d, defaultImport d = None ∧ namespaceImport d = None
                        ∧ Forall (λ n, niAlias n = None) (namesOf d)) separated).
Proof.
  unfold separateTypeAndValueImport.
  destruct (isTypeOnly importDecl) eqn:Htype; cbn [fst].
  { cbn [fmap list_fmap concat]. rewrite app_nil_r. repeat split; try done.
    - by repeat constructor.
    - by left. }
  destruct (_ && _); cbn [fst].
  - split; [|split; [by repeat constructor|split; [done|]]].
    + cbn [fmap list_fmap concat namesOf namedBindings default]. rewrite app_nil_r.
      unfold Datatypes.id. rewrite fmap_app, !niName_plainName. apply filter_partition.
    + right. eexists _, _. split; [done|]. split; [done|]. split; [done|].
      repeat constructor; cbn [namesOf namedBindings default];
        apply Forall_fmap, Forall_forall; by intros.
  - cbn [fmap list_fmap concat]. rewrite app_nil_r.
    split; [done|]. split; [by repeat constructor|]. split; [done|]. by left.
Qed.

(** One turn of the removal: a declaration that stays keeps its specifier,
    its default and namespace imports and a part of its named imports, among
    them every one whose name occurs elsewhere. *)
Lemma removeUnusedFrom_kept others importDecl kept :
  fst (removeUnusedFrom others importDecl) = Some kept →
  moduleSpecifier kept = moduleSpecifier importDecl
  ∧ defaultImport kept = defaultImport importDecl
  ∧ namespaceImport kept = namespaceImport importDecl
  ∧ namesOf kept ⊆ namesOf importDecl
  ∧ ∀ ni, ni ∈ namesOf importDecl → niName ni ∈ others → ni ∈ namesOf kept.
Proof.
  unfold removeUnusedFrom. destruct (isTypeOnly importDecl) eqn:Htype.
  { intros [= <-]. by repeat split. }
  set (used := filter (λ name, isIdentifierUsed others name = true)
                 (niName <$> namesOf importDecl)).
  set (unused := if _ && _ then filter _ _ else []).
  set (keptImports := filter (λ ni, ni ∉ unused) (namesOf importDecl)).
  assert (∀ ni, ni ∈ namesOf importDecl → niName ni ∈ others → ni ∈ keptImports) as Hkeep.
  { intros ni Hni Hused. apply list_elem_of_filter. split; [|done].
    assert (niName ni ∈ used) as Hin.
    { apply list_elem_of_filter. split; [by apply bool_decide_eq_true_2|].
      apply list_elem_of_fmap. by exists ni. }
    subst unused. destruct (_ && _); [|by intros ?%elem_of_nil].
    by intros [? _]%list_elem_of_filter. }
  destruct (_ || _ || _); cbn [fst]; [|done]. intros [= <-].
  cbn [moduleSpecifier defaultImport namespaceImport namesOf namedBindings].
  split; [done|]. split; [done|]. split; [done|].
  unfold namesOf in *. destruct (namedBindings importDecl) as [bindings|]; cbn [default] in *.
  - destruct (bool_decide (keptImports = []) && bool_decide (unused ≠ [])) eqn:E;
      cbn [default].
    + apply andb_true_iff in E as [E _]. apply bool_decide_eq_true_1 in E.
      split; [by intros ? ?%elem_of_nil|]. intros ni Hni Hused.
      rewrite <- E. by apply Hkeep.
    + split; [|done]. intros ni Hni. by apply list_elem_of_filter in Hni as [_ ?].
  - split; [done|]. by intros ni ?%elem_of_nil.
Qed.

Lemma removeUnusedFrom_used others importDecl ni :
  ni ∈ namesOf importDecl → niName ni ∈ others →
  is_Some (fst (removeUnusedFrom others importDecl)).
Proof.
  intros Hni Hused. unfold removeUnusedFrom.
  destruct (isTypeOnly importDecl); [done|].
  set (used := filter (λ name, isIdentifierUsed others name = true)
                 (niName <$> namesOf importDecl)).
  assert (niName ni ∈ used) as Hin.
  { apply list_elem_of_filter. split; [by apply bool_decide_eq_true_2|].
    apply list_elem_of_fmap. by exists ni. }
  assert (bool_decide (0 < length used)%nat = true) as ->.
  { apply bool_decide_eq_true_2. destruct used; [by apply elem_of_nil in Hin|].
    cbn [length]. lia. }
  by rewrite !orb_true_r.
Qed.

Lemma removeUnusedLoop_done body todo : ∀ done,
  ∃ tail, fst (removeUnusedLoop body done todo) = done ++ tail.
Proof.
  induction todo as [|d todo IH]; intros done; cbn [removeUnusedLoop].
  - exists []. by rewrite app_nil_r.
  - destruct (removeUnusedFrom _ d) as [kept changes].
    destruct (IH (done ++ option_list kept)) as [tail Htail].
    destruct (removeUnusedLoop body (done ++ option_list kept) todo) as [final changes'].
    cbn [fst] in *. exists (option_list kept ++ tail). by rewrite Htail, app_assoc.
Qed.

Lemma removeUnusedLoop_keeps body todo : ∀ done importDecl ni,
  importDecl ∈ todo → ni ∈ namesOf importDecl → niName ni ∈ body →
  ∃ kept, kept ∈ fst (removeUnusedLoop body done todo)
          ∧ moduleSpecifier kept = moduleSpecifier importDecl
          ∧ defaultImport kept = defaultImport importDecl
          ∧ namespaceImport kept = namespaceImport importDecl
          ∧ ni ∈ namesOf kept.
Proof.
  induction todo as [|d todo IH]; intros done importDecl ni Hin Hni Hbody;
    [by apply elem_of_nil in Hin|].
  cbn [removeUnusedLoop].
  set (others := concat (identifiersOf <$> done) ++ concat (identifiersOf <$> todo) ++ body).
  apply elem_of_cons in Hin as [->|Hin].
  - assert (niName ni ∈ others) as Hused by (subst others; set_solver).
    destruct (removeUnusedFrom_used others d ni Hni Hused) as [kept Hkept].
    destruct (removeUnusedFrom_kept others d kept Hkept) as (? & ? & ? & _ & Hall).
    destruct (removeUnusedFrom others d) as [k changes]. cbn [fst] in Hkept. subst k.
    destruct (removeUnusedLoop_done body todo (done ++ option_list (Some kept)))
      as [tail Htail].
    destruct (removeUnusedLoop body _ todo) as [final changes']. cbn [fst] in *.
    exists kept. split; [|by auto]. rewrite Htail. cbn [option_list]. set_solver.
  - destruct (removeUnusedFrom others d) as [k changes].
    destruct (IH (done ++ option_list k) importDecl ni Hin Hni Hbody)
      as (kept & Hkept & Hrest).
    destruct (removeUnusedLoop body _ todo) as [final changes']. cbn [fst] in *.
    by exists kept.
Qed.

Lemma removeUnusedLoop_origin body todo : ∀ done kept,
  kept ∈ fst (removeUnusedLoop body done todo) →
  kept ∈ done
  ∨ ∃ importDecl, importDecl ∈ todo
      ∧ moduleSpecifier kept = moduleSpecifier importDecl
      ∧ defaultImport kept = defaultImport importDecl
      ∧ namespaceImport kept = namespaceImport importDecl
      ∧ namesOf kept ⊆ namesOf importDecl.
Proof.
  induction todo as [|d todo IH]; intros done kept; cbn [removeUnusedLoop]; [by left|].
  set (others := concat (identifiersOf <$> done) ++ concat (identifiersOf <$> todo) ++ body).
  pose proof (removeUnusedFrom_kept others d) as Hturn.
  destruct (removeUnusedFrom others d) as [k changes]. cbn [fst] in Hturn.
  specialize (IH (done ++ option_list k) kept).
  destruct (removeUnusedLoop body _ todo) as [final changes']. cbn [fst] in *.
  intros Hin. destruct (IH Hin) as [Hdone|(importDecl & Hd & Hrest)].
  - apply elem_of_app in Hdone as [Hdone|Hk]; [by left|]. right.
    destruct k as [k|]; [|by apply elem_of_nil in Hk].
    apply list_elem_of_singleton in Hk as ->. exists d. split; [by left|].
    destruct (Hturn k eq_refl) as (? & ? & ? & ? & _). by auto.
  - right. exists importDecl. split; [by right|done].
Qed.

(** X19. The removal of unused imports never removes a named import whose name
    occurs in the body of the file: the declaration it stood in stays, with
    this import, its specifier and its default and namespace imports.
    Whatever stays comes from a declaration of the file and has lost
    named imports only: a default import stays in a declaration that
    stays, used or not. *)
Theorem removal_keeps_what_the_body_uses (body : list Identifier)
    (decls : list ImportDeclaration) :
  let final := fst (removeUnusedImports body decls) in
  (∀ importDecl ni,
     importDecl ∈ decls → ni ∈ namesOf importDecl → niName ni ∈ identText <$> body →
     ∃ kept, kept ∈ final
             ∧ moduleSpecifier kept = moduleSpecifier importDecl
             ∧ defaultImport kept = defaultImport importDecl
             ∧ namespaceImport kept = namespaceImport importDecl
             ∧ ni ∈ namesOf kept)
  ∧ (∀ kept, kept ∈ final →
       ∃ importDecl, importDecl ∈ decls
         ∧ moduleSpecifier kept = moduleSpecifier importDecl
         ∧ defaultImport kept = defaultImport importDecl
         ∧ namespaceImport kept = namespaceImport importDecl
         ∧ namesOf kept ⊆ namesOf importDecl).
Proof.
  unfold removeUnusedImports. split.
  - intros importDecl ni. apply removeUnusedLoop_keeps.
  - intros kept Hkept. apply removeUnusedLoop_origin in Hkept as [Hnil|H]; [|done].
    by apply elem_of_nil in Hnil.
Qed.

End optimization_passes.

(** ** The specifiers written by file-move and by the repair *)

Lemma hasChar_replaceAllChar c d s :
  c ≠ d → hasChar c (Js.replaceAllChar c d s) = false.
Proof.
  intros Hcd. induction s as [|a s IH]; [done|]. cbn [Js.replaceAllChar hasChar].
  rewrite IH, orb_false_r. apply bool_decide_eq_false_2.
  destruct (bool_decide (a = c)) eqn:Ha; [congruence|].
  by apply bool_decide_eq_false_1 in Ha.
Qed.

Lemma startsWith_replaceAllChar c d s x :
  x ≠ c → Js.startsWith s (String x "") = true →
  Js.startsWith (Js.replaceAllChar c d s) (String x "") = true.
Proof.
  intros Hx. destruct s as [|a s]; [done|]. cbn [Js.replaceAllChar].
  rewrite !startsWith_cons. intros ->%bool_decide_eq_true_1.
  rewrite (bool_decide_eq_false_2 (x = c)) by done. by apply bool_decide_eq_true_2.
Qed.

Lemma normalizedPath_relative r :
  Js.startsWith (FileMove.normalizedPath r) "." = true
  ∧ hasChar "\" (FileMove.normalizedPath r) = false.
Proof.
  unfold FileMove.normalizedPath. split.
  - apply startsWith_replaceAllChar; [done|]. apply (dotted_startsWith r).
  - by apply hasChar_replaceAllChar.
Qed.

(** X16. file-move rewrites relative specifiers only, and what it writes is a
    relative specifier with forward slashes: it starts with a dot and
    holds no backslash. It is computed from the importing directory and
    the new path alone, so every importer in a directory gets the same
    specifier, whatever it wrote before. *)
Theorem file_move_writes_relative_specifiers
    fs filePath oldPath newPath specifier rewritten :
  FileMove.rewriteSpecifier fs filePath oldPath newPath specifier = Some rewritten →
  Js.startsWith specifier "." = true
  ∧ Js.startsWith rewritten "." = true
  ∧ hasChar "\" rewritten = false
  ∧ rewritten = FileMove.createOptimalImportPath fs (path.dirname filePath) newPath.
Proof.
  unfold FileMove.rewriteSpecifier.
  destruct (Js.startsWith specifier "."); [|done].
  destruct (existsb _ _); [|done]. intros [= <-]. split; [done|].
  split; [|split; [|done]]; unfold FileMove.createOptimalImportPath;
    repeat match goal with |- context [if ?b then _ else _] => destruct b end;
    apply normalizedPath_relative.
Qed.

Lemma file_move_writes_relative_specifiers_witness :
  Js.startsWith "./newStyle" "." = true ∧ hasChar "\" "./newStyle" = false.
Proof.
  destruct (file_move_writes_relative_specifiers Example.styleProject "/p/main.ts"
              "/p/oldStyle.ts" "/p/newStyle.ts" "./oldStyle" "./newStyle")
    as (_ & Hdot & Hslash & _); [reflexivity|]. by split.
Defined.

Section repaired_entries.
Import ImportPathRepair.

(** X12. An entry with the status [repaired] names one of the candidates it
    lists, and its repaired path is the relative path from the file to that
    candidate: it starts with a dot. Only a specifier that is not a
    package and does not resolve is repaired. *)
Theorem repaired_entry_names_a_candidate fs search sourceFile importDecl :
  status (repairSingleImport fs search sourceFile importDecl) = repaired →
  ∃ selected candidates,
    selectedFile (repairSingleImport fs search sourceFile importDecl) = Some selected
    ∧ candidateFiles (repairSingleImport fs search sourceFile importDecl) = Some candidates
    ∧ selected ∈ candidates
    ∧ repairedPath (repairSingleImport fs search sourceFile importDecl)
      = Some (generateRelativePath fs (getFilePath sourceFile) selected)
    ∧ Js.startsWith (generateRelativePath fs (getFilePath sourceFile) selected) "." = true
    ∧ isExternal (moduleSpecifier importDecl) = false
    ∧ namedImports (repairSingleImport fs search sourceFile importDecl)
      = Some (getNamedImports importDecl).
Proof.
  unfold repairSingleImport, isExternal.
  destruct (negb _ && negb _); [done|].
  destruct (match resolveImportPath fs _ _ with Some _ => _ | None => _ end); [done|].
  destruct (getFileNameFromPath _) as [fileName|]; [|done].
  destruct (bool_decide _) eqn:Hlen; [done|].
  destruct (selectBestCandidate _ _ _) as [best|] eqn:Hbest; [|done]. intros _.
  cbn [selectedFile candidateFiles repairedPath namedImports].
  exists (fmPath best), (fmPath <$> findFilesByName search fileName).
  split; [done|]. split; [done|]. split; [|by split; [|split; [apply generateRelativePath_dotted|]]].
  destruct (selectBestCandidate_best
              (scoreCandidates fs (findFilesByName search fileName) (getFilePath sourceFile))
              (getNamedImports importDecl) (getImportType importDecl))
    as (best' & Hbest' & Hin & _).
  { apply bool_decide_eq_false_1 in Hlen. unfold scoreCandidates.
    by destruct (findFilesByName search fileName). }
  rewrite Hbest in Hbest'. injection Hbest' as <-.
  unfold scoreCandidates in Hin. apply list_elem_of_fmap in Hin as (c & -> & Hc).
  cbn [fmPath]. apply list_elem_of_fmap. by exists c.
Qed.

Lemma repaired_entry_names_a_candidate_witness :
  ∃ selected candidates,
    selectedFile (repairSingleImport Example.mathProject Example.mathSearch
                    {| getFilePath := "/p/test-specific.ts"; getText := Example.brokenText |}
                    (Example.namedImport "./wrong/path/math" ["add"; "multiply"]))
    = Some selected
    ∧ candidateFiles (repairSingleImport Example.mathProject Example.mathSearch
                    {| getFilePath := "/p/test-specific.ts"; getText := Example.brokenText |}
                    (Example.namedImport "./wrong/path/math" ["add"; "multiply"]))
      = Some candidates
    ∧ selected ∈ candidates.
Proof.
  destruct (repaired_entry_names_a_candidate Example.mathProject Example.mathSearch
              {| getFilePath := "/p/test-specific.ts"; getText := Example.brokenText |}
              (Example.namedImport "./wrong/path/math" ["add"; "multiply"]))
    as (selected & candidates & Hselected & Hcandidates & Hin & _); [by vm_compute|].
  exists selected, candidates. split; [exact Hselected|]. split; [exact Hcandidates|].
  exact Hin.
Defined.

(** X13. The repair reports [not_found] only when the specifier yields no file
    name or the search finds no file for it: as soon as one file is found
    the import is repaired, whatever the file exports, and the reason
    [No suitable candidate found] is never given. *)
Theorem not_found_means_no_file_was_found fs search sourceFile importDecl :
  (status (repairSingleImport fs search sourceFile importDecl) = not_found →
   match getFileNameFromPath (moduleSpecifier importDecl) with
   | Some fileName => findFilesByName search fileName = []
   | None => True
   end)
  ∧ reason (repairSingleImport fs search sourceFile importDecl)
    ≠ Some "No suitable candidate found".
Proof.
  unfold repairSingleImport.
  destruct (negb _ && negb _); [done|].
  destruct (match resolveImportPath fs _ _ with Some _ => _ | None => _ end); [done|].
  destruct (getFileNameFromPath _) as [fileName|]; [|done].
  case_bool_decide as Hlen.
  - split; [|done]. intros _. by destruct (findFilesByName search fileName).
  - destruct (selectBestCandidate_best
                (scoreCandidates fs (findFilesByName search fileName) (getFilePath sourceFile))
                (getNamedImports importDecl) (getImportType importDecl))
      as (best & -> & _); [|by split; [|destruct (bool_decide _)]].
    unfold scoreCandidates. by destruct (findFilesByName search fileName).
Qed.

End repaired_entries.

(** ** The consolidation of imports *)

Section consolidation.
Import ImportOptimization.

Lemma filter_filter_implied {A} (P Q : A → Prop)
    `{∀ x, Decision (P x)} `{∀ x, Decision (Q x)} (l : list A) :
  (∀ x, P x → Q x) → filter P (filter Q l) = filter P l.
Proof.
  intros HPQ. induction l as [|x l IH]; [done|]. rewrite (filter_cons Q).
  destruct (decide (Q x)) as [Hq|Hq].
  - rewrite !filter_cons. destruct (decide (P x)); by rewrite IH.
  - rewrite IH, filter_cons. destruct (decide (P x)) as [Hp|]; [|done].
    by destruct (Hq (HPQ x Hp)).
Qed.

Lemma filter_none {A} (P : A → Prop) `{∀ x, Decision (P x)} (l : list A) :
  Forall (λ x, ¬ P x) l → filter P l = [].
Proof.
  induction 1 as [|x l Hx _ IH]; [done|]. by rewrite filter_cons_False.
Qed.

(** What [replaceGroup] leaves of the elements outside the group, and
    what it makes of the group. *)
Lemma replaceGroup_outside {A} (f : A → bool) (P : A → Prop) `{∀ x, Decision (P x)}
    (new l : list A) :
  (∀ x, P x → f x = false) → Forall (λ x, ¬ P x) new →
  filter P (replaceGroup f new l) = filter P l.
Proof.
  intros HP Hnew. induction l as [|x l IH]; [done|]. cbn [replaceGroup].
  destruct (f x) eqn:E.
  - rewrite filter_app, (filter_none P new Hnew). cbn [app].
    rewrite filter_filter_implied by done.
    rewrite filter_cons_False; [done|]. intros Hx. apply HP in Hx. congruence.
  - rewrite !filter_cons. destruct (decide (P x)); by rewrite IH.
Qed.

Lemma replaceGroup_inside {A} (f : A → bool) (new l : list A) :
  Forall (λ x, f x = true) new → filter (λ x, f x = true) l ≠ [] →
  filter (λ x, f x = true) (replaceGroup f new l) = new.
Proof.
  intros Hnew. induction l as [|x l IH]; [done|]. cbn [replaceGroup].
  rewrite filter_cons. destruct (f x) eqn:E.
  - intros _. rewrite filter_app, filter_Forall_id by done.
    rewrite filter_none; [by rewrite app_nil_r|].
    apply Forall_forall. intros y [Hy _]%list_elem_of_filter. congruence.
  - rewrite decide_False by congruence. intros Hne.
    rewrite filter_cons_False by congruence. by apply IH.
Qed.

Lemma readBack_shape key defaultName namespaceName valueImports typeImports newImports :
  readBack key defaultName namespaceName valueImports typeImports = Some newImports →
  (length newImports ≤ 2)%nat ∧ Forall (λ d, moduleSpecifier d = key) newImports.
Proof.
  unfold readBack.
  destruct defaultName, namespaceName; try done;
    repeat case_bool_decide; intros [= <-]; cbn [app length];
    (split; [lia|by repeat constructor]).
Qed.

(** One turn of the consolidation: the declarations of the other modules
    stay where they are, and the group of the module is not empty
    afterwards and has at most two declarations. *)
Lemma consolidateGroup_groups key decls decls' changes :
  consolidateGroup key decls = Some (decls', changes) →
  (∀ other, other ≠ key →
     filter (λ d, moduleSpecifier d = other) decls'
     = filter (λ d, moduleSpecifier d = other) decls)
  ∧ (filter (λ d, moduleSpecifier d = key) decls ≠ [] →
     filter (λ d, moduleSpecifier d = key) decls' ≠ []
     ∧ (length (filter (λ d, moduleSpecifier d = key) decls') ≤ 2)%nat)
  ∧ (filter (λ d, moduleSpecifier d = key) decls = [] → decls' = decls).
Proof.
  unfold consolidateGroup.
  pose (inGroup := λ d, bool_decide (moduleSpecifier d = key)).
  assert (∀ l : list ImportDeclaration,
            filter (λ d, moduleSpecifier d = key) l
            = filter (λ d, inGroup d = true) l) as Hsame.
  { intros l. apply list_filter_iff. intros d. unfold inGroup.
    by rewrite bool_decide_eq_true. }
  rewrite !Hsame.
  change (λ d, bool_decide (moduleSpecifier d = key)) with inGroup.
  change (λ d, bool_decide (moduleSpecifier d = key) = true)
    with (λ d, inGroup d = true).
  remember (filter (λ d, inGroup d = true) decls) as imports eqn:Himp.
  assert (∀ new other, other ≠ key → Forall (λ d, moduleSpecifier d = key) new →
            filter (λ d, moduleSpecifier d = other) (replaceGroup inGroup new decls)
            = filter (λ d, moduleSpecifier d = other) decls) as Hother.
  { intros new other Hne Hnew. apply replaceGroup_outside.
    - intros d Hd. unfold inGroup. apply bool_decide_eq_false_2. congruence.
    - eapply Forall_impl; [exact Hnew|]. intros d Hd. cbn beta. congruence. }
  assert (Forall (λ d, moduleSpecifier d = key) imports) as Himports.
  { rewrite Himp. apply Forall_forall. intros d [Hd _]%list_elem_of_filter.
    by apply bool_decide_eq_true_1 in Hd. }
  assert (Forall (λ d, inGroup d = true) imports) as Himports'.
  { eapply Forall_impl; [exact Himports|]. intros d Hd. by apply bool_decide_eq_true_2. }
  case_bool_decide as Hmany.
  2:{ intros [= <- <-]. split; [done|]. split; [|done].
      intros Hne. replace (filter _ decls) with imports by (by rewrite Himp).
      split; [done|]. lia. }
  destruct (readBack _ _ _ _ _) as [newImports|] eqn:Hread; [|done].
  apply readBack_shape in Hread as [Hlen Hkey].
  assert (imports ≠ []) as Hne.
  { intros Hnil. rewrite Hnil in Hmany. cbn in Hmany. lia. }
  assert (∀ new, Forall (λ d, inGroup d = true) new →
            filter (λ d, inGroup d = true) (replaceGroup inGroup new decls) = new)
    as Hinside.
  { intros new Hnew. apply replaceGroup_inside; [done|].
    by replace (filter _ decls) with imports by (by rewrite Himp). }
  destruct newImports as [|d1 rest].
  - intros [= <- <-]. split; [|split].
    + intros other Hother'. apply Hother; [done|]. by apply Forall_take.
    + intros _.
      replace (filter _ (replaceGroup _ _ _)) with (take 1 imports)
        by (symmetry; apply Hinside; by apply Forall_take).
      split; [by destruct imports|]. rewrite length_take. lia.
    + intros Hempty. by rewrite Hempty in Hne.
  - intros [= <- <-]. split; [|split].
    + intros other Hother'. by apply Hother.
    + intros _.
      replace (filter _ (replaceGroup _ _ _)) with (d1 :: rest); [done|].
      symmetry. apply Hinside.
      eapply Forall_impl; [exact Hkey|]. intros d Hd. by apply bool_decide_eq_true_2.
    + intros Hempty. by rewrite Hempty in Hne.
Qed.

Lemma consolidateGroups_groups keys : ∀ decls decls' changes,
  consolidateGroups keys decls = Some (decls', changes) →
  NoDup keys →
  (∀ key, key ∉ keys →
     filter (λ d, moduleSpecifier d = key) decls'
     = filter (λ d, moduleSpecifier d = key) decls)
  ∧ (∀ key, key ∈ keys → filter (λ d, moduleSpecifier d = key) decls ≠ [] →
       filter (λ d, moduleSpecifier d = key) decls' ≠ []
       ∧ (length (filter (λ d, moduleSpecifier d = key) decls') ≤ 2)%nat).
Proof.
  induction keys as [|k keys IH]; intros decls decls' changes Hrun Hnodup.
  { injection Hrun as <- <-. split; [done|]. by intros key ?%elem_of_nil. }
  cbn [consolidateGroups] in Hrun.
  destruct (consolidateGroup k decls) as [[decls1 changes1]|] eqn:Hk; [|done].
  destruct (consolidateGroups keys decls1) as [[decls2 changes2]|] eqn:Hrest; [|done].
  injection Hrun as <- <-. apply NoDup_cons in Hnodup as [Hk' Hnodup].
  destruct (consolidateGroup_groups k decls decls1 changes1 Hk) as (Hother & Hgroup & _).
  destruct (IH decls1 decls2 changes2 Hrest Hnodup) as [Hout Hin]. split.
  - intros key Hkey. rewrite Hout by set_solver. apply Hother. set_solver.
  - intros key [->|Hkey]%elem_of_cons Hne.
    + rewrite Hout by done. by apply Hgroup.
    + assert (key ≠ k) as Hneq by (intros ->; done).
      apply Hin; [done|]. by rewrite Hother.
Qed.

(** X18. After the consolidation every module is imported by at most two
    declarations, and the modules imported are the same as before. *)
Theorem consolidation_leaves_two_imports_per_module decls decls' changes :
  consolidateImportsFromSameModule decls = Some (decls', changes) →
  ∀ key,
    (length (filter (λ d, moduleSpecifier d = key) decls') ≤ 2)%nat
    ∧ (key ∈ moduleSpecifier <$> decls' ↔ key ∈ moduleSpecifier <$> decls).
Proof.
  unfold consolidateImportsFromSameModule, groupKeys. intros Hrun key.
  destruct (consolidateGroups_groups _ _ _ _ Hrun) as [Hout Hin];
    [apply NoDup_remove_dups|].
  assert (∀ l : list ImportDeclaration,
            key ∈ moduleSpecifier <$> l ↔ filter (λ d, moduleSpecifier d = key) l ≠ [])
    as Hmember.
  { intros l. rewrite list_elem_of_fmap. split.
    - intros (d & -> & Hd) Hnil.
      assert (d ∈ filter (λ d0, moduleSpecifier d0 = moduleSpecifier d) l) as Hd'
        by by apply list_elem_of_filter.
      rewrite Hnil in Hd'. by apply elem_of_nil in Hd'.
    - intros Hne. destruct (filter _ l) as [|d r] eqn:E; [done|].
      assert (d ∈ filter (λ d0, moduleSpecifier d0 = key) l) as Hd by (rewrite E; by left).
      apply list_elem_of_filter in Hd as [Hd ?]. by exists d. }
  destruct (decide (key ∈ moduleSpecifier <$> decls)) as [Hkey|Hkey].
  - destruct (Hin key) as [Hne Hlen]; [by apply elem_of_remove_dups|by apply Hmember|].
    split; [done|]. split; [done|]. intros _. by apply Hmember.
  - rewrite !Hmember, Hout by (by rewrite elem_of_remove_dups).
    split; [|done]. rewrite Hmember in Hkey.
    destruct (filter _ decls); [cbn; lia|]. by destruct Hkey.
Qed.

Lemma consolidation_leaves_two_imports_per_module_witness :
  (length (filter (λ d, moduleSpecifier d = "./a")
             [ {| moduleSpecifier := "./a"; defaultImport := None; namespaceImport := None;
                  namedBindings := Some [plainName "x"; plainName "y"; plainName "z"];
                  isTypeOnly := false |} ]) ≤ 2)%nat.
Proof.
  apply (consolidation_leaves_two_imports_per_module
           [Example.namedImport "./a" ["x"]; Example.namedImport "./a" ["y"];
            Example.namedImport "./a" ["z"]]
           _ [Consolidated
                [Example.namedImport "./a" ["x"]; Example.namedImport "./a" ["y"];
                 Example.namedImport "./a" ["z"]]
                [ {| moduleSpecifier := "./a"; defaultImport := None;
                     namespaceImport := None;
                     namedBindings := Some [plainName "x"; plainName "y"; plainName "z"];
                     isTypeOnly := false |} ]]).
  reflexivity.
Defined.

End consolidation.
